(** * setpci: register-specification resolver and batch execution engine

    A shallow embedding of [setpci.c] (The PCI Utilities, "Manipulate PCI
    Configuration Registers") and the properties of its parser and of its
    execution engine, with the byte swaps of [lib/internal.h].

    Conventions of the embedding:
    - [unsigned int] is a [Z] in [0, 2^32) with the wrap-around written out
      ([u32]); [int] is a [Z] wrapped by [i32]; [unsigned long] has the width
      of the platform ([ULONG_MAX]).
    - a C string is a [string] (argument tokens hold no NUL character); a
      pointer into a buffer is the text it points at.
    - [usage(...)] and [die(...)] end the process: every fallible function
      returns a [result], the failure naming the call that ended the run.
    - the PCI library ([pci_filter_*], [pci_find_cap], [pci_read_*],
      [pci_write_*]) is an interface, [PciLib]; every call of an access
      primitive is recorded in a trace of [event]s. *)

From Stdlib Require Import ZArith List String Ascii Bool Lia Arith Sorted.
From Equations Require Import Equations.
Import ListNotations.

Local Open Scope string_scope.
Local Open Scope Z_scope.

Set Implicit Arguments.

(** ** Machine integers *)

Module CInt.

Definition UINT_MAX : Z := 0xFFFFFFFF.

(** Conversion to [unsigned int]. *)
Definition u32 (z : Z) : Z := z mod 0x100000000.

(** Conversion to [int] (two's complement). *)
Definition i32 (z : Z) : Z := (z + 0x80000000) mod 0x100000000 - 0x80000000.

(** [~m] on an [unsigned int]. *)
Definition not32 (m : Z) : Z := Z.land (Z.lnot m) UINT_MAX.

(** Conversion to the [byte] / [word] / [u32] parameter of the write
    primitive of the given byte width. *)
Definition trunc (width : Z) (x : Z) : Z :=
  match width with
  | 1 => x mod 0x100
  | 2 => x mod 0x10000
  | _ => x mod 0x100000000
  end.

End CInt.
Import CInt.

(** The width of [unsigned long] is the platform's: [ULONG_MAX] is [~0UL],
    and C makes it at least [UINT_MAX]. *)
Class Platform : Type := {
  ULONG_MAX : Z;
  ULONG_MAX_min : UINT_MAX <= ULONG_MAX
}.

Definition ILP32 : Platform :=
  {| ULONG_MAX := 0xFFFFFFFF; ULONG_MAX_min := Z.le_refl UINT_MAX |}.

Definition LP64 : Platform :=
  {| ULONG_MAX := 0xFFFFFFFFFFFFFFFF;
     ULONG_MAX_min := Zle_bool_imp_le UINT_MAX 0xFFFFFFFFFFFFFFFF eq_refl |}.

(** ** C strings *)

Module CStr.

Definition code (c : ascii) : Z := Z.of_nat (nat_of_ascii c).

Definition is_upper (c : ascii) : bool := (65 <=? code c) && (code c <=? 90).

(** [tolower] in the C locale. *)
Definition tolower (c : ascii) : ascii :=
  if is_upper c then ascii_of_nat (nat_of_ascii c + 32) else c.

(** [isspace] in the C locale: space, and \t \n \v \f \r. *)
Definition isspace (c : ascii) : bool :=
  (code c =? 32) || ((9 <=? code c) && (code c <=? 13)).

(** Value of a hexadecimal digit. *)
Definition hex_value (c : ascii) : option Z :=
  let n := code c in
  if (48 <=? n) && (n <=? 57) then Some (n - 48)
  else if (97 <=? n) && (n <=? 102) then Some (n - 87)
  else if (65 <=? n) && (n <=? 70) then Some (n - 55)
  else None.

(** [strchr(s, c)] followed by [*p++ = 0]: the text before the first [c], and
    the text after it when there is one ([None] is the NULL pointer). *)
Fixpoint split_at (c : ascii) (s : string) : string * option string :=
  match s with
  | EmptyString => (EmptyString, None)
  | String a r =>
      if Ascii.eqb a c then (EmptyString, Some r)
      else let (h, t) := split_at c r in (String a h, t)
  end.

(** [!strcasecmp(a, b)]. *)
Fixpoint strcaseeq (a b : string) : bool :=
  match a, b with
  | EmptyString, EmptyString => true
  | String x a', String y b' => Ascii.eqb (tolower x) (tolower y) && strcaseeq a' b'
  | _, _ => false
  end.

(** [!strncasecmp(s, p, strlen(p))]: [s] starts with [p], letter case apart. *)
Fixpoint has_prefix_nocase (p s : string) : bool :=
  match p, s with
  | EmptyString, _ => true
  | String x p', String y s' => Ascii.eqb (tolower x) (tolower y) && has_prefix_nocase p' s'
  | String _ _, EmptyString => false
  end.

(** [s + n]. *)
Fixpoint advance (n : nat) (s : string) : string :=
  match n, s with
  | O, _ => s
  | S n', String _ r => advance n' r
  | S _, EmptyString => EmptyString
  end.

(** The number of [c] in [s]. *)
Fixpoint count_char (c : ascii) (s : string) : nat :=
  match s with
  | EmptyString => O
  | String a r => (if Ascii.eqb a c then 1 else 0) + count_char c r
  end.

End CStr.
Import CStr.

(** ** [strtoul(c, &stop, 16)]

    The C library's function, after ISO C 7.22.1.4: white space, an optional
    sign, an optional [0x] and the longest run of hexadecimal digits; with no
    digit at all nothing is consumed and the value is 0; a magnitude above
    [ULONG_MAX] gives [ULONG_MAX] and [ERANGE]; a minus sign negates the value
    in [unsigned long]. *)

Module Strtoul.

Record conversion : Type := {
  number : Z;        (* the value returned *)
  stop : string;     (* the text left at [*endptr] *)
  erange : bool      (* errno was set *)
}.

Fixpoint skip_space (s : string) : string :=
  match s with
  | String a r => if isspace a then skip_space r else s
  | EmptyString => s
  end.

(** The digits: the accumulated magnitude, whether a digit was seen, and the
    text after the last digit. *)
Fixpoint digits (acc : Z) (seen : bool) (s : string) : Z * bool * string :=
  match s with
  | String a r =>
      match hex_value a with
      | Some d => digits (acc * 16 + d) true r
      | None => (acc, seen, s)
      end
  | EmptyString => (acc, seen, s)
  end.

Definition skip_sign (s : string) : bool * string :=
  match s with
  | String a r =>
      if Ascii.eqb a "-" then (true, r)
      else if Ascii.eqb a "+" then (false, r)
      else (false, s)
  | EmptyString => (false, s)
  end.

(** [0x] is part of the number only when a digit follows it. *)
Definition skip_0x (s : string) : string :=
  match s with
  | String a (String b (String d r)) =>
      if Ascii.eqb a "0" && (Ascii.eqb b "x" || Ascii.eqb b "X")
      then match hex_value d with
           | Some _ => String d r
           | None => s
           end
      else s
  | _ => s
  end.

Definition strtoul16 {P : Platform} (c : string) : conversion :=
  let (neg, s) := skip_sign (skip_space c) in
  let '(mag, seen, rest) := digits 0 false (skip_0x s) in
  if negb seen then {| number := 0; stop := c; erange := false |}
  else if ULONG_MAX <? mag then {| number := ULONG_MAX; stop := rest; erange := true |}
  else {| number := if neg then (ULONG_MAX + 1 - mag) mod (ULONG_MAX + 1) else mag;
          stop := rest; erange := false |}.

End Strtoul.
Import Strtoul.

(** ** Data model *)

(** A device of [pacc->devices] ([struct pci_dev]: the fields the tool reads). *)
Record pci_dev : Type := { domain : Z; bus : Z; dev : Z; func : Z }.

(** A device vector ([struct pci_dev **]): the address of the array that
    [select_devices] allocated and the devices it holds before its NULL.
    Two vectors are the same pointer when their addresses are equal. *)
Record vector : Type := { vec_addr : nat; vec_devs : list pci_dev }.

Definition same_vector (a b : vector) : bool := Nat.eqb (vec_addr a) (vec_addr b).

(** [struct value]. *)
Record value : Type := { v_value : Z; v_mask : Z }.

(** [struct op]; [num_values] is the length of [values]. *)
Record op : Type := {
  dev_vector : vector;
  cap : Z;          (* 0=none, 10000-100ff=normal, 20000-2ffff=extended *)
  addr : Z;
  width : Z;        (* byte width of the access *)
  values : list value
}.

Definition num_values (o : op) : Z := Z.of_nat (List.length (values o)).

Definition max_values : list Z := [0; 0xff; 0xffff; 0; 0xffffffff].

(** [struct reg_name]. *)
Record reg_name : Type := Reg { rn_cap : Z; rn_offset : Z; rn_width : Z; rn_name : string }.

(** The global flags [force], [verbose] and [demo_mode]. *)
Record flags : Type := { force : Z; verbose : Z; demo_mode : Z }.

(** How a run ends early.  [usage] and [die] both print a message and exit
    with status 1; each constructor is one call site, with the text of its
    message and what it is formatted with. *)
Inductive error : Type :=
| UsageNoMessage                      (* usage(NULL) *)
| NoOperation                         (* usage: No operation specified *)
| MissingValue                        (* usage: Missing value *)
| InvalidWidth (s : string)           (* usage: Invalid width, and the suffix *)
| UnknownRegister (base : string)     (* usage: Unknown register, and base *)
| MissingWidth                        (* usage: Missing width *)
| InvalidOffset (s : string)          (* die: Invalid offset, and offset *)
| RegisterOutOfRange                  (* die: Register number out of range! *)
| Unaligned                           (* die: Unaligned register address! *)
| InvalidValue (s : string)           (* usage: Invalid value, and value *)
| ValueOutOfRange (s : string)        (* usage: Value is out of range, and value *)
| InvalidMask (s : string)            (* usage: Invalid mask, and f+1 *)
| MaskOutOfRange (s : string)         (* usage: Mask is out of range, and f+1 *)
| FilterError (opt : ascii) (msg : string)   (* die: -s or -d, and the message of the library *)
| CapabilityNotFound (c : Z)          (* die: Capability not found, and op->cap *)
| OutOfRange                          (* die: Out of range *)
| PrintVersion                        (* the version is printed; exit(0) *)
| Undefined.                          (* the C program has no defined behaviour *)

Inductive result (A : Type) : Type :=
| Ok (a : A)
| Err (e : error).
Arguments Ok {A} a.
Arguments Err {A} e.

Definition bind {A B : Type} (r : result A) (k : A -> result B) : result B :=
  match r with
  | Ok a => k a
  | Err e => Err e
  end.

Declare Scope result_scope.
Delimit Scope result_scope with result.
Notation "x <- c ;; k" := (bind c (fun x => k))
  (at level 61, c at next level, right associativity) : result_scope.
Notation "' p <- c ;; k" := (bind c (fun x => let 'p := x in k))
  (at level 61, p pattern, c at next level, right associativity) : result_scope.
Local Open Scope result_scope.

(** ** The register name table *)

Definition pci_reg_names : list reg_name :=
[
  Reg 0        0x00  2 "VENDOR_ID";
  Reg 0        0x02  2 "DEVICE_ID";
  Reg 0        0x04  2 "COMMAND";
  Reg 0        0x06  2 "STATUS";
  Reg 0        0x08  1 "REVISION";
  Reg 0        0x09  1 "CLASS_PROG";
  Reg 0        0x0a  2 "CLASS_DEVICE";
  Reg 0        0x0c  1 "CACHE_LINE_SIZE";
  Reg 0        0x0d  1 "LATENCY_TIMER";
  Reg 0        0x0e  1 "HEADER_TYPE";
  Reg 0        0x0f  1 "BIST";
  Reg 0        0x10  4 "BASE_ADDRESS_0";
  Reg 0        0x14  4 "BASE_ADDRESS_1";
  Reg 0        0x18  4 "BASE_ADDRESS_2";
  Reg 0        0x1c  4 "BASE_ADDRESS_3";
  Reg 0        0x20  4 "BASE_ADDRESS_4";
  Reg 0        0x24  4 "BASE_ADDRESS_5";
  Reg 0        0x28  4 "CARDBUS_CIS";
  Reg 0        0x2c  4 "SUBSYSTEM_VENDOR_ID";
  Reg 0        0x2e  2 "SUBSYSTEM_ID";
  Reg 0        0x30  4 "ROM_ADDRESS";
  Reg 0        0x3c  1 "INTERRUPT_LINE";
  Reg 0        0x3d  1 "INTERRUPT_PIN";
  Reg 0        0x3e  1 "MIN_GNT";
  Reg 0        0x3f  1 "MAX_LAT";
  Reg 0        0x18  1 "PRIMARY_BUS";
  Reg 0        0x19  1 "SECONDARY_BUS";
  Reg 0        0x1a  1 "SUBORDINATE_BUS";
  Reg 0        0x1b  1 "SEC_LATENCY_TIMER";
  Reg 0        0x1c  1 "IO_BASE";
  Reg 0        0x1d  1 "IO_LIMIT";
  Reg 0        0x1e  2 "SEC_STATUS";
  Reg 0        0x20  2 "MEMORY_BASE";
  Reg 0        0x22  2 "MEMORY_LIMIT";
  Reg 0        0x24  2 "PREF_MEMORY_BASE";
  Reg 0        0x26  2 "PREF_MEMORY_LIMIT";
  Reg 0        0x28  4 "PREF_BASE_UPPER32";
  Reg 0        0x2c  4 "PREF_LIMIT_UPPER32";
  Reg 0        0x30  2 "IO_BASE_UPPER16";
  Reg 0        0x32  2 "IO_LIMIT_UPPER16";
  Reg 0        0x38  4 "BRIDGE_ROM_ADDRESS";
  Reg 0        0x3e  2 "BRIDGE_CONTROL";
  Reg 0        0x10  4 "CB_CARDBUS_BASE";
  Reg 0        0x14  2 "CB_CAPABILITIES";
  Reg 0        0x16  2 "CB_SEC_STATUS";
  Reg 0        0x18  1 "CB_BUS_NUMBER";
  Reg 0        0x19  1 "CB_CARDBUS_NUMBER";
  Reg 0        0x1a  1 "CB_SUBORDINATE_BUS";
  Reg 0        0x1b  1 "CB_CARDBUS_LATENCY";
  Reg 0        0x1c  4 "CB_MEMORY_BASE_0";
  Reg 0        0x20  4 "CB_MEMORY_LIMIT_0";
  Reg 0        0x24  4 "CB_MEMORY_BASE_1";
  Reg 0        0x28  4 "CB_MEMORY_LIMIT_1";
  Reg 0        0x2c  2 "CB_IO_BASE_0";
  Reg 0        0x2e  2 "CB_IO_BASE_0_HI";
  Reg 0        0x30  2 "CB_IO_LIMIT_0";
  Reg 0        0x32  2 "CB_IO_LIMIT_0_HI";
  Reg 0        0x34  2 "CB_IO_BASE_1";
  Reg 0        0x36  2 "CB_IO_BASE_1_HI";
  Reg 0        0x38  2 "CB_IO_LIMIT_1";
  Reg 0        0x3a  2 "CB_IO_LIMIT_1_HI";
  Reg 0        0x40  2 "CB_SUBSYSTEM_VENDOR_ID";
  Reg 0        0x42  2 "CB_SUBSYSTEM_ID";
  Reg 0        0x44  4 "CB_LEGACY_MODE_BASE";
  Reg 0x10001  0     0 "CAP_PM";
  Reg 0x10002  0     0 "CAP_AGP";
  Reg 0x10003  0     0 "CAP_VPD";
  Reg 0x10004  0     0 "CAP_SLOTID";
  Reg 0x10005  0     0 "CAP_MSI";
  Reg 0x10006  0     0 "CAP_CHSWP";
  Reg 0x10007  0     0 "CAP_PCIX";
  Reg 0x10008  0     0 "CAP_HT";
  Reg 0x10009  0     0 "CAP_VNDR";
  Reg 0x1000a  0     0 "CAP_DBG";
  Reg 0x1000b  0     0 "CAP_CCRC";
  Reg 0x1000c  0     0 "CAP_HOTPLUG";
  Reg 0x1000d  0     0 "CAP_SSVID";
  Reg 0x1000e  0     0 "CAP_AGP3";
  Reg 0x1000f  0     0 "CAP_SECURE";
  Reg 0x10010  0     0 "CAP_EXP";
  Reg 0x10011  0     0 "CAP_MSIX";
  Reg 0x10012  0     0 "CAP_SATA";
  Reg 0x10013  0     0 "CAP_AF";
  Reg 0x20001  0     0 "ECAP_AER";
  Reg 0x20002  0     0 "ECAP_VC";
  Reg 0x20003  0     0 "ECAP_DSN";
  Reg 0x20004  0     0 "ECAP_PB";
  Reg 0x20005  0     0 "ECAP_RCLINK";
  Reg 0x20006  0     0 "ECAP_RCILINK";
  Reg 0x20007  0     0 "ECAP_RCECOLL";
  Reg 0x20008  0     0 "ECAP_MFVC";
  Reg 0x2000a  0     0 "ECAP_RBCB";
  Reg 0x2000b  0     0 "ECAP_VNDR";
  Reg 0x2000d  0     0 "ECAP_ACS";
  Reg 0x2000e  0     0 "ECAP_ARI";
  Reg 0x2000f  0     0 "ECAP_ATS";
  Reg 0x20010  0     0 "ECAP_SRIOV"
].

(** ** The parser *)

Section Parser.

Context {P : Platform}.

Fixpoint find_reg_name (table : list reg_name) (name : string) : option reg_name :=
  match table with
  | [] => None
  | r :: table' => if strcaseeq (rn_name r) name then Some r else find_reg_name table' name
  end.

Definition parse_reg_name (name : string) : option reg_name :=
  find_reg_name pci_reg_names name.

(** What [parse_x32] returns: -1, 0 with the unconsumed text, or 1; in the
    last two cases [*resp] is the number. *)
Inductive x32 : Type :=
| X32_error
| X32_partial (l : Z) (stop : string)
| X32_full (l : Z).

Definition parse_x32 (c : string) : x32 :=
  match c with
  | EmptyString => X32_error
  | _ =>
      let r := strtoul16 c in
      if erange r then X32_error
      else if negb (Z.land (number r) UINT_MAX =? number r) then X32_error
      else match stop r with
           | EmptyString => X32_full (number r)
           | rest => X32_partial (number r) rest
           end
  end.

Definition set_reg (o : op) (c a w : Z) : op :=
  {| dev_vector := dev_vector o; cap := c; addr := a; width := w; values := values o |}.

(** [parse_register(op, base)]: fills [op->cap], [op->addr] and, from the
    table, [op->width]. *)
Definition parse_register (o : op) (base : string) : result op :=
  match parse_x32 base with
  | X32_full a => Ok (set_reg o 0 a (width o))
  | _ =>
      match parse_reg_name base with
      | Some r =>
          Ok (set_reg o (rn_cap r) (rn_offset r)
                (if negb (rn_width r =? 0) && (width o =? 0) then rn_width r else width o))
      | None =>
          if has_prefix_nocase "CAP" base then
            match parse_x32 (advance 3 base) with
            | X32_full c =>
                if c <? 0x100 then Ok (set_reg o (u32 (c + 0x10000)) 0 (width o))
                else Err (UnknownRegister base)
            | _ => Err (UnknownRegister base)
            end
          else if has_prefix_nocase "ECAP" base then
            match parse_x32 (advance 4 base) with
            | X32_full c =>
                if c <? 0x1000 then Ok (set_reg o (u32 (c + 0x20000)) 0 (width o))
                else Err (UnknownRegister base)
            | _ => Err (UnknownRegister base)
            end
          else Err (UnknownRegister base)
      end
  end.

(** The limit of a width: [max_values[width]]. *)
Definition limit (w : Z) : Z := nth (Z.to_nat w) max_values 0.

(** [ll > lim && ll < ~0UL - lim], the comparison in [unsigned long]. *)
Definition out_of_range (lim ll : Z) : bool :=
  (lim <? ll) && (ll <? (ULONG_MAX - lim) mod (ULONG_MAX + 1)).

(** One round of the loop over the values of [parse_op]: [text] is the
    current [value] cut at its comma, [f] is what the local pointer [f]
    points at when the round starts.  [parse_x32] stores to [f] only when it
    stops before the end of [text]. *)
Definition parse_value (lim : Z) (f : string) (text : string) : result (value * string) :=
  match parse_x32 text with
  | X32_error => Err (InvalidValue text)
  | r =>
      let f := match r with X32_partial _ rest => rest | _ => f end in
      let ll := match r with X32_partial l _ => l | X32_full l => l | X32_error => 0 end in
      match f with
      | String a mask_text =>
          if negb (Ascii.eqb a ":") then Err (InvalidValue text)
          else if out_of_range lim ll then Err (ValueOutOfRange text)
          else match parse_x32 mask_text with
               | X32_full m =>
                   if out_of_range lim m then Err (MaskOutOfRange mask_text)
                   else Ok ({| v_value := Z.land ll m; v_mask := m |}, f)
               | _ => Err (InvalidMask mask_text)
               end
      | EmptyString =>
          if out_of_range lim ll then Err (ValueOutOfRange text)
          else Ok ({| v_value := ll; v_mask := UINT_MAX |}, f)
      end
  end.

(** The loop [for (j=0; j<n; j++)]: [cur] is the pointer [value], NULL
    ([None]) once the last comma has been passed. *)
Fixpoint parse_values (n : nat) (lim : Z) (f : string) (cur : option string)
  : result (list value) :=
  match n with
  | O => Ok []
  | S n' =>
      match cur with
      | None => Err Undefined
      | Some v =>
          let (text, e) := split_at "," v in
          ' (x, f') <- parse_value lim f text ;;
          xs <- parse_values n' lim f' e ;;
          Ok (x :: xs)
      end
  end.

(** The parts of [parse_op], in the order of the source. *)

(** "Look for setting of values and count how many". *)
Definition count_values (value_text : option string) : result nat :=
  match value_text with
  | None => Ok O
  | Some v =>
      match v with
      | EmptyString => Err MissingValue
      | _ => Ok (S (count_char "," v))
      end
  end.

(** "What is the width suffix?"  A suffix of no character is refused by one
    of the two calls of [usage("Invalid width ...")]. *)
Definition width_suffix (width_text : option string) : result Z :=
  match width_text with
  | None => Ok 0
  | Some (String a EmptyString) =>
      match Z.land (code a) 0xdf with
      | 66 => Ok 1
      | 87 => Ok 2
      | 76 => Ok 4
      | _ => Err (InvalidWidth (String a EmptyString))
      end
  | Some s => Err (InvalidWidth s)
  end.

(** "Add offset". *)
Definition add_offset (o : op) (offset : option string) : result op :=
  match offset with
  | None => Ok o
  | Some off_text =>
      match parse_x32 off_text with
      | X32_full off =>
          if 0x1000 <=? off then Err (InvalidOffset off_text)
          else Ok (set_reg o (cap o) (u32 (addr o + off)) (width o))
      | _ => Err (InvalidOffset off_text)
      end
  end.

(** "Check range": [n] is the number of values, the arithmetic is that of
    [unsigned int]. *)
Definition check_range (o : op) (n : nat) : result unit :=
  let count := if Nat.eqb n 0 then 1 else Z.of_nat n in
  if (0x1000 <=? addr o) || (0x1000 <? u32 (addr o + u32 (width o * count)))
  then Err RegisterOutOfRange
  else if negb (Z.land (addr o) (u32 (width o - 1)) =? 0) then Err Unaligned
  else Ok tt.

Definition set_values (o : op) (vs : list value) : op :=
  {| dev_vector := dev_vector o; cap := cap o; addr := addr o; width := width o;
     values := vs |}.

(** [parse_op(c, selected_devices)], appending to the list [first_op].
    [f0] is what the local pointer [f], which has no initial value, points at
    when the loop over the values starts. *)
Definition parse_op (c : string) (selected_devices : vector) (f0 : string)
    (first_op : list op) : result (list op) :=
  let (base, value_text) := split_at "=" c in
  let (base, width_text) := split_at "." base in
  let (base, offset) := split_at "+" base in
  n <- count_values value_text ;;
  w <- width_suffix width_text ;;
  o <- parse_register
         {| dev_vector := selected_devices; cap := 0; addr := 0; width := w; values := [] |}
         base ;;
  if width o =? 0 then Err MissingWidth else
  o <- add_offset o offset ;;
  _ <- check_range o n ;;
  vs <- parse_values n (limit (width o)) f0 value_text ;;
  Ok (first_op ++ [set_values o vs])%list.

End Parser.

(** ** The PCI library

    The functions of [lib/] that [setpci] calls.  A filter is refined in place
    by [pci_filter_parse_slot] and [pci_filter_parse_id], which return an
    error message or NULL; [config] is the state of the configuration spaces
    behind the access primitives.  [GENERIC_OPTIONS] and
    [parse_generic_option] are the options of the access layer, of which only
    the acceptance matters here.  The read primitives return a [byte], a
    [word] and a [u32]; the write primitives take one. *)

Inductive cap_type : Type := PCI_CAP_NORMAL | PCI_CAP_EXTENDED.

Class PciLib : Type := {
  pci_filter : Type;
  pci_filter_init : pci_filter;
  pci_filter_parse_slot : pci_filter -> string -> string + pci_filter;
  pci_filter_parse_id : pci_filter -> string -> string + pci_filter;
  pci_filter_match : pci_filter -> pci_dev -> bool;
  GENERIC_OPTIONS : string;
  parse_generic_option : ascii -> option string -> bool;
  config : Type;
  pci_find_cap : config -> pci_dev -> Z -> cap_type -> option Z;
  pci_read_byte : config -> pci_dev -> Z -> Z;
  pci_read_word : config -> pci_dev -> Z -> Z;
  pci_read_long : config -> pci_dev -> Z -> Z;
  pci_write_byte : config -> pci_dev -> Z -> Z -> config;
  pci_write_word : config -> pci_dev -> Z -> Z -> config;
  pci_write_long : config -> pci_dev -> Z -> Z -> config
}.

(** ** Command line *)

Section CommandLine.

Context {P : Platform} {L : PciLib}.

(** [select_devices(filt)]: the first loop counts ([count_matches], from
    [cnt = 1]) for the size of the array, the second copies the devices and
    NULL ends them.  [heap] holds the arrays allocated so far, the new one
    gets the next address. *)
Fixpoint count_matches (filt : pci_filter) (z : list pci_dev) (cnt : nat) : nat :=
  match z with
  | [] => cnt
  | d :: z' => count_matches filt z' (if pci_filter_match filt d then S cnt else cnt)
  end.

Fixpoint copy_matches (filt : pci_filter) (z : list pci_dev) : list pci_dev :=
  match z with
  | [] => []
  | d :: z' => if pci_filter_match filt d then d :: copy_matches filt z'
               else copy_matches filt z'
  end.

Definition select_devices (devices : list pci_dev) (heap : list vector)
    (filt : pci_filter) : vector * list vector :=
  let b := {| vec_addr := List.length heap;
              vec_devs := copy_matches filt devices |} in
  (b, (heap ++ [b])%list).

(** [parse_filter(argc, argv, i, filter)] on the token [c = argv[i]]; [next]
    is [argv[i+1]] when it exists.  Returns the filter and whether the next
    token was taken as the argument (the index returned is then [i+2]). *)
Definition parse_filter (c : string) (next : option string) (filter : pci_filter)
  : result (pci_filter * bool) :=
  match c with
  | String _ (String k tail) =>
      if negb (Ascii.eqb k "s" || Ascii.eqb k "d") then Err UsageNoMessage
      else
        ' (d, took) <- match tail with
                       | String e tail' =>
                           Ok (if Ascii.eqb e "=" then tail' else tail, false)
                       | EmptyString =>
                           match next with
                           | Some a => Ok (a, true)
                           | None => Err UsageNoMessage
                           end
                       end ;;
        if Ascii.eqb k "s" then
          match pci_filter_parse_slot filter d with
          | inl msg => Err (FilterError "s" msg)
          | inr filter' => Ok (filter', took)
          end
        else
          match pci_filter_parse_id filter d with
          | inl msg => Err (FilterError "d" msg)
          | inr filter' => Ok (filter', took)
          end
  | _ => Err UsageNoMessage
  end.

(** The states of [parse_ops]. *)
Inductive parser_state : Type := STATE_INIT | STATE_GOT_FILTER | STATE_GOT_OP.

(** The variables of [parse_ops] and what it builds: the global list
    [first_op], the arrays allocated by [select_devices], and the tokens for
    which the warning "No devices selected" went to stderr.  [filter] has no
    value before the first filter token sets it, and is not read before; a
    parse that ends in an error keeps nothing of this, the message is all
    that is left of it. *)
Record parser : Type := {
  state : parser_state;
  filter : pci_filter;
  selected_devices : option vector;
  first_op : list op;
  heap : list vector;
  warnings : list string
}.

Definition parser_init : parser :=
  {| state := STATE_INIT; filter := pci_filter_init; selected_devices := None;
     first_op := []; heap := []; warnings := [] |}.

Definition is_filter_token (c : string) : bool :=
  match c with
  | String a _ => Ascii.eqb a "-"
  | EmptyString => false
  end.

(** The branch of [parse_ops] for a token that starts with [-]. *)
Definition filter_token (p : parser) (c : string) (next : option string)
  : result (parser * bool) :=
  let filter0 := match state p with
                 | STATE_GOT_FILTER => filter p
                 | _ => pci_filter_init
                 end in
  ' (filter', took) <- parse_filter c next filter0 ;;
  Ok ({| state := STATE_GOT_FILTER; filter := filter';
         selected_devices := selected_devices p; first_op := first_op p;
         heap := heap p; warnings := warnings p |}, took).

(** The branch of [parse_ops] for any other token.  [f0] is what the
    uninitialised pointer of [parse_op] points at in this call. *)
Definition op_token (fl : flags) (devices : list pci_dev) (f0 : string)
    (p : parser) (c : string) : result parser :=
  match state p with
  | STATE_INIT => Err UsageNoMessage
  | _ =>
      let (sel, heap') :=
        match state p with
        | STATE_GOT_FILTER =>
            let (b, h) := select_devices devices (heap p) (filter p) in (Some b, h)
        | _ => (selected_devices p, heap p)
        end in
      match sel with
      | None => Err Undefined
      | Some vec =>
          let warnings' :=
            match vec_devs vec with
            | [] => if force fl =? 0 then (warnings p ++ [c])%list else warnings p
            | _ :: _ => warnings p
            end in
          ops <- parse_op c vec f0 (first_op p) ;;
          Ok {| state := STATE_GOT_OP; filter := filter p; selected_devices := sel;
                first_op := ops; heap := heap'; warnings := warnings' |}
      end
  end.

(** The loop of [parse_ops] over [argv[i..]].  [junk k] is what the
    uninitialised pointer of the call of [parse_op] for the [k]-th operation
    points at. *)
Fixpoint parse_ops_loop (fl : flags) (devices : list pci_dev) (junk : nat -> string)
    (p : parser) (args : list string) : result parser :=
  match args with
  | [] => Ok p
  | c :: rest =>
      if is_filter_token c then
        ' (p', took) <- filter_token p c (hd_error rest) ;;
        match took, rest with
        | true, _ :: rest' => parse_ops_loop fl devices junk p' rest'
        | _, _ => parse_ops_loop fl devices junk p' rest
        end
      else
        p' <- op_token fl devices (junk (List.length (first_op p))) p c ;;
        parse_ops_loop fl devices junk p' rest
  end.

Definition parse_ops (fl : flags) (devices : list pci_dev) (junk : nat -> string)
    (args : list string) : result parser :=
  p <- parse_ops_loop fl devices junk parser_init args ;;
  match state p with
  | STATE_INIT => Err NoOperation
  | _ => Ok p
  end.

(** The characters of one option token, after its [-].  [at_start] is
    [c == d]; [next] is [argv[i]] when it exists.  [verbose++] and the like
    are on an [int] that a command line cannot overflow. *)
Inductive option_end : Type :=
| OptionsDone (fl : flags) (took : bool)   (* go on with the next token *)
| NotAnOption.                             (* return i-1 *)

(** [strchr(opts, ch)]: the text after the first [ch] in [opts]. *)
Fixpoint find_option (opts : string) (ch : ascii) : option string :=
  match opts with
  | EmptyString => None
  | String a r => if Ascii.eqb a ch then Some r else find_option r ch
  end.

Fixpoint parse_option_chars (at_start : bool) (c : string) (next : option string)
    (fl : flags) : result option_end :=
  match c with
  | EmptyString => Ok (OptionsDone fl false)
  | String a c' =>
      if Ascii.eqb a "v" then
        parse_option_chars false c' next
          {| force := force fl; verbose := verbose fl + 1; demo_mode := demo_mode fl |}
      else if Ascii.eqb a "f" then
        parse_option_chars false c' next
          {| force := force fl + 1; verbose := verbose fl; demo_mode := demo_mode fl |}
      else if Ascii.eqb a "D" then
        parse_option_chars false c' next
          {| force := force fl; verbose := verbose fl; demo_mode := demo_mode fl + 1 |}
      else
        match find_option GENERIC_OPTIONS a with
        | Some (String ":" _) =>
            match c', next with
            | String _ _, _ =>
                if parse_generic_option a (Some c') then Ok (OptionsDone fl false)
                else Err UsageNoMessage
            | EmptyString, Some arg =>
                if parse_generic_option a (Some arg) then Ok (OptionsDone fl true)
                else Err UsageNoMessage
            | EmptyString, None => Err UsageNoMessage
            end
        | Some _ =>
            if parse_generic_option a None then parse_option_chars false c' next fl
            else Err UsageNoMessage
        | None => if at_start then Ok NotAnOption else Err UsageNoMessage
        end
  end.

(** The loop of [parse_options]: the flags and the tokens left for
    [parse_ops]. *)
Fixpoint parse_options_loop (fl : flags) (args : list string)
  : result (flags * list string) :=
  match args with
  | [] => Ok (fl, [])
  | tok :: rest =>
      match tok with
      | String "-" c =>
          r <- parse_option_chars true c (hd_error rest) fl ;;
          match r with
          | NotAnOption => Ok (fl, args)
          | OptionsDone fl' took =>
              match took, rest with
              | true, _ :: rest' => parse_options_loop fl' rest'
              | _, _ => parse_options_loop fl' rest
              end
          end
      | _ => Ok (fl, args)
      end
  end.

(** [parse_options(argc, argv)]; [args] is [argv[1..]]. *)
Definition parse_options (args : list string) : result (flags * list string) :=
  match args with
  | [only] =>
      if String.eqb only "--version" then Err PrintVersion
      else parse_options_loop {| force := 0; verbose := 0; demo_mode := 0 |} args
  | _ => parse_options_loop {| force := 0; verbose := 0; demo_mode := 0 |} args
  end.

(** [scan_ops]: is there a write among the operations ([pacc->writeable])? *)
Fixpoint scan_ops (ops : list op) : bool :=
  match ops with
  | [] => false
  | o :: next => negb (num_values o =? 0) || scan_ops next
  end.

End CommandLine.

(** ** Output

    [printf] with the conversions [%02x], [%04x], [%08x] and [%x] of an
    [unsigned int]: at least [min] digits, lower case. *)

Module Printf.

Definition hex_digit (n : Z) : ascii :=
  nth (Z.to_nat n)
    ["0"; "1"; "2"; "3"; "4"; "5"; "6"; "7"; "8"; "9"; "a"; "b"; "c"; "d"; "e"; "f"]%char
    "0"%char.

(** The [k] low hexadecimal digits of [v], the most significant first. *)
Fixpoint hex_digits (k : nat) (v : Z) : string :=
  match k with
  | O => EmptyString
  | S k' => hex_digits k' (v / 16) ++ String (hex_digit (v mod 16)) EmptyString
  end.

(** Drops leading zeros while more than [min] digits are left. *)
Fixpoint strip (min : nat) (s : string) : string :=
  match s with
  | String a r =>
      if Ascii.eqb a "0" && Nat.ltb min (String.length s) then strip min r else s
  | EmptyString => s
  end.

Definition hex (min : nat) (v : Z) : string :=
  strip (Nat.max min 1) (hex_digits 8 (u32 v)).

(** The tables [formats] and [mask_formats] of [exec_op]: entries 0 and 3 are
    NULL, the others print with 2, 4 and 8 digits. *)
Definition formats : list (option nat) := [None; Some 2; Some 4; None; Some 8]%nat.
Definition mask_formats : list (option nat) := [None; Some 2; Some 4; None; Some 8]%nat.

(** [printf(mask_formats[width], y, value, mask, x)]. *)
Definition mask_format (k : nat) (y v m x : Z) : string :=
  hex k y ++ "->(" ++ hex k v ++ ":" ++ hex k m ++ ")->" ++ hex k x.

End Printf.
Import Printf.

(** [table[i]]; an index outside the array has no defined result. *)
Definition table_get {A : Type} (table : list A) (i : Z) : option A :=
  if i <? 0 then None else nth_error table (Z.to_nat i).

(** ** The execution engine *)

Section Engine.

Context {L : PciLib}.

(** What the run does to the outside, in order. *)
Inductive event : Type :=
| Print (s : string)
| FindCap (d : pci_dev) (id : Z) (kind : cap_type)
| Read (d : pci_dev) (pos : Z) (w : Z)
| Write (d : pci_dev) (pos : Z) (w : Z) (bits : Z).

Record run_state : Type := { space : config; trace : list event }.

(** A computation of the engine: it may end the process, and the state it
    reached is kept in both cases. *)
Definition run (A : Type) : Type := run_state -> result A * run_state.

Definition ret {A : Type} (a : A) : run A := fun s => (Ok a, s).

Definition fail {A : Type} (e : error) : run A := fun s => (Err e, s).

Definition rbind {A B : Type} (m : run A) (k : A -> run B) : run B :=
  fun s => match m s with
           | (Ok a, s') => k a s'
           | (Err e, s') => (Err e, s')
           end.

Definition emit (e : event) : run unit :=
  fun s => (Ok tt, {| space := space s; trace := (trace s ++ [e])%list |}).

End Engine.

Declare Scope run_scope.
Delimit Scope run_scope with run.
Notation "x <- c ;; k" := (rbind c (fun x => k))
  (at level 61, c at next level, right associativity) : run_scope.
Notation "c ;;; k" := (rbind c (fun _ => k))
  (at level 61, right associativity) : run_scope.

Section Exec.

Context {L : PciLib}.
Variable fl : flags.

Local Open Scope run_scope.

Definition when_verbose (m : run unit) : run unit :=
  if verbose fl =? 0 then ret tt else m.

(** The [switch (width)] around [pci_read_byte], [pci_read_word] and
    [pci_read_long]. *)
Definition read_width (w : Z) (d : pci_dev) (pos : Z) : run Z :=
  fun s =>
    let y := match w with
             | 1 => pci_read_byte (space s) d pos
             | 2 => pci_read_word (space s) d pos
             | _ => pci_read_long (space s) d pos
             end in
    (Ok y, {| space := space s; trace := (trace s ++ [Read d pos w])%list |}).

(** The [switch (width)] around [pci_write_byte], [pci_write_word] and
    [pci_write_long]; the argument is converted to the primitive's type. *)
Definition write_width (w : Z) (d : pci_dev) (pos : Z) (x : Z) : run unit :=
  fun s =>
    let space' := match w with
                  | 1 => pci_write_byte (space s) d pos (trunc w x)
                  | 2 => pci_write_word (space s) d pos (trunc w x)
                  | _ => pci_write_long (space s) d pos (trunc w x)
                  end in
    (Ok tt, {| space := space'; trace := (trace s ++ [Write d pos w (trunc w x)])%list |}).

Definition find_cap (d : pci_dev) (id : Z) (kind : cap_type) : run (option Z) :=
  fun s => (Ok (pci_find_cap (space s) d id kind),
            {| space := space s; trace := (trace s ++ [FindCap d id kind])%list |}).

(** [printf(formats[width], x)]. *)
Definition print_format (w : Z) (x : Z) : run unit :=
  match table_get formats w with
  | Some (Some k) => emit (Print (hex k x))
  | _ => fail Undefined
  end.

Definition print_mask_format (w : Z) (y v m x : Z) : run unit :=
  match table_get mask_formats w with
  | Some (Some k) => emit (Print (mask_format k y v m x))
  | _ => fail Undefined
  end.

(** The bits to write for one value: the body of the loop of [exec_op] up to
    the test of [demo_mode]. *)
Definition compute_bits (w : Z) (d : pci_dev) (pos : Z) (v : value) : run Z :=
  match table_get max_values w with
  | None => fail Undefined
  | Some lim =>
      if Z.land (v_mask v) lim =? lim then
        when_verbose (emit (Print " ") ;;; print_format w (v_value v)) ;;;
        ret (v_value v)
      else
        y <- read_width w d pos ;;
        let x := Z.lor (Z.land y (not32 (v_mask v))) (v_value v) in
        when_verbose (emit (Print " ") ;;;
                      print_mask_format w y (v_value v) (v_mask v) x) ;;;
        ret x
  end.

(** One value, once its address has been checked: the bits, then the write
    unless [demo_mode]. *)
Definition exec_value (w : Z) (d : pci_dev) (pos : Z) (v : value) : run unit :=
  x <- compute_bits w d pos v ;;
  if demo_mode fl =? 0 then write_width w d pos x else ret tt.

(** The loop [for (i=0; i<op->num_values; i++)]; [pos] is the running
    [addr].  [addr + width] cannot overflow where it is stored back: it was
    just found to be at most 0x1000. *)
Fixpoint exec_values (w : Z) (d : pci_dev) (pos : Z) (vs : list value) : run unit :=
  match vs with
  | [] => ret tt
  | v :: vs' =>
      if 0x1000 <? pos + w then fail OutOfRange
      else exec_value w d pos v ;;; exec_values w d (pos + w) vs'
  end.

(** The capability of [op], located on the device: its address, 0 when the
    operation names none. *)
Definition locate (o : op) (d : pci_dev) : run Z :=
  if cap o =? 0 then ret 0
  else
    c <- (if cap o <? 0x20000 then
            when_verbose (emit (Print ("(cap " ++ hex 2 (cap o - 0x10000) ++ ")"))) ;;;
            find_cap d (u32 (cap o - 0x10000)) PCI_CAP_NORMAL
          else
            when_verbose (emit (Print ("(ecap " ++ hex 4 (cap o - 0x20000) ++ ")"))) ;;;
            find_cap d (u32 (cap o - 0x20000)) PCI_CAP_EXTENDED) ;;
    match c with
    | Some a => ret (i32 a)
    | None => fail (CapabilityNotFound (cap o))
    end.

Definition newline : string := String (ascii_of_nat 10) EmptyString.

(** [exec_op] from [addr += op->addr] on; [base] is the address of the
    capability, 0 when there is none. *)
Definition exec_at (o : op) (d : pci_dev) (base : Z) : run unit :=
  let w := i32 (width o) in
  let pos := i32 (base + addr o) in
  when_verbose (emit (Print (":" ++ hex 2 pos))) ;;;
  if negb (num_values o =? 0) then
    exec_values w d pos (values o) ;;;
    when_verbose (emit (Print newline))
  else
    when_verbose (emit (Print " = ")) ;;;
    if 0x1000 <? pos + w then fail OutOfRange
    else
      x <- read_width w d pos ;;
      print_format w x ;;;
      emit (Print newline).

Definition exec_op (o : op) (d : pci_dev) : run unit :=
  when_verbose (emit (Print (hex 2 (bus d) ++ ":" ++ hex 2 (dev d) ++ "." ++ hex 1 (func d)))) ;;;
  base <- locate o d ;;
  exec_at o d base.

(** The loop [for (oops=op; oops && oops->dev_vector == vec; oops=oops->next)]. *)
Fixpoint exec_group (vec : vector) (oops : list op) (d : pci_dev) : run unit :=
  match oops with
  | [] => ret tt
  | o :: next =>
      if same_vector (dev_vector o) vec then exec_op o d ;;; exec_group vec next d
      else ret tt
  end.

(** The loop [while (dev = *pdev++)]. *)
Fixpoint exec_devices (vec : vector) (ops : list op) (pdev : list pci_dev) : run unit :=
  match pdev with
  | [] => ret tt
  | d :: pdev' => exec_group vec ops d ;;; exec_devices vec ops pdev'
  end.

(** The loop [while (op && op->dev_vector == vec) op = op->next]. *)
Fixpoint skip_group (vec : vector) (ops : list op) : list op :=
  match ops with
  | [] => []
  | o :: next => if same_vector (dev_vector o) vec then skip_group vec next else ops
  end.

Equations? execute (ops : list op) : run unit by wf (List.length ops) lt :=
  execute [] := ret tt;
  execute (o :: next) :=
    exec_devices (dev_vector o) (o :: next) (vec_devs (dev_vector o)) ;;;
    execute (skip_group (dev_vector o) (o :: next)).
Proof.
  clear execute. simpl. unfold same_vector at 1. rewrite Nat.eqb_refl.
  generalize (dev_vector o). intros vec.
  induction next as [|o' next IH]; simpl; [lia|].
  destruct (same_vector (dev_vector o') vec); simpl; lia.
Qed.

End Exec.

(** ** The program *)

Section Main.

Context {P : Platform} {L : PciLib}.

(** [main]: [args] is [argv[1..]], [devices] is [pacc->devices] after
    [pci_scan_bus].  [scan_ops] only tells the library whether a write is
    coming. *)
Definition main (junk : nat -> string) (devices : list pci_dev) (args : list string)
  : run unit :=
  fun s =>
    match (' (fl, rest) <- parse_options args ;;
           p <- parse_ops fl devices junk rest ;;
           Ok (fl, first_op p))%result with
    | Err e => (Err e, s)
    | Ok (fl, ops) => execute fl ops s
    end.

End Main.

(** ** A small instance of the library

    Enough of a PCI library to run the program on concrete command lines: a
    slot filter is a bus number, an id filter is a device number, each
    configuration space is a map from positions to bytes, and every device on
    bus 0 has the power-management capability (id 1) at 0x40. *)

Module Bench.

Definition filter : Type := option Z * option Z.

Definition parse_hex (d : string) : option Z :=
  match @parse_x32 LP64 d with
  | X32_full n => Some n
  | _ => None
  end.

Definition parse_slot (f : filter) (d : string) : string + filter :=
  match parse_hex d with
  | Some n => inr (Some n, snd f)
  | None => inl "Invalid slot number"
  end.

Definition parse_id (f : filter) (d : string) : string + filter :=
  match parse_hex d with
  | Some n => inr (fst f, Some n)
  | None => inl "Invalid device ID"
  end.

Definition matches (f : filter) (d : pci_dev) : bool :=
  match fst f with Some b => bus d =? b | None => true end &&
  match snd f with Some n => dev d =? n | None => true end.

Definition same_dev (a b : pci_dev) : bool :=
  (domain a =? domain b) && (bus a =? bus b) && (dev a =? dev b) && (func a =? func b).

Definition bytes : Type := pci_dev -> Z -> Z.

Definition poke (c : bytes) (d : pci_dev) (pos x : Z) : bytes :=
  fun d' pos' => if same_dev d d' && (pos =? pos') then x mod 0x100 else c d' pos'.

Definition find (c : bytes) (d : pci_dev) (id : Z) (kind : cap_type) : option Z :=
  match kind with
  | PCI_CAP_NORMAL => if (bus d =? 0) && (id =? 1) then Some 0x40 else None
  | PCI_CAP_EXTENDED => None
  end.

Definition lib : PciLib := {|
  pci_filter := filter;
  pci_filter_init := (None, None);
  pci_filter_parse_slot := parse_slot;
  pci_filter_parse_id := parse_id;
  pci_filter_match := matches;
  GENERIC_OPTIONS := "A:GO:H:";
  parse_generic_option := fun _ _ => true;
  config := bytes;
  pci_find_cap := find;
  pci_read_byte := fun c d pos => c d pos;
  pci_read_word := fun c d pos => c d pos + 0x100 * c d (pos + 1);
  pci_read_long := fun c d pos =>
    c d pos + 0x100 * c d (pos + 1) + 0x10000 * c d (pos + 2) + 0x1000000 * c d (pos + 3);
  pci_write_byte := fun c d pos x => poke c d pos x;
  pci_write_word := fun c d pos x => poke (poke c d pos x) d (pos + 1) (x / 0x100);
  pci_write_long := fun c d pos x =>
    poke (poke (poke (poke c d pos x) d (pos + 1) (x / 0x100)) d (pos + 2) (x / 0x10000))
      d (pos + 3) (x / 0x1000000)
|}.

Definition d1 : pci_dev := {| domain := 0; bus := 0; dev := 0x1f; func := 0 |}.
Definition d2 : pci_dev := {| domain := 0; bus := 0; dev := 0x1f; func := 3 |}.
Definition d3 : pci_dev := {| domain := 0; bus := 1; dev := 0; func := 0 |}.

Definition devices : list pci_dev := [d1; d2; d3].

(** Every byte is 0xa5. *)
Definition all_a5 : bytes := fun _ _ => 0xa5.

Definition start : @run_state lib := @Build_run_state lib all_a5 [].

Definition no_junk : nat -> string := fun _ => EmptyString.

Definition quiet : flags := {| force := 0; verbose := 0; demo_mode := 0 |}.


(** The pair of [02:0f]. *)
Definition masked : value := {| v_value := 2; v_mask := 0x0f |}.

Definition vec0 : vector := {| vec_addr := 0; vec_devs := [d1; d2] |}.

Definition vec1 : vector := {| vec_addr := 1; vec_devs := [d3] |}.

(** [COMMAND=0006], [CAP_PM+4.W] and [04.B=02:0f] on the devices of bus 0,
    [CAP_PM+4.W] on the device of bus 1. *)
Definition opA : op :=
  {| dev_vector := vec0; cap := 0; addr := 4; width := 2;
     values := [{| v_value := 6; v_mask := 0xFFFFFFFF |}] |}.

Definition opB : op :=
  {| dev_vector := vec0; cap := 0x10001; addr := 4; width := 2; values := [] |}.

Definition opC : op :=
  {| dev_vector := vec1; cap := 0x10001; addr := 4; width := 2; values := [] |}.

Definition opM : op :=
  {| dev_vector := vec0; cap := 0; addr := 4; width := 1; values := [masked] |}.

(** What [1001.W] resolves to. *)
Definition odd : op :=
  {| dev_vector := vec0; cap := 0; addr := 0x1001; width := 2; values := [] |}.

(** The state of [parse_ops] after the tokens [args]. *)
Definition parsed (args : list string) : @parser lib :=
  match @parse_ops_loop LP64 lib quiet devices no_junk (@parser_init lib) args with
  | Ok p => p
  | Err _ => @parser_init lib
  end.

End Bench.

(** ** Vocabulary of the properties *)

Create HintDb quiet.

Section Vocabulary.

Context {L : PciLib}.

(** The calls into the library among the events, output left out. *)
Definition is_access (e : event) : bool :=
  match e with
  | Print _ => false
  | _ => true
  end.

Definition accesses (t : list event) : list event := List.filter is_access t.

Definition is_write (e : event) : bool :=
  match e with
  | Write _ _ _ _ => true
  | _ => false
  end.

(** Events that are output only. *)
Definition only_prints (l : list event) : Prop := Forall (fun e => is_access e = false) l.

(** The events that a computation adds to the trace it starts from. *)
Definition new_events {A : Type} (m : run A) (s : run_state) : list event :=
  skipn (List.length (trace s)) (trace (snd (m s))).

(** What a read of the given width returns in a state. *)
Definition current (w : Z) (s : run_state) (d : pci_dev) (pos : Z) : Z :=
  match w with
  | 1 => pci_read_byte (space s) d pos
  | 2 => pci_read_word (space s) d pos
  | _ => pci_read_long (space s) d pos
  end.

Definition valid_width (w : Z) : Prop := w = 1 \/ w = 2 \/ w = 4.

(** A value whose bits all lie inside its mask. *)
Definition premasked (v : value) : Prop := Z.land (v_value v) (v_mask v) = v_value v.

End Vocabulary.

(** *** The order of execution, as the specification words it *)

Section Order.

Context {L : PciLib}.

(** The maximal runs of consecutive operations that share a device vector. *)
Fixpoint group_runs (ops : list op) : list (list op) :=
  match ops with
  | [] => []
  | o :: next =>
      match group_runs next with
      | (o' :: g) :: gs =>
          if same_vector (dev_vector o) (dev_vector o')
          then (o :: o' :: g) :: gs
          else [o] :: (o' :: g) :: gs
      | gs => [o] :: gs
      end
  end.

(** One run: its devices in vector order, and for each device the operations
    of the run in list order. *)
Definition run_trace (g : list op) : list (pci_dev * op) :=
  match g with
  | [] => []
  | o :: _ => flat_map (fun d => map (pair d) g) (vec_devs (dev_vector o))
  end.

Definition schedule (ops : list op) : list (pci_dev * op) :=
  flat_map run_trace (group_runs ops).

(** Calling [exec_op] along a list of (device, operation) pairs. *)
Fixpoint run_schedule (fl : flags) (tr : list (pci_dev * op)) : run unit :=
  match tr with
  | [] => ret tt
  | (d, o) :: tr' => (exec_op fl o d ;;; run_schedule fl tr')%run
  end.

(** No operation of a run shares its vector with the head of the next run. *)
Fixpoint separated (gs : list (list op)) : Prop :=
  match gs with
  | [] => True
  | g :: rest =>
      match rest with
      | (o' :: _) :: _ =>
          forall o, In o g -> same_vector (dev_vector o) (dev_vector o') = false
      | _ => True
      end /\ separated rest
  end.

(** The operations of a run share one vector. *)
Definition uniform (g : list op) : Prop :=
  g <> [] /\ forall o o', In o g -> In o' g ->
                          same_vector (dev_vector o) (dev_vector o') = true.

(** The range of the loop of [exec_group]: the operations from the head on
    that have the vector [vec]. *)
Fixpoint take_group (vec : vector) (ops : list op) : list op :=
  match ops with
  | [] => []
  | o :: next => if same_vector (dev_vector o) vec then o :: take_group vec next else []
  end.

End Order.

(** *** Capability selectors, as the specification words them *)

Inductive selector : Type :=
| NoCapability
| NormalCapability (id : Z)
| ExtendedCapability (id : Z).

(** The number that [struct op] keeps in [cap] for a selector. *)
Definition encode (sel : selector) : Z :=
  match sel with
  | NoCapability => 0
  | NormalCapability id => 0x10000 + id
  | ExtendedCapability id => 0x20000 + id
  end.

Section Resolution.

Context {P : Platform}.

(** The token is not, as a whole, a hexadecimal number. *)
Definition not_a_number (base : string) : Prop :=
  forall n, parse_x32 base <> X32_full n.


End Resolution.

(** *** The checks of [parse_op] *)

(** A width that [parse_op] may hold before the test for a missing width. *)
Definition width_or_none (w : Z) : Prop := w = 0 \/ valid_width w.

(** What the properties need of an entry of the table. *)
Definition entry_ok (r : reg_name) : bool :=
  (0 <=? rn_offset r) && (rn_offset r <? 0x1000) &&
  ((rn_width r =? 0) || (rn_width r =? 1) || (rn_width r =? 2) || (rn_width r =? 4)) &&
  (0 <=? rn_cap r) && (rn_cap r <? 0x30000).

(** The test of [check_range] for the range, on [count = max(1, n)]. *)
Definition beyond (o : op) (count : Z) : Prop :=
  0x1000 <= addr o \/ 0x1000 < u32 (addr o + u32 (width o * count)).

(** *** Addresses of the accesses *)

(** The selector that a number kept in [cap] stands for. *)
Definition selector_of (c : Z) : selector :=
  if c =? 0 then NoCapability
  else if c <? 0x20000 then NormalCapability (u32 (c - 0x10000))
  else ExtendedCapability (u32 (c - 0x20000)).

(** The capability that an operation asks the locator for. *)
Definition request (o : op) : option (Z * cap_type) :=
  match selector_of (cap o) with
  | NoCapability => None
  | NormalCapability id => Some (id, PCI_CAP_NORMAL)
  | ExtendedCapability id => Some (id, PCI_CAP_EXTENDED)
  end.

Section Addresses.

Context {L : PciLib}.

(** The base of the operation on a device: 0 with no capability, what the
    locator finds otherwise ([None] when it finds nothing). *)
Definition capability_base (o : op) (d : pci_dev) (s : run_state) : option Z :=
  match request o with
  | None => Some 0
  | Some (id, kind) => pci_find_cap (space s) d id kind
  end.

(** An event that is no read and no write, or that is a read or a write of
    the device [d] of width [w] at [pos + i * w] for one of the [n] values,
    and ends inside the configuration space. *)
Definition in_window (d : pci_dev) (w pos n : Z) (e : event) : Prop :=
  match e with
  | Read d' p w' | Write d' p w' _ =>
      d' = d /\ w' = w /\ p + w <= 0x1000 /\ exists i, 0 <= i < n /\ p = pos + i * w
  | _ => True
  end.

End Addresses.

(** *** The range of a literal, as the specification words it *)

Section Literals.

Context {P : Platform}.

(** A number is in range for the maximum [lim] of a width when it is at most
    [lim] or at least [~0UL - lim]. *)
Definition accepted (lim ll : Z) : Prop := ll <= lim \/ ULONG_MAX - lim <= ll.

End Literals.

(** *** The arrays of [select_devices] *)

(** Every array sits at the address that its place in the heap gives it. *)
Definition heap_ok (h : list vector) : Prop :=
  forall i v, nth_error h i = Some v -> vec_addr v = i.

(** *** Writes *)

Section Writes.

Context {L : PciLib}.

(** A computation that leaves the configuration spaces as they are and
    calls no write primitive. *)
Definition commits_nothing {A : Type} (m : run A) : Prop :=
  forall s, space (snd (m s)) = space s /\
            exists new, trace (snd (m s)) = (trace s ++ new)%list /\
                        Forall (fun e => is_write e = false) new.

(** The bits to write for a value, from what the register holds. *)
Definition bits_of (w : Z) (v : value) (old : Z) : Z :=
  if Z.land (v_mask v) (limit w) =? limit w then v_value v
  else Z.lor (Z.land old (not32 (v_mask v))) (v_value v).

(** The positions of the writes among the events. *)
Fixpoint write_positions (t : list event) : list Z :=
  match t with
  | [] => []
  | Write _ pos _ _ :: t' => pos :: write_positions t'
  | _ :: t' => write_positions t'
  end.

(** The running address of [n] values from [pos] on. *)
Fixpoint running (pos w : Z) (n : nat) : list Z :=
  match n with
  | O => []
  | S n' => pos :: running (pos + w) w n'
  end.

(** The output among the events. *)
Fixpoint output (t : list event) : list string :=
  match t with
  | [] => []
  | Print x :: t' => x :: output t'
  | _ :: t' => output t'
  end.

End Writes.

(** *** Defined behaviour *)

Section Defined.

Context {L : PciLib}.

(** A computation that never leaves the behaviour that C defines. *)
Definition defined {A : Type} (m : run A) : Prop :=
  forall s, fst (m s) <> Err Undefined.

End Defined.

(** The tokens that the loop of [parse_ops] goes on with after a filter
    token: [took] tells that the next one was its argument. *)
Definition after_filter (took : bool) (rest : list string) : list string :=
  match took, rest with
  | true, _ :: rest' => rest'
  | _, _ => rest
  end.

Section Vectors.

Context {L : PciLib}.

(** Every array that [select_devices] allocated is the vector of an
    operation of the list. *)
Definition vectors_in_use (p : parser) : Prop :=
  forall v, In v (heap p) -> exists o, In o (first_op p) /\ dev_vector o = v.

End Vectors.

(** *** Hexadecimal numbers, as the specification words them *)

(** The value of a text of hexadecimal digits only. *)
Fixpoint hex_digits_value (acc : Z) (s : string) : option Z :=
  match s with
  | EmptyString => Some acc
  | String a r =>
      match hex_value a with
      | Some d => hex_digits_value (acc * 16 + d) r
      | None => None
      end
  end.

(** A pure hexadecimal number: one digit at least, and digits only. *)
Definition hex_number (s : string) : option Z :=
  match s with
  | EmptyString => None
  | _ => hex_digits_value 0 s
  end.

(** The characters that [strtoul] can pass over in base 16: white space, a
    sign, the [x] of [0x], and the digits. *)
Definition plain_char (c : ascii) : bool :=
  isspace c || Ascii.eqb c "-" || Ascii.eqb c "+" || Ascii.eqb c "x" || Ascii.eqb c "X"
  || match hex_value c with Some _ => true | None => false end.

Fixpoint all_plain (s : string) : bool :=
  match s with
  | EmptyString => true
  | String a r => plain_char a && all_plain r
  end.

(** The text in lower case. *)
Fixpoint lower (s : string) : string :=
  match s with
  | EmptyString => EmptyString
  | String a r => String (tolower a) (lower r)
  end.

(** *** The options, as a user words them *)

(** The letters of the tool's own flags. *)
Definition is_flag (a : ascii) : bool :=
  Ascii.eqb a "v" || Ascii.eqb a "f" || Ascii.eqb a "D".

Fixpoint flag_letters (c : string) : bool :=
  match c with
  | EmptyString => true
  | String a r => is_flag a && flag_letters r
  end.

(** The flags after one more token: each [v], [f] and [D] in it counts. *)
Definition count_flags (fl : flags) (tok : string) : flags :=
  {| force := force fl + Z.of_nat (count_char "f" tok);
     verbose := verbose fl + Z.of_nat (count_char "v" tok);
     demo_mode := demo_mode fl + Z.of_nat (count_char "D" tok) |}.

(** The flags when [main] starts. *)
Definition no_flags : flags := {| force := 0; verbose := 0; demo_mode := 0 |}.

(** A token of flags only: [-], then any number of [v], [f] and [D]. *)
Definition flag_token (t : string) : Prop :=
  exists c, t = String "-" c /\ flag_letters c = true.

Section FilterVocabulary.

Context {L : PciLib}.

(** What a filter token comes to once its argument [d] is known: the call
    of the library for the letter [k], and [die] with its message. *)
Definition filter_call (k : ascii) (f : pci_filter) (d : string) (took : bool)
  : result (pci_filter * bool) :=
  match (if Ascii.eqb k "s" then pci_filter_parse_slot f d
         else pci_filter_parse_id f d) with
  | inl msg => Err (FilterError k msg)
  | inr f' => Ok (f', took)
  end.

(** The operations whose device vector is empty. *)
Definition unselected (ops : list op) : list op :=
  List.filter (fun o => match vec_devs (dev_vector o) with
                        | [] => true
                        | _ :: _ => false
                        end) ops.

End FilterVocabulary.

Section ParserVocabulary.

Context {L : PciLib}.

(** Two states of [parse_ops] that differ in the warnings at most. *)
Definition same_parse (p q : parser) : Prop :=
  state p = state q /\ filter p = filter q /\
  selected_devices p = selected_devices q /\
  first_op p = first_op q /\ heap p = heap q.

(** Two parses that end alike: with the same error, or in states that
    differ in the warnings at most. *)
Definition parses_agree (r r' : result parser) : Prop :=
  match r, r' with
  | Ok p, Ok q => same_parse p q
  | Err e, Err e' => e = e'
  | _, _ => False
  end.

End ParserVocabulary.

(** *** Letter case *)

(** An error with the text of its message in lower case. *)
Definition lower_error (e : error) : error :=
  match e with
  | InvalidWidth s => InvalidWidth (lower s)
  | UnknownRegister s => UnknownRegister (lower s)
  | InvalidOffset s => InvalidOffset (lower s)
  | InvalidValue s => InvalidValue (lower s)
  | ValueOutOfRange s => ValueOutOfRange (lower s)
  | InvalidMask s => InvalidMask (lower s)
  | MaskOutOfRange s => MaskOutOfRange (lower s)
  | e => e
  end.

Definition lower_result {A : Type} (r : result A) : result A :=
  match r with
  | Ok a => Ok a
  | Err e => Err (lower_error e)
  end.

(** A character that [tolower] neither produces nor changes. *)
Definition caseless (c : ascii) : Prop :=
  forall a, Ascii.eqb (tolower a) c = Ascii.eqb a c.

(** [n] times the digit 0. *)
Fixpoint zeros (n : nat) : string :=
  match n with
  | O => EmptyString
  | S n' => String "0" (zeros n')
  end.

(** *** Operations that the parser accepted *)

Section EngineVocabulary.

Context {L : PciLib}.

(** What [parse_op] has checked of an operation that it appends. *)
Definition checked (o : op) : Prop :=
  valid_width (width o) /\ 0 <= addr o < 0x1000 /\
  check_range o (List.length (values o)) = Ok tt /\
  Forall premasked (values o).

(** An operation that names no capability and has fewer values than the
    arithmetic of the range check can count. *)
Definition plain (o : op) : Prop := cap o = 0 /\ num_values o < 0x3FFFFC00.

(** A computation that prints nothing. *)
Definition prints_nothing {A : Type} (m : run A) : Prop :=
  forall s, exists new, trace (snd (m s)) = (trace s ++ new)%list /\ output new = [].

(** The vector of an operation is empty. *)
Definition no_device (o : op) : Prop := vec_devs (dev_vector o) = [].

End EngineVocabulary.

(** The digits that [exec_op] prints for a width: those of [formats]. *)
Definition digits_of (w : Z) : nat := Z.to_nat (2 * w).

(** *** The vectors of the parsed operations *)

(** The order of the operations by the address of their vector. *)
Definition by_vector (a b : op) : Prop :=
  (vec_addr (dev_vector a) <= vec_addr (dev_vector b))%nat.

Section VectorVocabulary.

Context {L : PciLib}.

(** A vector that holds the devices of the list that some filter matches,
    in the order of the list. *)
Definition selection_of (devices : list pci_dev) (v : vector) : Prop :=
  exists f, vec_devs v = List.filter (pci_filter_match f) devices.

(** What [parse_ops] keeps true of its vectors from token to token. *)
Definition vectors_kept (devices : list pci_dev) (p : parser) : Prop :=
  heap_ok (heap p) /\
  Forall (selection_of devices) (heap p) /\
  Forall (fun o => In (dev_vector o) (heap p)) (first_op p) /\
  StronglySorted by_vector (first_op p) /\
  (state p = STATE_GOT_OP ->
   exists vec, selected_devices p = Some vec /\ In vec (heap p) /\
     Forall (fun o => (vec_addr (dev_vector o) <= vec_addr vec)%nat) (first_op p)).

End VectorVocabulary.

(** ** Byte order ([lib/internal.h])

    The conversions between the byte order of the CPU and the little-endian
    order of the configuration space.  [word] is a 16-bit and [u32] a 32-bit
    unsigned integer.  In [swab16] the operand is promoted to [int] and the
    result is converted back to [word]; in [swab32] the arithmetic is that of
    [unsigned int].  On a big-endian machine the four macros are the swaps,
    on a little-endian one they are the identity. *)

Module ByteOrder.

(** Conversion to [word]. *)
Definition u16 (z : Z) : Z := z mod 0x10000.

Definition swab16 (w : Z) : Z :=
  u16 (Z.lor (Z.shiftl w 8) (Z.land (Z.shiftr w 8) 0xff)).

Definition swab32 (w : Z) : Z :=
  Z.lor (Z.lor (Z.lor (Z.shiftr (Z.land w 0xff000000) 24)
                      (Z.shiftr (Z.land w 0x00ff0000) 8))
               (u32 (Z.shiftl (Z.land w 0x0000ff00) 8)))
        (u32 (Z.shiftl (Z.land w 0x000000ff) 24)).

(** [__BYTE_ORDER]. *)
Inductive byte_order : Type := LITTLE_ENDIAN | BIG_ENDIAN.

Definition cpu_to_le16 (bo : byte_order) (x : Z) : Z :=
  match bo with BIG_ENDIAN => swab16 x | LITTLE_ENDIAN => x end.

Definition cpu_to_le32 (bo : byte_order) (x : Z) : Z :=
  match bo with BIG_ENDIAN => swab32 x | LITTLE_ENDIAN => x end.

Definition le16_to_cpu (bo : byte_order) (x : Z) : Z :=
  match bo with BIG_ENDIAN => swab16 x | LITTLE_ENDIAN => x end.

Definition le32_to_cpu (bo : byte_order) (x : Z) : Z :=
  match bo with BIG_ENDIAN => swab32 x | LITTLE_ENDIAN => x end.

(** The number whose bytes are [b0] (the lowest) to [b3]. *)
Definition of_bytes2 (b0 b1 : Z) : Z := b0 + 0x100 * b1.

Definition of_bytes4 (b0 b1 b2 b3 : Z) : Z :=
  b0 + 0x100 * b1 + 0x10000 * b2 + 0x1000000 * b3.

Definition is_byte (b : Z) : Prop := 0 <= b < 0x100.

End ByteOrder.

Section ReadVocabulary.

Context {L : PciLib}.

(** What a read of the register at [pos] does on a device without [-v]:
    the read, the number under the format of the width, a new line. *)
Definition read_line (w pos : Z) (s : run_state) (d : pci_dev) : list event :=
  [Read d pos w; Print (hex (digits_of w) (current w s d pos)); Print newline].

End ReadVocabulary.

(** *** The table of names, as a user words it *)

(** The operation that reads the register of an entry with the width [w]. *)
Definition reads_as (vec : vector) (r : reg_name) (w : Z) : op :=
  {| dev_vector := vec; cap := rn_cap r; addr := rn_offset r; width := w; values := [] |}.

Definition reg_name_eqb (a b : reg_name) : bool :=
  (rn_cap a =? rn_cap b) && (rn_offset a =? rn_offset b) &&
  (rn_width a =? rn_width b) && String.eqb (rn_name a) (rn_name b).

(** What makes an entry usable by its name: the name holds none of the
    characters that cut a token and finds its own entry; the register passes
    the checks of range and alignment under the width of the entry, or under
    any width when the entry has none. *)
Definition entry_usable (r : reg_name) : bool :=
  Nat.eqb (count_char "=" (rn_name r)) 0 &&
  Nat.eqb (count_char "." (rn_name r)) 0 &&
  Nat.eqb (count_char "+" (rn_name r)) 0 &&
  match find_reg_name pci_reg_names (rn_name r) with
  | Some r' => reg_name_eqb r' r
  | None => false
  end &&
  forallb (fun w => match check_range (reads_as {| vec_addr := 0; vec_devs := [] |} r w) 0 with
                    | Ok _ => true
                    | Err _ => false
                    end)
          (if rn_width r =? 0 then [1; 2; 4] else [rn_width r]).

(** *** Registers given by their address *)

(** The text of an offset in a token: [+] and the offset, or nothing. *)
Definition offset_text (offset : option (string * Z)) : string :=
  match offset with
  | Some (t, _) => String "+" t
  | None => EmptyString
  end.

(** The address of the register: the base, and the offset added in
    [unsigned int]. *)
Definition register_address (a : Z) (offset : option (string * Z)) : Z :=
  match offset with
  | Some (_, off) => u32 (a + off)
  | None => a
  end.

(** The operation that reads [w] bytes at [pos]. *)
Definition read_at (vec : vector) (pos w : Z) : op :=
  {| dev_vector := vec; cap := 0; addr := pos; width := w; values := [] |}.

(** What [parse_op] makes of a read once the register and the width are
    known: the checks of range and alignment, and the operation. *)
Definition checked_read (o : op) (ops : list op) : result (list op) :=
  match check_range o 0 with
  | Ok _ => Ok (ops ++ [o])%list
  | Err e => Err e
  end.

(** *** Values with masks *)

(** The text of a value with its mask. *)
Definition masked_text (vm : string * string) : string :=
  fst vm ++ String ":" (snd vm).

(** The values of a token, with commas between them. *)
Fixpoint values_text (l : list (string * string)) : string :=
  match l with
  | [] => EmptyString
  | vm :: rest =>
      match rest with
      | [] => masked_text vm
      | _ :: _ => masked_text vm ++ String "," (values_text rest)
      end
  end.

Section ValueVocabulary.

Context {P : Platform}.

(** The texts of a value and of its mask spell the numbers [n], and both
    numbers pass the range test of the width whose maximum is [lim]. *)
Definition spells (lim : Z) (t : string * string) (n : Z * Z) : Prop :=
  hex_number (fst t) = Some (fst n) /\ fst n <= UINT_MAX /\
  hex_number (snd t) = Some (snd n) /\ snd n <= UINT_MAX /\
  out_of_range lim (fst n) = false /\ out_of_range lim (snd n) = false.

End ValueVocabulary.

(** What is stored for a value and its mask. *)
Definition stored (n : Z * Z) : value :=
  {| v_value := Z.land (fst n) (snd n); v_mask := snd n |}.

(** ** Properties *)

Section ParsedValues.

Context {P : Platform} {L : PciLib}.

Lemma accesses_app (a b : list event) : accesses (a ++ b) = (accesses a ++ accesses b)%list.
Proof. apply filter_app. Qed.

Lemma skipn_length_app {A : Type} (a b : list A) : skipn (List.length a) (a ++ b) = b.
Proof. induction a as [|x a IH]; simpl; auto. Qed.

Lemma limit_valid (w : Z) : valid_width w -> table_get max_values w = Some (limit w).
Proof. intros [-> | [-> | ->]]; reflexivity. Qed.

(** The number that [parse_x32] stores is an [unsigned int]. *)
Lemma parse_x32_land (c : string) (l : Z) :
  (parse_x32 c = X32_full l \/ exists rest, parse_x32 c = X32_partial l rest) ->
  Z.land l UINT_MAX = l.
Proof.
  unfold parse_x32. destruct c as [|a c]; [intros [H | [r H]]; discriminate|].
  destruct (erange _); [intros [H | [r H]]; discriminate|].
  destruct (Z.land _ UINT_MAX =? _) eqn:E; simpl; [|intros [H | [r H]]; discriminate].
  apply Z.eqb_eq in E.
  destruct (stop _); intros [H | [r H]]; inversion H; subst; exact E.
Qed.

Lemma parse_value_premasked (lim : Z) (f text : string) (v : value) (f' : string) :
  parse_value lim f text = Ok (v, f') -> premasked v.
Proof.
  unfold parse_value, premasked.
  destruct (parse_x32 text) as [|l rest|l] eqn:E; [discriminate| |].
  - assert (Hl : Z.land l UINT_MAX = l) by (eapply parse_x32_land; right; eauto).
    destruct rest as [|a m]; [|destruct (Ascii.eqb a ":")]; simpl;
      destruct (out_of_range lim l); try discriminate.
    + intros H; inversion H; subst; simpl; exact Hl.
    + destruct (parse_x32 m) as [| |mm]; try discriminate.
      destruct (out_of_range lim mm); try discriminate.
      intros H; inversion H; subst; simpl.
      rewrite <- Z.land_assoc, Z.land_diag. reflexivity.
  - assert (Hl : Z.land l UINT_MAX = l) by (eapply parse_x32_land; left; eauto).
    destruct f as [|a m]; [|destruct (Ascii.eqb a ":")]; simpl;
      destruct (out_of_range lim l); try discriminate.
    + intros H; inversion H; subst; simpl; exact Hl.
    + destruct (parse_x32 m) as [| |mm]; try discriminate.
      destruct (out_of_range lim mm); try discriminate.
      intros H; inversion H; subst; simpl.
      rewrite <- Z.land_assoc, Z.land_diag. reflexivity.
Qed.

Lemma parse_values_premasked (n : nat) (lim : Z) :
  forall (f : string) (cur : option string) (vs : list value),
  parse_values n lim f cur = Ok vs -> Forall premasked vs /\ List.length vs = n.
Proof.
  induction n as [|n IH]; simpl; intros f cur vs H.
  - inversion H; subst. split; [constructor | reflexivity].
  - destruct cur as [v|]; [|discriminate].
    destruct (split_at "," v) as [text e].
    destruct (parse_value lim f text) as [[x f']|] eqn:E; simpl in H; [|discriminate].
    destruct (parse_values n lim f' e) as [xs|] eqn:E'; simpl in H; [|discriminate].
    inversion H; subst. destruct (IH _ _ _ E') as [Hall Hlen]. split.
    + constructor; [eapply parse_value_premasked; eauto | exact Hall].
    + simpl. now rewrite Hlen.
Qed.

Lemma land_uint_range (l : Z) : Z.land l UINT_MAX = l -> 0 <= l <= UINT_MAX.
Proof.
  intros H. change UINT_MAX with (Z.ones 32) in *.
  rewrite Z.land_ones in H by lia.
  pose proof (Z.mod_pos_bound l (2 ^ 32) ltac:(lia)) as B.
  rewrite H in B. rewrite Z.ones_equiv. lia.
Qed.

Lemma parse_x32_range (c : string) (l : Z) :
  (parse_x32 c = X32_full l \/ exists rest, parse_x32 c = X32_partial l rest) ->
  0 <= l <= UINT_MAX.
Proof. intros H. apply land_uint_range. eapply parse_x32_land; eauto. Qed.

End ParsedValues.

Section ParsedOperations.

Context {P : Platform}.

Lemma pci_reg_names_ok : forallb entry_ok pci_reg_names = true.
Proof. vm_compute. reflexivity. Qed.

Lemma find_reg_name_In (table : list reg_name) (name : string) (r : reg_name) :
  find_reg_name table name = Some r -> In r table.
Proof.
  induction table as [|r0 table IH]; simpl; [discriminate|].
  destruct (strcaseeq (rn_name r0) name).
  - intros H; inversion H; subst. now left.
  - intros H. right. auto.
Qed.

Lemma parse_reg_name_ok (name : string) (r : reg_name) :
  parse_reg_name name = Some r ->
  0 <= rn_offset r < 0x1000 /\ width_or_none (rn_width r) /\ 0 <= rn_cap r < 0x30000.
Proof.
  intros H. apply find_reg_name_In in H.
  pose proof (proj1 (forallb_forall _ _) pci_reg_names_ok r H) as Hok.
  unfold entry_ok in Hok.
  repeat (apply andb_prop in Hok; destruct Hok as [Hok ?]).
  repeat split; try lia.
  unfold width_or_none, valid_width.
  repeat match goal with
         | H : (_ || _) = true |- _ => apply orb_prop in H; destruct H as [H | H]
         end; lia.
Qed.

Lemma width_suffix_ok (t : option string) (w : Z) :
  width_suffix t = Ok w -> width_or_none w.
Proof.
  unfold width_suffix, width_or_none, valid_width.
  destruct t as [[|a [|b t]]|]; try discriminate.
  - destruct (Z.land (code a) 223) as [|p|p]; try discriminate.
    destruct (Pos.eq_dec p 66) as [->|]; [intros H; inversion H; auto|].
    destruct (Pos.eq_dec p 87) as [->|]; [intros H; inversion H; auto|].
    destruct (Pos.eq_dec p 76) as [->|]; [intros H; inversion H; auto|].
    do 7 (destruct p as [p|p|]; try discriminate); congruence.
  - intros H; inversion H; auto.
Qed.

(** What [parse_register] leaves in the operation. *)
Lemma parse_register_ok (o o' : op) (base : string) :
  parse_register o base = Ok o' ->
  dev_vector o' = dev_vector o /\ values o' = values o /\
  0 <= addr o' <= UINT_MAX /\
  (width_or_none (width o) -> width_or_none (width o')).
Proof.
  unfold parse_register.
  destruct (parse_x32 base) as [|l rest|l] eqn:E.
  1, 2: destruct (parse_reg_name base) as [r|] eqn:Er.
  1, 3: intros H; inversion H; subst; simpl;
        destruct (parse_reg_name_ok _ Er) as (Ho & Hw & _);
        repeat split; try (unfold UINT_MAX; lia);
        intros Hw0; destruct (_ && _); auto.
  1, 2: destruct (has_prefix_nocase "CAP" base);
        [destruct (parse_x32 (advance 3 base)) as [| |c]; try discriminate;
         destruct (c <? 256); try discriminate
        |destruct (has_prefix_nocase "ECAP" base); try discriminate;
         destruct (parse_x32 (advance 4 base)) as [| |c]; try discriminate;
         destruct (c <? 4096); try discriminate];
        intros H; inversion H; subst; simpl;
        repeat split; auto; unfold UINT_MAX; lia.
  intros H; inversion H; subst; simpl. repeat split; auto.
  all: eapply (@parse_x32_range _ base); left; eauto.
Qed.

Lemma add_offset_ok (o o' : op) (offset : option string) :
  add_offset o offset = Ok o' ->
  dev_vector o' = dev_vector o /\ values o' = values o /\ width o' = width o /\
  cap o' = cap o /\ (0 <= addr o <= UINT_MAX -> 0 <= addr o' <= UINT_MAX).
Proof.
  unfold add_offset. destruct offset as [t|].
  - destruct (parse_x32 t) as [| |off]; try discriminate.
    destruct (4096 <=? off); try discriminate.
    intros H; inversion H; subst; simpl. repeat split; auto.
    all: unfold u32, UINT_MAX;
      pose proof (Z.mod_pos_bound (addr o + off) 0x100000000 ltac:(lia)); lia.
  - intros H; inversion H; subst. repeat split; auto; lia.
Qed.

Lemma land_width_mod (a w : Z) :
  valid_width w -> Z.land a (u32 (w - 1)) = a mod w.
Proof.
  intros [-> | [-> | ->]].
  - change (u32 (1 - 1)) with (Z.ones 0). rewrite Z.land_ones by lia. reflexivity.
  - change (u32 (2 - 1)) with (Z.ones 1). rewrite Z.land_ones by lia. reflexivity.
  - change (u32 (4 - 1)) with (Z.ones 2). rewrite Z.land_ones by lia. reflexivity.
Qed.

Lemma beyond_exact (o : op) (count : Z) :
  valid_width (width o) -> 0 <= addr o -> 1 <= count < 0x3FFFFC00 ->
  (beyond o count <-> 0x1000 <= addr o \/ 0x1000 < addr o + width o * count).
Proof.
  intros Hw Ha Hc. unfold beyond, u32.
  assert (0 <= width o * count < 0xFFFFF000) by (destruct Hw as [-> | [-> | ->]]; lia).
  rewrite (Z.mod_small (width o * count)) by lia.
  destruct (Z_lt_le_dec (addr o) 0x1000).
  - rewrite Z.mod_small by lia. tauto.
  - tauto.
Qed.

Lemma check_range_cases (o : op) (n : nat) :
  valid_width (width o) ->
  let count := Z.max 1 (Z.of_nat n) in
  (check_range o n = Err RegisterOutOfRange <-> beyond o count) /\
  (check_range o n = Err Unaligned <-> ~ beyond o count /\ addr o mod width o <> 0) /\
  (check_range o n = Ok tt <-> ~ beyond o count /\ addr o mod width o = 0).
Proof.
  intros Hw count. unfold check_range, beyond.
  replace (if Nat.eqb n 0 then 1 else Z.of_nat n) with count
    by (subst count; destruct n; simpl Nat.eqb; cbv iota; lia).
  rewrite (land_width_mod _ Hw).
  destruct (4096 <=? addr o) eqn:E1; simpl orb.
  - apply Z.leb_le in E1. repeat split; try discriminate; try tauto.
    all: intros [? _]; tauto.
  - apply Z.leb_gt in E1.
    destruct (4096 <? u32 (addr o + u32 (width o * count))) eqn:E2.
    + apply Z.ltb_lt in E2. repeat split; try discriminate; try tauto.
      all: intros [? _]; tauto.
    + apply Z.ltb_ge in E2.
      destruct (addr o mod width o =? 0) eqn:E3; simpl negb; cbv iota.
      * apply Z.eqb_eq in E3. repeat split; try discriminate; try tauto; try lia.
        all: try (intros [? | ?]; lia); try (intros [_ ?]; tauto).
      * apply Z.eqb_neq in E3. repeat split; try discriminate; try tauto; try lia.
        all: try (intros [? | ?]; lia); try (intros [_ ?]; tauto).
Qed.

Lemma count_values_Some (t : option string) (n : nat) :
  count_values t = Ok n ->
  match t with
  | None => n = O
  | Some v => n = S (count_char "," v)
  end.
Proof.
  unfold count_values. destruct t as [[|a v]|]; try discriminate;
    intros H; inversion H; reflexivity.
Qed.

(** What [parse_op] appends to the list when it returns. *)
Lemma parse_op_inversion (c : string) (vec : vector) (f0 : string) (ops ops' : list op) :
  parse_op c vec f0 ops = Ok ops' ->
  exists o, ops' = (ops ++ [o])%list /\
    dev_vector o = vec /\
    valid_width (width o) /\
    0 <= addr o < 0x1000 /\
    check_range o (List.length (values o)) = Ok tt /\
    Forall premasked (values o).
Proof.
  unfold parse_op.
  destruct (split_at "=" c) as [b0 value_text].
  destruct (split_at "." b0) as [b1 width_text].
  destruct (split_at "+" b1) as [base offset].
  destruct (count_values value_text) as [n|]; simpl; [|discriminate].
  destruct (width_suffix width_text) as [w|] eqn:Ew; simpl; [|discriminate].
  destruct (parse_register _ base) as [o|] eqn:Er; simpl; [|discriminate].
  destruct (width o =? 0) eqn:Ez; [discriminate|].
  destruct (add_offset o offset) as [o'|] eqn:Ea; simpl; [|discriminate].
  destruct (check_range o' n) as [[]|] eqn:Ec; simpl; [|discriminate].
  destruct (parse_values n _ f0 value_text) as [vs|] eqn:Ev; simpl; [|discriminate].
  intros H; inversion H; subst; clear H.
  destruct (parse_register_ok _ _ Er) as (Hv & _ & Hao & Hwo). simpl in Hv, Hwo.
  destruct (add_offset_ok _ _ Ea) as (Hv' & _ & Hw' & _ & Hao').
  destruct (parse_values_premasked _ _ _ _ Ev) as (Hpre & Hlen).
  assert (Hvalid : valid_width (width o')).
  { rewrite Hw'. apply Z.eqb_neq in Ez.
    destruct (Hwo (width_suffix_ok _ Ew)) as [? | ?]; [contradiction | assumption]. }
  exists (set_values o' vs). simpl. repeat split; auto.
  - congruence.
  - apply Hao', Hao.
  - destruct (check_range_cases o' n Hvalid) as (_ & _ & Hok).
    apply Hok in Ec. destruct Ec as [Hb _]. unfold beyond in Hb. lia.
  - rewrite Hlen. unfold check_range in *. exact Ec.
Qed.

End ParsedOperations.

Section MaskedWrite.

Context {P : Platform} {L : PciLib}.

(** C1. One executed write of a pair (value, mask) at width [w]: when the
    mask covers the bits of the width, the only call into the library is the
    write of the stored value, the same whatever the register holds; when it
    does not, the register is read first and the write is of
    [(old & ~mask) | value].  Every pair that [parse_op] stores has its value
    inside its mask, so that this is [(old & ~mask) | (value & mask)].  The
    write primitive takes the bits converted to its width, which changes
    nothing of a value within the maximum of the width. *)
Theorem masked_write (fl : flags) (w : Z) (d : pci_dev) (pos : Z) (v : value) :
  demo_mode fl = 0 -> valid_width w ->
  (Z.land (v_mask v) (limit w) = limit w ->
     forall s s',
       accesses (new_events (exec_value fl w d pos v) s)
         = [Write d pos w (trunc w (v_value v))] /\
       new_events (exec_value fl w d pos v) s = new_events (exec_value fl w d pos v) s') /\
  (Z.land (v_mask v) (limit w) <> limit w ->
     forall s, let old := current w s d pos in
       accesses (new_events (exec_value fl w d pos v) s)
         = [Read d pos w;
            Write d pos w (trunc w (Z.lor (Z.land old (not32 (v_mask v))) (v_value v)))]) /\
  (premasked v ->
     forall old, Z.lor (Z.land old (not32 (v_mask v))) (v_value v)
                 = Z.lor (Z.land old (not32 (v_mask v))) (Z.land (v_value v) (v_mask v))) /\
  (forall c vec f0 ops ops',
     parse_op c vec f0 ops = Ok ops' ->
     exists o, ops' = (ops ++ [o])%list /\ Forall premasked (values o)) /\
  (0 <= v_value v <= limit w -> trunc w (v_value v) = v_value v).
Proof.
  intros Hdemo Hw.
  assert (Htrunc : 0 <= v_value v <= limit w -> trunc w (v_value v) = v_value v).
  { destruct Hw as [-> | [-> | ->]]; unfold limit, trunc; simpl; intros Hv;
      apply Z.mod_small; lia. }
  split; [|split; [|split; [|split; [|exact Htrunc]]]].
  - intros Hfull s s'. apply Z.eqb_eq in Hfull.
    unfold new_events, exec_value, compute_bits, rbind.
    rewrite (limit_valid Hw), Hfull, Hdemo.
    unfold when_verbose, print_format.
    destruct Hw as [-> | [-> | ->]]; destruct (verbose fl =? 0); simpl;
      rewrite <- ?app_assoc, !skipn_length_app; split; reflexivity.
  - intros Hm s old. subst old.
    unfold new_events, exec_value, compute_bits, rbind.
    rewrite (limit_valid Hw).
    apply Z.eqb_neq in Hm. rewrite Hm, Hdemo.
    unfold when_verbose, print_mask_format, current.
    destruct Hw as [-> | [-> | ->]]; destruct (verbose fl =? 0); simpl;
      rewrite <- ?app_assoc, skipn_length_app; reflexivity.
  - intros Hp old. rewrite Hp. reflexivity.
  - intros c vec f0 ops ops' Hop.
    destruct (parse_op_inversion _ _ _ _ Hop) as (o & -> & _ & _ & _ & _ & Hpre).
    exists o. split; [reflexivity | exact Hpre].
Qed.

End MaskedWrite.

Section ExecutionOrder.

Context {L : PciLib}.

Lemma same_vector_refl (a : vector) : same_vector a a = true.
Proof. apply Nat.eqb_refl. Qed.

Lemma same_vector_sym (a b : vector) : same_vector a b = same_vector b a.
Proof. apply Nat.eqb_sym. Qed.

Lemma same_vector_trans (a b c : vector) :
  same_vector a b = true -> same_vector b c = same_vector a c.
Proof.
  unfold same_vector. intros H. apply Nat.eqb_eq in H. now rewrite H.
Qed.

Lemma same_vector_cong (a b x : vector) :
  same_vector a b = true -> same_vector x a = same_vector x b.
Proof.
  unfold same_vector. intros H. apply Nat.eqb_eq in H. now rewrite H.
Qed.

Lemma take_group_same (a b : vector) (ops : list op) :
  same_vector a b = true -> take_group a ops = take_group b ops.
Proof.
  intros H. induction ops as [|o next IH]; simpl; [reflexivity|].
  rewrite (@same_vector_cong a b (dev_vector o) H).
  now rewrite IH.
Qed.

Lemma skip_group_same (a b : vector) (ops : list op) :
  same_vector a b = true -> skip_group a ops = skip_group b ops.
Proof.
  intros H. induction ops as [|o next IH]; simpl; [reflexivity|].
  rewrite (@same_vector_cong a b (dev_vector o) H).
  now rewrite IH.
Qed.

Lemma group_runs_cons (o : op) (next : list op) :
  group_runs (o :: next)
  = (o :: take_group (dev_vector o) next)
      :: group_runs (skip_group (dev_vector o) next).
Proof.
  revert o. induction next as [|o1 n1 IH]; intros o; [reflexivity|].
  change (group_runs (o :: o1 :: n1))
    with (match group_runs (o1 :: n1) with
          | (o' :: g) :: gs =>
              if same_vector (dev_vector o) (dev_vector o')
              then (o :: o' :: g) :: gs
              else [o] :: (o' :: g) :: gs
          | gs => [o] :: gs
          end).
  rewrite (IH o1). simpl take_group. simpl skip_group.
  rewrite (same_vector_sym (dev_vector o1) (dev_vector o)).
  destruct (same_vector (dev_vector o) (dev_vector o1)) eqn:E.
  - rewrite (@take_group_same _ _ n1 E), (@skip_group_same _ _ n1 E). reflexivity.
  - rewrite <- (IH o1). reflexivity.
Qed.

Lemma run_schedule_app (fl : flags) (a b : list (pci_dev * op)) (s : run_state) :
  run_schedule fl (a ++ b) s = (run_schedule fl a ;;; run_schedule fl b)%run s.
Proof.
  revert s. induction a as [|[d o] a IH]; intros s; simpl; [reflexivity|].
  unfold rbind. destruct (exec_op fl o d s) as [[u|e] s1]; [|reflexivity].
  rewrite IH. reflexivity.
Qed.

Lemma exec_group_schedule (fl : flags) (vec : vector) (d : pci_dev) (oops : list op)
    (s : run_state) :
  exec_group fl vec oops d s = run_schedule fl (map (pair d) (take_group vec oops)) s.
Proof.
  revert s. induction oops as [|o next IH]; intros s; simpl; [reflexivity|].
  destruct (same_vector (dev_vector o) vec); simpl; [|reflexivity].
  unfold rbind. destruct (exec_op fl o d s) as [[u|e] s1]; [apply IH | reflexivity].
Qed.

Lemma exec_devices_schedule (fl : flags) (vec : vector) (ops : list op)
    (pdev : list pci_dev) (s : run_state) :
  exec_devices fl vec ops pdev s
  = run_schedule fl (flat_map (fun d => map (pair d) (take_group vec ops)) pdev) s.
Proof.
  revert s. induction pdev as [|d pdev IH]; intros s; simpl; [reflexivity|].
  rewrite run_schedule_app. unfold rbind. rewrite exec_group_schedule.
  destruct (run_schedule fl _ s) as [[u|e] s1]; [apply IH | reflexivity].
Qed.

Lemma execute_schedule (fl : flags) (ops : list op) (s : run_state) :
  execute fl ops s = run_schedule fl (schedule ops) s.
Proof.
  remember (List.length ops) as n eqn:Hn. revert ops Hn s.
  induction n as [n IH] using lt_wf_ind. intros ops Hn s.
  destruct ops as [|o next]; [now simp execute|].
  simp execute. unfold schedule. rewrite group_runs_cons. simpl flat_map.
  rewrite run_schedule_app. unfold rbind.
  rewrite exec_devices_schedule.
  simpl take_group. simpl skip_group. rewrite same_vector_refl.
  destruct (run_schedule fl _ s) as [[u|e] s1]; [|reflexivity].
  eapply IH; [|reflexivity]. subst n. simpl.
  clear. generalize (dev_vector o). intros vec.
  induction next as [|o' next IHn]; simpl; [lia|].
  destruct (same_vector (dev_vector o') vec); simpl; lia.
Qed.

Lemma group_runs_concat (ops : list op) : List.concat (group_runs ops) = ops.
Proof.
  induction ops as [|o next IH]; [reflexivity|]. simpl.
  destruct (group_runs next) as [|[|o' g] gs]; simpl in *.
  - now rewrite <- IH.
  - now rewrite <- IH.
  - destruct (same_vector _ _); simpl; now rewrite <- IH.
Qed.

Lemma group_runs_uniform (ops : list op) : Forall uniform (group_runs ops).
Proof.
  induction ops as [|o next IH]; [constructor|]. simpl.
  destruct (group_runs next) as [|[|o' g] gs].
  - constructor; [|constructor]. split; [discriminate|].
    intros a b [<-|[]] [<-|[]]. apply same_vector_refl.
  - constructor; [|exact IH]. split; [discriminate|].
    intros a b [<-|[]] [<-|[]]. apply same_vector_refl.
  - inversion IH as [|? ? [Hne Hu] Hrest]; subst.
    destruct (same_vector (dev_vector o) (dev_vector o')) eqn:E.
    + constructor; [|exact Hrest]. split; [discriminate|].
      assert (Ho : forall a, In a (o :: o' :: g) ->
                             same_vector (dev_vector o) (dev_vector a) = true).
      { intros a [<-|Ha]; [apply same_vector_refl|].
        rewrite <- (Hu o' a (or_introl eq_refl) Ha).
        apply (@same_vector_trans _ _ (dev_vector a)).
        rewrite same_vector_sym. exact E. }
      intros a b Ha Hb.
      rewrite (@same_vector_trans _ _ (dev_vector b) (Ho a Ha)). apply Ho, Hb.
    + constructor; [|exact IH]. split; [discriminate|].
      intros a b [<-|[]] [<-|[]]. apply same_vector_refl.
Qed.

Lemma group_runs_separated (ops : list op) : separated (group_runs ops).
Proof.
  induction ops as [|o next IH]; [exact I|]. simpl.
  pose proof (group_runs_uniform next) as Hu.
  destruct (group_runs next) as [|[|o' g] gs].
  - simpl. auto.
  - simpl. auto.
  - destruct (same_vector (dev_vector o) (dev_vector o')) eqn:E.
    + simpl in IH |- *. destruct IH as [Hhead Hrest]. split; [|exact Hrest].
      destruct gs as [|[|o2 g2] gs2]; auto.
      intros a [<-|Ha]; [|apply Hhead, Ha].
      rewrite <- (@same_vector_trans _ _ (dev_vector o2) E).
      apply Hhead. left; reflexivity.
    + split; [|exact IH]. intros a [<-|[]]. exact E.
Qed.

(** C2. [execute] calls [exec_op] along the schedule of the specification:
    the maximal runs of consecutive operations with one device vector, in
    list order; for each run its devices in vector order; for each device the
    operations of the run in list order.  The run stops where a call ends the
    process.  For [opA; opB] on a vector of [d1; d2] followed by [opC] on
    another vector, this is (d1,opA), (d1,opB), (d2,opA), (d2,opB), then
    [opC] on the devices of its vector. *)
Theorem execute_order (fl : flags) (ops : list op) :
  (forall s, execute fl ops s = run_schedule fl (schedule ops) s) /\
  (List.concat (group_runs ops) = ops /\
   Forall uniform (group_runs ops) /\
   separated (group_runs ops)) /\
  (forall opA opB opC d1 d2,
     dev_vector opB = dev_vector opA ->
     vec_devs (dev_vector opA) = [d1; d2] ->
     same_vector (dev_vector opC) (dev_vector opA) = false ->
     schedule [opA; opB; opC]
     = ([(d1, opA); (d1, opB); (d2, opA); (d2, opB)]
          ++ map (fun d => (d, opC)) (vec_devs (dev_vector opC)))%list).
Proof.
  split; [|split].
  - apply execute_schedule.
  - split; [apply group_runs_concat|].
    split; [apply group_runs_uniform | apply group_runs_separated].
  - intros opA opB opC d1 d2 HB HA HC.
    unfold schedule. simpl group_runs.
    rewrite HB, (same_vector_sym (dev_vector opA) (dev_vector opC)), HC.
    cbv iota. rewrite HB, same_vector_refl. simpl.
    rewrite HA. simpl. rewrite app_nil_r.
    repeat f_equal.
    all: induction (vec_devs (dev_vector opC)) as [|d l IH]; simpl; [reflexivity|].
    all: now rewrite IH.
Qed.

End ExecutionOrder.

Section HexNumbers.

Context {P : Platform}.

Lemma hex_value_range (a : ascii) (d : Z) : hex_value a = Some d -> 0 <= d < 16.
Proof.
  unfold hex_value.
  destruct ((48 <=? code a) && (code a <=? 57)) eqn:E1.
  - intros H; inversion H. apply andb_prop in E1. destruct E1. lia.
  - destruct ((97 <=? code a) && (code a <=? 102)) eqn:E2.
    + intros H; inversion H. apply andb_prop in E2. destruct E2. lia.
    + destruct ((65 <=? code a) && (code a <=? 70)) eqn:E3; [|discriminate].
      intros H; inversion H. apply andb_prop in E3. destruct E3. lia.
Qed.

(** A hexadecimal digit is no white space, no sign and no [x]. *)
Lemma hex_value_plain (a : ascii) (d : Z) :
  hex_value a = Some d ->
  isspace a = false /\ Ascii.eqb a "-" = false /\ Ascii.eqb a "+" = false /\
  Ascii.eqb a "x" = false /\ Ascii.eqb a "X" = false.
Proof.
  intros H. split.
  - unfold hex_value in H. unfold isspace.
    destruct ((48 <=? code a) && (code a <=? 57)) eqn:E1;
      [|destruct ((97 <=? code a) && (code a <=? 102)) eqn:E2;
        [|destruct ((65 <=? code a) && (code a <=? 70)) eqn:E3; [|discriminate]]];
      match goal with E : (_ && _) = true |- _ => apply andb_prop in E; destruct E end;
      apply orb_false_iff; split;
      [apply Z.eqb_neq; lia | apply andb_false_iff; lia
      |apply Z.eqb_neq; lia | apply andb_false_iff; lia
      |apply Z.eqb_neq; lia | apply andb_false_iff; lia].
  - repeat split;
      match goal with
      | |- Ascii.eqb a ?c = false =>
          destruct (Ascii.eqb a c) eqn:E; [|reflexivity];
          apply Ascii.eqb_eq in E; subst a; discriminate H
      end.
Qed.

Lemma digits_hex_value (s : string) :
  forall acc seen n,
  hex_digits_value acc s = Some n ->
  digits acc seen s = (n, match s with EmptyString => seen | _ => true end, EmptyString).
Proof.
  induction s as [|a s IH]; intros acc seen n H; simpl in *.
  - inversion H; subst. reflexivity.
  - destruct (hex_value a) as [d|]; [|discriminate].
    rewrite (IH _ true _ H). destruct s; reflexivity.
Qed.

Lemma hex_digits_value_nonneg (s : string) :
  forall acc n, 0 <= acc -> hex_digits_value acc s = Some n -> 0 <= n.
Proof.
  induction s as [|a s IH]; intros acc n Hacc H; simpl in H.
  - inversion H; subst. exact Hacc.
  - destruct (hex_value a) as [d|] eqn:E; [|discriminate].
    apply hex_value_range in E. eapply IH; [|exact H]. lia.
Qed.

Lemma skip_0x_digits (s : string) (n : Z) :
  hex_digits_value 0 s = Some n -> skip_0x s = s.
Proof.
  destruct s as [|a [|b [|d r]]]; try reflexivity. simpl.
  destruct (hex_value a) as [x|]; [|discriminate].
  destruct (hex_value b) as [y|] eqn:Eb; [|discriminate].
  destruct (hex_value_plain _ Eb) as (_ & _ & _ & Hx & HX).
  rewrite Hx, HX. rewrite andb_false_r. reflexivity.
Qed.

(** A pure hexadecimal number that an [unsigned int] holds is read by
    [parse_x32] as a whole, with its value. *)
Lemma parse_x32_hex_number (s : string) (n : Z) :
  hex_number s = Some n -> n <= UINT_MAX -> parse_x32 s = X32_full n.
Proof.
  destruct s as [|a s]; [discriminate|]. unfold hex_number. intros H Hn.
  pose proof (@hex_digits_value_nonneg _ 0 n (Z.le_refl 0) H) as Hpos.
  pose proof (skip_0x_digits _ H) as H0x.
  pose proof (@digits_hex_value _ 0 false n H) as Hd.
  assert (Ha : exists d, hex_value a = Some d).
  { simpl in H. destruct (hex_value a) as [d|]; [eauto | discriminate]. }
  destruct Ha as [d Ha]. destruct (hex_value_plain _ Ha) as (Hsp & Hm & Hp & _).
  unfold parse_x32, strtoul16.
  replace (skip_space (String a s)) with (String a s) by (simpl; now rewrite Hsp).
  replace (skip_sign (String a s)) with (false, String a s)
    by (simpl; now rewrite Hm, Hp).
  rewrite H0x, Hd. cbv beta iota.
  pose proof ULONG_MAX_min as Hmin.
  replace (ULONG_MAX <? n) with false by (symmetry; apply Z.ltb_ge; lia).
  simpl.
  assert (Hland : Z.land n UINT_MAX = n).
  { change UINT_MAX with (Z.ones 32). rewrite Z.land_ones by lia.
    apply Z.mod_small. unfold UINT_MAX in Hn. lia. }
  rewrite Hland, Z.eqb_refl. reflexivity.
Qed.

End HexNumbers.

Section NamesAndNumbers.

Context {P : Platform}.

Lemma find_reg_name_first (table : list reg_name) (name : string) :
  match find_reg_name table name with
  | Some r =>
      exists before after,
        table = (before ++ r :: after)%list /\
        strcaseeq (rn_name r) name = true /\
        Forall (fun r' => strcaseeq (rn_name r') name = false) before
  | None => Forall (fun r' => strcaseeq (rn_name r') name = false) table
  end.
Proof.
  induction table as [|r table IH]; simpl; [constructor|].
  destruct (strcaseeq (rn_name r) name) eqn:E.
  - exists [], table. repeat split; auto.
  - destruct (find_reg_name table name) as [r0|].
    + destruct IH as (before & after & -> & Hm & Hb).
      exists (r :: before), after. repeat split; auto.
    + constructor; auto.
Qed.

Lemma plain_char_lower (c : ascii) : plain_char c = true -> plain_char (tolower c) = true.
Proof.
  destruct c as [[] [] [] [] [] [] [] []]; vm_compute; intros H;
    first [exact H | reflexivity].
Qed.

Lemma all_plain_lower (s : string) : all_plain s = true -> all_plain (lower s) = true.
Proof.
  induction s as [|a s IH]; simpl; [reflexivity|].
  intros H. apply andb_prop in H. destruct H as [Ha Hs].
  now rewrite (plain_char_lower _ Ha), (IH Hs).
Qed.

Lemma strcaseeq_lower (a b : string) : strcaseeq a b = true -> lower a = lower b.
Proof.
  revert b. induction a as [|x a IH]; intros [|y b]; simpl; try discriminate;
    [reflexivity|].
  intros H. apply andb_prop in H. destruct H as [Hx Ha].
  apply Ascii.eqb_eq in Hx. now rewrite Hx, (IH _ Ha).
Qed.

Lemma digits_plain (s : string) :
  forall acc seen, snd (digits acc seen s) = EmptyString -> all_plain s = true.
Proof.
  induction s as [|a s IH]; intros acc seen; simpl; [reflexivity|].
  unfold plain_char. destruct (hex_value a) as [d|]; [|discriminate].
  intros H. rewrite (IH _ _ H). now rewrite !orb_true_r.
Qed.

Lemma skip_0x_plain (s : string) : all_plain (skip_0x s) = true -> all_plain s = true.
Proof.
  destruct s as [|a [|b [|d r]]]; try (intros H; exact H).
  unfold skip_0x.
  destruct (Ascii.eqb a "0" && (Ascii.eqb b "x" || Ascii.eqb b "X")) eqn:E;
    [|intros H; exact H].
  destruct (hex_value d) as [v|] eqn:Ed; [|intros H; exact H].
  apply andb_prop in E. destruct E as [Ea Eb].
  apply Ascii.eqb_eq in Ea. subst a.
  intros H. change (all_plain (String "0" (String b (String d r))))
    with (plain_char "0" && (plain_char b && all_plain (String d r))).
  rewrite H. replace (plain_char b) with true; [reflexivity|].
  unfold plain_char. apply orb_prop in Eb. destruct Eb as [-> | ->];
    now rewrite ?orb_true_r.
Qed.

Lemma skip_sign_plain (s : string) :
  all_plain (snd (skip_sign s)) = true -> all_plain s = true.
Proof.
  destruct s as [|a r]; [reflexivity|]. unfold skip_sign.
  destruct (Ascii.eqb a "-") eqn:Em.
  - simpl. intros ->. unfold plain_char. rewrite Em. now rewrite !orb_true_r.
  - destruct (Ascii.eqb a "+") eqn:Ep; [|intros H; exact H].
    simpl. intros ->. unfold plain_char. rewrite Ep. now rewrite !orb_true_r.
Qed.

Lemma skip_space_plain (s : string) :
  all_plain (skip_space s) = true -> all_plain s = true.
Proof.
  induction s as [|a r IH]; [reflexivity|]. simpl skip_space.
  destruct (isspace a) eqn:E; [|intros H; exact H].
  intros H. simpl. rewrite (IH H). unfold plain_char. now rewrite E.
Qed.

(** What [parse_x32] reads as a whole is made of such characters only. *)
Lemma parse_x32_full_plain (s : string) (n : Z) :
  parse_x32 s = X32_full n -> all_plain s = true.
Proof.
  unfold parse_x32. destruct s as [|a s]; [discriminate|].
  unfold strtoul16.
  destruct (skip_sign (skip_space (String a s))) as [neg s1] eqn:Es.
  destruct (digits 0 false (skip_0x s1)) as [[mag seen] rest] eqn:Ed.
  assert (Hrest : rest = EmptyString -> all_plain (String a s) = true).
  { intros ->. apply skip_space_plain, skip_sign_plain. rewrite Es. simpl.
    apply skip_0x_plain. eapply digits_plain. rewrite Ed. reflexivity. }
  destruct (negb seen); simpl; [discriminate|].
  destruct (ULONG_MAX <? mag); simpl; [discriminate|].
  destruct (negb _); [discriminate|].
  destruct rest; [intros _; now apply Hrest | discriminate].
Qed.

Lemma pci_reg_names_marked :
  forallb (fun r => negb (all_plain (lower (rn_name r)))) pci_reg_names = true.
Proof. vm_compute. reflexivity. Qed.

(** No name of the table, in any letter case, is a number for [parse_x32]:
    the first case of [parse_register] hides no entry. *)
Lemma names_not_numbers (base : string) (r : reg_name) :
  parse_reg_name base = Some r -> not_a_number base.
Proof.
  intros Hr n Hn. apply parse_x32_full_plain, all_plain_lower in Hn.
  pose proof (find_reg_name_first pci_reg_names base) as Hf.
  unfold parse_reg_name in Hr. rewrite Hr in Hf.
  destruct Hf as (before & after & Ht & Hm & _).
  assert (Hin : In r pci_reg_names) by (rewrite Ht; apply in_or_app; right; now left).
  pose proof (proj1 (forallb_forall _ _) pci_reg_names_marked r Hin) as Hmark.
  cbv beta in Hmark. rewrite (strcaseeq_lower _ _ Hm), Hn in Hmark. discriminate.
Qed.




Lemma pci_reg_names_usable : forallb entry_usable pci_reg_names = true.
Proof. vm_compute. reflexivity. Qed.

Lemma reg_name_eqb_eq (a b : reg_name) : reg_name_eqb a b = true -> a = b.
Proof.
  unfold reg_name_eqb. intros H.
  repeat (apply andb_prop in H; destruct H as [H ?]).
  destruct a, b; simpl in *.
  repeat match goal with
         | E : (_ =? _) = true |- _ => apply Z.eqb_eq in E
         | E : String.eqb _ _ = true |- _ => apply String.eqb_eq in E
         end.
  congruence.
Qed.




End NamesAndNumbers.

Section RegisterResolution.

Context {P : Platform}.


End RegisterResolution.

Section RangeAndAlignment.

Context {P : Platform}.

(** C4 (amended). The check of [parse_op] on the resolved offset, the width
    [w] and the number [n] of values: it fails as out of range exactly when
    the offset is at least 0x1000 or offset + w * max(1, n), computed in
    [unsigned int], is above 0x1000 (the computation is exact for fewer than
    0x3FFFFC00 values); it fails as unaligned exactly when it did not fail as
    out of range and offset mod w is not 0.  Both failures are failures of
    the parse, and a run whose parse fails does nothing on a device.  Every
    operation that [parse_op] accepts has offset mod w = 0 and, computed
    exactly, offset + w * max(1, n) <= 0x1000. *)
Theorem range_and_alignment (o : op) (n : nat) :
  valid_width (width o) ->
  let count := Z.max 1 (Z.of_nat n) in
  (check_range o n = Err RegisterOutOfRange <-> beyond o count) /\
  (0 <= addr o -> count < 0x3FFFFC00 ->
     (beyond o count <-> 0x1000 <= addr o \/ 0x1000 < addr o + width o * count)) /\
  (check_range o n = Err Unaligned <-> ~ beyond o count /\ addr o mod width o <> 0) /\
  (forall (L : PciLib) junk devices args fl rest e s,
     parse_options args = Ok (fl, rest) ->
     parse_ops fl devices junk rest = Err e ->
     main junk devices args s = (Err e, s)) /\
  (forall c vec f0 ops ops',
     parse_op c vec f0 ops = Ok ops' ->
     exists o', ops' = (ops ++ [o'])%list /\
       addr o' mod width o' = 0 /\
       (num_values o' < 0x3FFFFC00 ->
        addr o' + width o' * Z.max 1 (num_values o') <= 0x1000)).
Proof.
  intros Hw count.
  destruct (check_range_cases o n Hw) as (H1 & H2 & H3).
  split; [exact H1|]. split; [|split; [exact H2|split]].
  - intros Ha Hc. apply beyond_exact; auto. subst count; lia.
  - intros L junk devices args fl rest e s Ho Hp.
    unfold main. rewrite Ho. simpl. rewrite Hp. reflexivity.
  - intros c vec f0 ops ops' Hop.
    destruct (parse_op_inversion _ _ _ _ Hop) as (o' & -> & _ & Hw' & Ha & Hc & _).
    exists o'. split; [reflexivity|].
    destruct (check_range_cases o' (List.length (values o')) Hw') as (_ & _ & Hok).
    apply Hok in Hc. destruct Hc as [Hb Hm]. split; [exact Hm|].
    intros Hn. unfold num_values in *.
    rewrite beyond_exact in Hb by (auto; lia). lia.
Qed.

End RangeAndAlignment.

Section EffectiveAddress.

Context {L : PciLib}.
Variable fl : flags.

Lemma new_events_eq {A : Type} (m : run A) (s : run_state) (new : list event) :
  trace (snd (m s)) = (trace s ++ new)%list -> new_events m s = new.
Proof. unfold new_events. intros ->. apply skipn_length_app. Qed.

Lemma i32_small (z : Z) : - 0x80000000 <= z < 0x80000000 -> i32 z = z.
Proof. intros H. unfold i32. rewrite Z.mod_small by lia. lia. Qed.

Lemma i32_width (w : Z) : valid_width w -> i32 w = w.
Proof. intros [-> | [-> | ->]]; reflexivity. Qed.

(** One value: it cannot fail, and it touches the device at [pos] only. *)
Lemma exec_value_events (w : Z) (d : pci_dev) (pos : Z) (v : value) (s : run_state) :
  valid_width w -> pos + w <= 0x1000 ->
  fst (exec_value fl w d pos v s) = Ok tt /\
  exists new, trace (snd (exec_value fl w d pos v s)) = (trace s ++ new)%list /\
              Forall (in_window d w pos 1) new.
Proof.
  intros Hw Hpos.
  assert (Hin : forall e, match e with
                          | Read d' p w' | Write d' p w' _ => d' = d /\ w' = w /\ p = pos
                          | _ => True
                          end -> in_window d w pos 1 e).
  { intros [s0|d0 i0 k0|d0 p0 w0|d0 p0 w0 b0]; simpl; auto.
    all: intros (-> & -> & ->); repeat split; auto; exists 0; lia. }
  unfold exec_value, compute_bits, rbind, when_verbose, print_format,
    print_mask_format.
  rewrite (limit_valid Hw).
  destruct Hw as [-> | [-> | ->]];
    destruct (Z.land (v_mask v) _ =? _); destruct (verbose fl =? 0);
    destruct (demo_mode fl =? 0); simpl; (split; [reflexivity|]);
    rewrite <- ?app_assoc; eexists;
    (split; [first [reflexivity | symmetry; apply app_nil_r]|]);
    repeat (constructor; [apply Hin; simpl; auto|]); constructor.
Qed.

Lemma in_window_shift (d : pci_dev) (w pos n : Z) (e : event) :
  in_window d w (pos + w) n e -> in_window d w pos (1 + n) e.
Proof.
  destruct e as [s0|d0 i0 k0|d0 p0 w0|d0 p0 w0 b0]; unfold in_window; auto.
  all: intros (-> & -> & Hp & i & Hi & ->); repeat split; auto; exists (i + 1); split; [lia | ring].
Qed.

Lemma in_window_more (d : pci_dev) (w pos n n' : Z) (e : event) :
  n <= n' -> in_window d w pos n e -> in_window d w pos n' e.
Proof.
  intros Hn.
  destruct e as [s0|d0 i0 k0|d0 p0 w0|d0 p0 w0 b0]; unfold in_window; auto.
  all: intros (-> & -> & Hp & i & Hi & ->); repeat split; auto; exists i; split; [lia | ring].
Qed.

(** The loop over the values: every access is in the window, and the loop
    ends the run exactly when the values do not all fit. *)
Lemma exec_values_window (w : Z) (d : pci_dev) (vs : list value) :
  valid_width w ->
  forall (pos : Z) (s : run_state),
  let n := Z.of_nat (List.length vs) in
  let r := exec_values fl w d pos vs s in
  (fst r = Ok tt \/ fst r = Err OutOfRange) /\
  (fst r = Err OutOfRange <-> vs <> [] /\ 0x1000 < pos + w * n) /\
  exists new, trace (snd r) = (trace s ++ new)%list /\
              Forall (in_window d w pos n) new.
Proof.
  intros Hw. assert (0 < w) by (destruct Hw as [-> | [-> | ->]]; lia).
  induction vs as [|v vs IH]; intros pos s.
  - simpl. split; [auto|]. split.
    + split; [discriminate | intros [[] _]; reflexivity].
    + exists []. rewrite app_nil_r. auto.
  - cbv zeta. simpl exec_values.
    replace (Z.of_nat (List.length (v :: vs))) with (1 + Z.of_nat (List.length vs))
      by (simpl List.length; lia).
    assert (Hmul : 0 <= w * Z.of_nat (List.length vs))
      by (apply Z.mul_nonneg_nonneg; lia).
    rewrite Z.mul_add_distr_l, Z.mul_1_r.
    destruct (0x1000 <? pos + w) eqn:E.
    + apply Z.ltb_lt in E. simpl. split; [auto|]. split.
      * split; [intros _; split; [discriminate | lia] | reflexivity].
      * exists []. rewrite app_nil_r. auto.
    + apply Z.ltb_ge in E. unfold rbind.
      destruct (@exec_value_events w d pos v s Hw E) as (Hok & new1 & Ht1 & Hf1).
      destruct (exec_value fl w d pos v s) as [r1 s1]. simpl in Hok, Ht1. subst r1.
      destruct (IH (pos + w) s1) as (Hres & Hiff & new2 & Ht2 & Hf2).
      split; [exact Hres|]. split.
      * rewrite Hiff. split.
        -- intros [Hne Hgt]. split; [discriminate | lia].
        -- intros [_ Hgt]. split; [|lia].
           intros ->. simpl in Hgt. lia.
      * exists (new1 ++ new2)%list. rewrite Ht2, Ht1, app_assoc. split; [reflexivity|].
        apply Forall_app. split.
        -- eapply Forall_impl; [|exact Hf1]. intros e.
           apply in_window_more. lia.
        -- eapply Forall_impl; [|exact Hf2]. intros e. apply in_window_shift.
Qed.

Lemma accesses_prints (l : list event) : only_prints l -> accesses l = [].
Proof.
  induction 1 as [|e l He Hl IH]; [reflexivity|].
  unfold accesses in *. simpl. now rewrite He.
Qed.

Lemma only_prints_window (d : pci_dev) (w pos n : Z) (l : list event) :
  only_prints l -> Forall (in_window d w pos n) l.
Proof.
  intros H. eapply Forall_impl; [|exact H].
  intros [s0|d0 i0 k0|d0 p0 w0|d0 p0 w0 b0]; simpl; auto; discriminate.
Qed.

Lemma when_verbose_print (x : string) (s : run_state) :
  exists pr, only_prints pr /\
    when_verbose fl (emit (Print x)) s
    = (Ok tt, {| space := space s; trace := (trace s ++ pr)%list |}).
Proof.
  unfold when_verbose, emit, ret. destruct (verbose fl =? 0).
  - exists []. split; [constructor|]. rewrite app_nil_r. now destruct s.
  - exists [Print x]. split; [repeat constructor | reflexivity].
Qed.

Lemma locate_request (o : op) (d : pci_dev) (s : run_state) :
  match request o with
  | None => locate fl o d s = (Ok 0, s)
  | Some (id, kind) =>
      exists pr, only_prints pr /\
        locate fl o d s
        = (match pci_find_cap (space s) d id kind with
           | Some a => Ok (i32 a)
           | None => Err (CapabilityNotFound (cap o))
           end,
           {| space := space s;
              trace := (trace s ++ pr ++ [FindCap d id kind])%list |})
  end.
Proof.
  unfold request, selector_of, locate.
  destruct (cap o =? 0); [reflexivity|].
  destruct (cap o <? 0x20000); unfold rbind.
  - destruct (when_verbose_print ("(cap " ++ hex 2 (cap o - 0x10000) ++ ")") s)
      as (pr & Hpr & ->).
    exists pr. split; [exact Hpr|]. unfold find_cap. simpl.
    rewrite <- app_assoc. destruct (pci_find_cap _ _ _ _); reflexivity.
  - destruct (when_verbose_print ("(ecap " ++ hex 4 (cap o - 0x20000) ++ ")") s)
      as (pr & Hpr & ->).
    exists pr. split; [exact Hpr|]. unfold find_cap. simpl.
    rewrite <- app_assoc. destruct (pci_find_cap _ _ _ _); reflexivity.
Qed.

Lemma selector_round_trip :
  selector_of (encode NoCapability) = NoCapability /\
  (forall id, 0 <= id < 0x100 ->
     selector_of (encode (NormalCapability id)) = NormalCapability id) /\
  (forall id, 0 <= id < 0x1000 ->
     selector_of (encode (ExtendedCapability id)) = ExtendedCapability id).
Proof.
  split; [reflexivity|]. split; intros id Hid; unfold selector_of, encode.
  - destruct (0x10000 + id =? 0) eqn:E0; [apply Z.eqb_eq in E0; lia|].
    destruct (0x10000 + id <? 0x20000) eqn:E1; [|apply Z.ltb_ge in E1; lia].
    f_equal. unfold u32. rewrite Z.mod_small; lia.
  - destruct (0x20000 + id =? 0) eqn:E0; [apply Z.eqb_eq in E0; lia|].
    destruct (0x20000 + id <? 0x20000) eqn:E1; [apply Z.ltb_lt in E1; lia|].
    f_equal. unfold u32. rewrite Z.mod_small; lia.
Qed.

Lemma format_valid (w : Z) :
  valid_width w -> exists k, table_get formats w = Some (Some k).
Proof. intros [-> | [-> | ->]]; eexists; reflexivity. Qed.

(** The accesses of an operation once the base is known. *)
Lemma exec_at_window (o : op) (d : pci_dev) (base : Z) (s : run_state) :
  valid_width (width o) -> 0 <= addr o < 0x1000 -> 0 <= base < 0x7FFFF000 ->
  let n := Z.max 1 (num_values o) in
  let r := exec_at fl o d base s in
  (fst r = Ok tt \/ fst r = Err OutOfRange) /\
  (fst r = Err OutOfRange <-> 0x1000 < base + addr o + width o * n) /\
  exists new, trace (snd r) = (trace s ++ new)%list /\
              Forall (in_window d (width o) (base + addr o) n) new.
Proof.
  intros Hw Ha Hb n r. subst r. unfold exec_at, rbind.
  rewrite (i32_width Hw), i32_small by lia.
  destruct (when_verbose_print (":" ++ hex 2 (base + addr o)) s) as (pr & Hpr & ->).
  cbv beta iota.
  set (pos := base + addr o) in *.
  set (s1 := {| space := space s; trace := (trace s ++ pr)%list |}).
  destruct (num_values o =? 0) eqn:En; cbv beta iota delta [negb].
  - apply Z.eqb_eq in En. assert (Hn : n = 1) by (subst n; lia). rewrite Hn.
    destruct (when_verbose_print " = " s1) as (pr2 & Hpr2 & ->).
    cbv beta iota.
    destruct (0x1000 <? pos + width o) eqn:E.
    + apply Z.ltb_lt in E. simpl. split; [auto|]. split; [split; [lia | reflexivity]|].
      exists (pr ++ pr2)%list. rewrite app_assoc. split; [reflexivity|].
      apply Forall_app; split; apply only_prints_window; assumption.
    + apply Z.ltb_ge in E. unfold read_width, print_format.
      destruct (format_valid Hw) as (k & ->). simpl.
      split; [auto|]. split; [split; [discriminate | lia]|].
      eexists. rewrite <- !app_assoc. split; [reflexivity|].
      apply Forall_app; split; [apply only_prints_window; assumption|].
      apply Forall_app; split; [apply only_prints_window; assumption|].
      constructor; [|repeat constructor].
      simpl. repeat split; auto; try lia. exists 0. lia.
  - apply Z.eqb_neq in En. unfold num_values in *.
    assert (Hn : n = Z.of_nat (List.length (values o))) by (subst n; unfold num_values; lia).
    rewrite Hn.
    destruct (exec_values_window d (values o) Hw pos s1) as (Hres & Hiff & new & Ht & Hf).
    destruct (exec_values fl (width o) d pos (values o) s1) as [[[]|e] s2];
      simpl in Hres, Hiff, Ht.
    + destruct (when_verbose_print newline s2) as (pr2 & Hpr2 & ->). simpl.
      split; [auto|]. split.
      * split; [discriminate|]. intros Hgt. apply Hiff. split; [|lia].
        intros Hnil. rewrite Hnil in En. simpl in En. lia.
      * exists (pr ++ new ++ pr2)%list. rewrite Ht. simpl. rewrite <- !app_assoc.
        split; [reflexivity|].
        apply Forall_app; split; [apply only_prints_window; assumption|].
        apply Forall_app; split; [assumption|].
        apply only_prints_window; assumption.
    + simpl. destruct Hres as [Hres | Hres]; [discriminate|].
      split; [auto|]. split.
      * rewrite Hiff. split; [intros [_ ?]; lia|]. intros Hgt. split; [|lia].
        intros Hnil. rewrite Hnil in En. simpl in En. lia.
      * exists (pr ++ new)%list. rewrite Ht. simpl. rewrite <- !app_assoc.
        split; [reflexivity|].
        apply Forall_app; split; [apply only_prints_window; assumption|assumption].
Qed.

(** C5. [exec_op] on a device: an operation that names a capability calls
    the locator with the device, the kind and the id; when nothing is found
    the run ends there with [die("Capability %08x not found", op->cap)] and
    touches no register.  Otherwise the accesses start at the capability
    base (0 with no capability) plus the stored offset and advance by the
    width for each value; each one ends inside the 0x1000 bytes, and the run
    ends with [die("Out of range")] exactly when one of them would not.  An
    operation that ends the run leaves nothing of the schedule to execute.
    The operation is one that the parser accepts, and the locator answers
    with addresses that an [int] holds together with an offset. *)
Theorem effective_address (o : op) (d : pci_dev) (s : run_state) :
  valid_width (width o) -> 0 <= addr o < 0x1000 ->
  (forall id kind a, pci_find_cap (space s) d id kind = Some a -> 0 <= a < 0x7FFFF000) ->
  let r := exec_op fl o d s in
  let new := new_events (exec_op fl o d) s in
  let n := Z.max 1 (num_values o) in
  (forall id kind, request o = Some (id, kind) ->
     hd_error (accesses new) = Some (FindCap d id kind) /\
     (pci_find_cap (space s) d id kind = None ->
        fst r = Err (CapabilityNotFound (cap o)) /\
        accesses new = [FindCap d id kind])) /\
  (forall base, capability_base o d s = Some base ->
     Forall (in_window d (width o) (base + addr o) n) new /\
     (fst r = Err OutOfRange <-> 0x1000 < base + addr o + width o * n) /\
     (fst r = Ok tt \/ fst r = Err OutOfRange)) /\
  (forall e rest, fst r = Err e -> run_schedule fl ((d, o) :: rest) s = r) /\
  (selector_of (encode NoCapability) = NoCapability /\
   (forall id, 0 <= id < 0x100 ->
      selector_of (encode (NormalCapability id)) = NormalCapability id) /\
   (forall id, 0 <= id < 0x1000 ->
      selector_of (encode (ExtendedCapability id)) = ExtendedCapability id)).
Proof.
  intros Hw Ha Hlib r new n. subst r new.
  split; [|split; [|split; [|exact selector_round_trip]]].
  3: { intros e rest He. simpl. unfold rbind.
       destruct (exec_op fl o d s) as [[u|e'] s1]; [discriminate | reflexivity]. }
  - intros id kind Hreq.
    unfold exec_op, rbind.
    destruct (when_verbose_print
                (hex 2 (bus d) ++ ":" ++ hex 2 (dev d) ++ "." ++ hex 1 (func d)) s)
      as (pr0 & Hpr0 & E0).
    pose proof (locate_request o d {| space := space s; trace := (trace s ++ pr0)%list |})
      as Hloc.
    rewrite Hreq in Hloc. destruct Hloc as (pr1 & Hpr1 & E1). simpl in E1.
    destruct (pci_find_cap (space s) d id kind) as [a|] eqn:Ef.
    + destruct (@exec_at_window o d (i32 a)
                  {| space := space s;
                     trace := ((trace s ++ pr0) ++ pr1 ++ [FindCap d id kind])%list |}
                  Hw Ha) as (_ & _ & new & Ht & _).
      { rewrite i32_small; [eauto|]. specialize (Hlib _ _ _ Ef). lia. }
      split; [|discriminate].
      erewrite new_events_eq.
      2: { unfold exec_op, rbind. rewrite E0, E1, Ht. simpl.
           rewrite <- !app_assoc. reflexivity. }
      rewrite !accesses_app, (accesses_prints Hpr0), (accesses_prints Hpr1).
      reflexivity.
    + split; [|intros _; split].
      * erewrite new_events_eq.
        2: { unfold exec_op, rbind. rewrite E0, E1. simpl.
             rewrite <- !app_assoc. reflexivity. }
        rewrite !accesses_app, (accesses_prints Hpr0), (accesses_prints Hpr1).
        reflexivity.
      * rewrite E0, E1. reflexivity.
      * erewrite new_events_eq.
        2: { unfold exec_op, rbind. rewrite E0, E1. simpl.
             rewrite <- !app_assoc. reflexivity. }
        rewrite !accesses_app, (accesses_prints Hpr0), (accesses_prints Hpr1).
        reflexivity.
  - intros base Hbase. unfold capability_base in Hbase.
    unfold exec_op, rbind.
    destruct (when_verbose_print
                (hex 2 (bus d) ++ ":" ++ hex 2 (dev d) ++ "." ++ hex 1 (func d)) s)
      as (pr0 & Hpr0 & E0).
    pose proof (locate_request o d {| space := space s; trace := (trace s ++ pr0)%list |})
      as Hloc.
    destruct (request o) as [[id kind]|].
    + destruct Hloc as (pr1 & Hpr1 & E1). simpl in E1. rewrite Hbase in E1.
      assert (Hb : 0 <= base < 0x7FFFF000) by (eapply Hlib; eauto).
      rewrite i32_small in E1 by lia.
      destruct (@exec_at_window o d base
                  {| space := space s;
                     trace := ((trace s ++ pr0) ++ pr1 ++ [FindCap d id kind])%list |}
                  Hw Ha Hb) as (Hres & Hiff & new & Ht & Hf).
      rewrite E0, E1. split; [|split; assumption].
      erewrite new_events_eq.
      2: { unfold exec_op, rbind. rewrite E0, E1, Ht. simpl.
           rewrite <- !app_assoc. reflexivity. }
      apply Forall_app; split; [apply only_prints_window; assumption|].
      apply Forall_app; split; [apply only_prints_window; assumption|].
      constructor; [exact I | assumption].
    + inversion Hbase; subst base.
      destruct (@exec_at_window o d 0
                  {| space := space s; trace := (trace s ++ pr0)%list |}
                  Hw Ha ltac:(lia)) as (Hres & Hiff & new & Ht & Hf).
      rewrite E0, Hloc. split; [|split; assumption].
      erewrite new_events_eq.
      2: { unfold exec_op, rbind. rewrite E0, Hloc, Ht. simpl.
           rewrite <- !app_assoc. reflexivity. }
      apply Forall_app; split; [apply only_prints_window; assumption | assumption].
Qed.

End EffectiveAddress.

Section LiteralRange.

Context {P : Platform}.

Lemma out_of_range_accepted (lim ll : Z) :
  0 <= lim <= UINT_MAX -> (out_of_range lim ll = false <-> accepted lim ll).
Proof.
  intros Hlim. unfold out_of_range, accepted.
  pose proof ULONG_MAX_min as Hmin.
  rewrite Z.mod_small by lia.
  rewrite andb_false_iff, Z.ltb_ge, Z.ltb_ge. tauto.
Qed.

(** The range check of a value, where the pointer [f] stands, after
    [parse_x32], at the end of a string or at a colon: a value literal read
    as the number [ll] and a mask literal read as [mm], at a width of maximum
    [lim] (one of [max_values]), are each accepted exactly when they are at
    most [lim] or at least [~0UL - lim]; otherwise the parse fails with
    [usage("Value ... is out of range")], respectively
    [usage("Mask ... is out of range")], which names the literal.  A value
    with a mask sets [f] to its colon; a value without one leaves [f] as it
    was. *)
Lemma literal_range (lim : Z) (f text : string) (ll : Z) (f' : string) :
  0 <= lim <= UINT_MAX ->
  (parse_x32 text = X32_full ll /\ f' = f \/ parse_x32 text = X32_partial ll f') ->
  (f' = EmptyString \/ exists m, f' = String ":" m) ->
  (parse_value lim f text = Err (ValueOutOfRange text) <-> ~ accepted lim ll) /\
  (f' = EmptyString -> accepted lim ll ->
     parse_value lim f text = Ok ({| v_value := ll; v_mask := UINT_MAX |}, f')) /\
  (forall m mm, f' = String ":" m -> parse_x32 m = X32_full mm ->
     (parse_value lim f text = Err (MaskOutOfRange m)
        <-> accepted lim ll /\ ~ accepted lim mm) /\
     (accepted lim ll -> accepted lim mm ->
        parse_value lim f text = Ok ({| v_value := Z.land ll mm; v_mask := mm |}, f'))) /\
  (forall w, valid_width w -> 0 <= limit w <= UINT_MAX).
Proof.
  intros Hlim Hparse Hterm.
  rewrite <- !and_assoc. split.
  2: { intros w [-> | [-> | ->]]; unfold limit, UINT_MAX; simpl; lia. }
  rewrite !and_assoc.
  pose proof (out_of_range_accepted ll Hlim) as Hll.
  assert (Hshape : parse_value lim f text =
            match f' with
            | String a mask_text =>
                if negb (Ascii.eqb a ":") then Err (InvalidValue text)
                else if out_of_range lim ll then Err (ValueOutOfRange text)
                else match parse_x32 mask_text with
                     | X32_full m =>
                         if out_of_range lim m then Err (MaskOutOfRange mask_text)
                         else Ok ({| v_value := Z.land ll m; v_mask := m |}, f')
                     | _ => Err (InvalidMask mask_text)
                     end
            | EmptyString =>
                if out_of_range lim ll then Err (ValueOutOfRange text)
                else Ok ({| v_value := ll; v_mask := UINT_MAX |}, f')
            end).
  { unfold parse_value. destruct Hparse as [[-> ->] | ->]; reflexivity. }
  rewrite Hshape. clear Hshape Hparse.
  destruct (out_of_range lim ll) eqn:Eo.
  - assert (Hn : ~ accepted lim ll) by (rewrite <- Hll; discriminate).
    destruct Hterm as [-> | [m ->]]; simpl.
    + repeat split; try tauto; try discriminate.
    + repeat split; try tauto; try discriminate.
      all: try (intros [? _]; tauto).
  - assert (Hy : accepted lim ll) by (now apply Hll).
    destruct Hterm as [-> | [m ->]]; simpl.
    + repeat split; try tauto; try discriminate.
    + split; [|split; [discriminate|]].
      * split; [|tauto]. destruct (parse_x32 m) as [| |mm]; try discriminate.
        destruct (out_of_range lim mm); discriminate.
      * intros m0 mm Hm Hx. inversion Hm; subst m0. rewrite Hx.
        pose proof (out_of_range_accepted mm Hlim) as Hmm.
        destruct (out_of_range lim mm) eqn:Em.
        -- assert (~ accepted lim mm) by (rewrite <- Hmm; discriminate).
           repeat split; try tauto.
        -- assert (accepted lim mm) by (now apply Hmm).
           repeat split; try tauto; try discriminate.
           all: try (intros [_ ?]; tauto).
Qed.

End LiteralRange.

(** A value without a mask when [f] points at a character that is no
    colon. *)
Lemma parse_value_unset (P : Platform) (lim : Z) (text : string) (ll : Z) (a : ascii)
    (rest : string) :
  parse_x32 text = X32_full ll -> a <> ":"%char ->
  parse_value lim (String a rest) text = Err (InvalidValue text).
Proof.
  intros Hx Ha. unfold parse_value. rewrite Hx.
  apply Ascii.eqb_neq in Ha. now rewrite Ha.
Qed.

(** C6. The value [0006] of the token [04.W=0006] is in range for a word,
    but whether [parse_op] accepts it is decided by the pointer [f], which
    is read without having been set: [parse_x32] reads the literal whole and
    stores to [*stopp] only when it stops before the end.  With [f] at the
    end of a string the value is accepted; with [f] at a character that is
    no colon this literal, like every literal read whole, is refused as an
    invalid value, under either size of [unsigned long]; with [f] at a
    colon the text behind it is taken for the mask of the value, and is
    refused or applied as such. *)
Theorem bare_literal_unset_pointer :
  @parse_x32 LP64 "0006" = X32_full 6 /\
  limit 2 = 0xffff /\ @accepted LP64 0xffff 6 /\ @accepted ILP32 0xffff 6 /\
  @parse_op LP64 "04.W=0006" Bench.vec0 EmptyString []
  = Ok [{| dev_vector := Bench.vec0; cap := 0; addr := 4; width := 2;
           values := [{| v_value := 6; v_mask := UINT_MAX |}] |}] /\
  @parse_op LP64 "04.W=0006" Bench.vec0 "x" [] = Err (InvalidValue "0006") /\
  @parse_op ILP32 "04.W=0006" Bench.vec0 "x" [] = Err (InvalidValue "0006") /\
  @parse_op LP64 "04.W=0006" Bench.vec0 ":10000" [] = Err (MaskOutOfRange "10000") /\
  @parse_op LP64 "04.W=0006" Bench.vec0 ":0c" []
  = Ok [{| dev_vector := Bench.vec0; cap := 0; addr := 4; width := 2;
           values := [{| v_value := 4; v_mask := 0xc |}] |}] /\
  (forall (P : Platform) lim text ll a rest,
     parse_x32 text = X32_full ll -> a <> ":"%char ->
     parse_value lim (String a rest) text = Err (InvalidValue text)).
Proof.
  split; [vm_compute; reflexivity|].
  split; [reflexivity|].
  split; [left; vm_compute; discriminate|].
  split; [left; vm_compute; discriminate|].
  repeat (split; [vm_compute; reflexivity|]).
  intros P lim text ll a rest Hx Ha. exact (@parse_value_unset P lim text ll a rest Hx Ha).
Qed.

Section DeviceVectors.

Context {P : Platform} {L : PciLib}.

Lemma copy_matches_filter (filt : pci_filter) (z : list pci_dev) :
  copy_matches filt z = List.filter (pci_filter_match filt) z.
Proof.
  induction z as [|d z IH]; simpl; [reflexivity|].
  destruct (pci_filter_match filt d); now rewrite IH.
Qed.

Lemma count_matches_length (filt : pci_filter) (z : list pci_dev) (cnt : nat) :
  count_matches filt z cnt = (cnt + List.length (copy_matches filt z))%nat.
Proof.
  revert cnt. induction z as [|d z IH]; intros cnt; simpl; [lia|].
  rewrite IH. destruct (pci_filter_match filt d); simpl; lia.
Qed.

Lemma heap_ok_fresh (h : list vector) (v : vector) :
  heap_ok h -> vec_addr v = List.length h ->
  heap_ok (h ++ [v]) /\ forall v', In v' h -> same_vector v' v = false.
Proof.
  intros Hh Hv. split.
  - intros i v' Hi.
    destruct (Nat.lt_ge_cases i (List.length h)) as [Hlt | Hge].
    + rewrite nth_error_app1 in Hi by exact Hlt. now apply Hh.
    + rewrite nth_error_app2 in Hi by exact Hge.
      destruct (i - List.length h)%nat as [|k] eqn:Ek; simpl in Hi.
      * inversion Hi; subst. lia.
      * destruct k; discriminate.
  - intros v' Hin. apply In_nth_error in Hin. destruct Hin as [i Hi].
    pose proof (Hh _ _ Hi) as Ha.
    assert (i < List.length h)%nat by (apply nth_error_Some; congruence).
    unfold same_vector. apply Nat.eqb_neq. lia.
Qed.

(** C7 (amended). A filter token does not build a device vector, and it
    starts from a new filter only when the token before it was not a filter
    token: in the state GOT_FILTER it refines the filter at hand.  The vector
    is built by the first operation token that follows: a new array, after
    those allocated before, of the devices of the full list that the filter
    matches, in the order of that list and with room for the NULL at its end;
    the operation and those after it, up to the next filter token, point at
    it. *)
Theorem filter_and_vector (fl : flags) (devices : list pci_dev) (f0 : string)
    (p : parser) (c : string) :
  (forall next p' took,
     filter_token p c next = Ok (p', took) ->
     state p' = STATE_GOT_FILTER /\
     heap p' = heap p /\ selected_devices p' = selected_devices p /\
     first_op p' = first_op p /\ warnings p' = warnings p /\
     parse_filter c next
       (match state p with
        | STATE_GOT_FILTER => filter p
        | _ => pci_filter_init
        end) = Ok (filter p', took)) /\
  (forall p',
     state p = STATE_GOT_FILTER ->
     op_token fl devices f0 p c = Ok p' ->
     exists vec o,
       heap p' = (heap p ++ [vec])%list /\
       vec_addr vec = List.length (heap p) /\
       (heap_ok (heap p) ->
        heap_ok (heap p') /\ forall v, In v (heap p) -> same_vector v vec = false) /\
       vec_devs vec = List.filter (pci_filter_match (filter p)) devices /\
       count_matches (filter p) devices 1 = S (List.length (vec_devs vec)) /\
       state p' = STATE_GOT_OP /\ selected_devices p' = Some vec /\
       first_op p' = (first_op p ++ [o])%list /\ dev_vector o = vec) /\
  (forall p',
     state p = STATE_GOT_OP ->
     op_token fl devices f0 p c = Ok p' ->
     exists vec o,
       heap p' = heap p /\
       state p' = STATE_GOT_OP /\
       selected_devices p = Some vec /\ selected_devices p' = Some vec /\
       first_op p' = (first_op p ++ [o])%list /\ dev_vector o = vec).
Proof.
  split; [|split].
  - intros next p' took. unfold filter_token.
    destruct (parse_filter c next _) as [[filter' took']|] eqn:E; simpl; [|discriminate].
    intros H; inversion H; subst; simpl. repeat split; assumption.
  - intros p' Hst. unfold op_token. rewrite Hst. unfold select_devices.
    destruct (parse_op c _ f0 (first_op p)) as [ops|] eqn:Eop; simpl; [|discriminate].
    intros H; inversion H; subst; clear H; simpl.
    destruct (parse_op_inversion _ _ _ _ Eop) as (o & -> & Hvec & _).
    eexists; exists o. split; [reflexivity|]. simpl.
    split; [reflexivity|]. split; [intros Hh; apply heap_ok_fresh; auto|].
    split; [apply copy_matches_filter|].
    split; [apply count_matches_length|]. repeat split; auto.
  - intros p' Hst. unfold op_token. rewrite Hst.
    destruct (selected_devices p) as [vec|] eqn:Es; [|discriminate].
    destruct (parse_op c vec f0 (first_op p)) as [ops|] eqn:Eop; simpl; [|discriminate].
    intros H; inversion H; subst; clear H; simpl.
    destruct (parse_op_inversion _ _ _ _ Eop) as (o & -> & Hvec & _).
    exists vec, o. repeat split; auto.
Qed.

End DeviceVectors.

Section DemoMode.

Context {L : PciLib}.
Variable fl : flags.

Lemma commits_nothing_ret {A : Type} (a : A) : commits_nothing (ret a).
Proof.
  intros s. split; [reflexivity|]. exists []. simpl. rewrite app_nil_r. auto.
Qed.

Lemma commits_nothing_fail {A : Type} (e : error) : commits_nothing (@fail _ A e).
Proof.
  intros s. split; [reflexivity|]. exists []. simpl. rewrite app_nil_r. auto.
Qed.

Lemma commits_nothing_bind {A B : Type} (m : run A) (k : A -> run B) :
  commits_nothing m -> (forall a, commits_nothing (k a)) -> commits_nothing (rbind m k).
Proof.
  intros Hm Hk s. unfold rbind. destruct (Hm s) as (Hs & new & Ht & Hf).
  destruct (m s) as [[a|e] s1]; simpl in *.
  - destruct (Hk a s1) as (Hs' & new' & Ht' & Hf').
    split; [congruence|]. exists (new ++ new')%list.
    rewrite Ht', Ht, app_assoc. split; [reflexivity|]. apply Forall_app; auto.
  - split; [assumption|]. exists new. auto.
Qed.

Lemma commits_nothing_emit (x : string) : commits_nothing (emit (Print x)).
Proof.
  intros s. split; [reflexivity|]. exists [Print x]. simpl. auto.
Qed.

Lemma commits_nothing_verbose (m : run unit) :
  commits_nothing m -> commits_nothing (when_verbose fl m).
Proof.
  intros Hm. unfold when_verbose. destruct (verbose fl =? 0);
    [apply commits_nothing_ret | exact Hm].
Qed.

Lemma commits_nothing_read (w : Z) (d : pci_dev) (pos : Z) :
  commits_nothing (read_width w d pos).
Proof.
  intros s. split; [reflexivity|]. exists [Read d pos w]. simpl. auto.
Qed.

Lemma commits_nothing_find (d : pci_dev) (id : Z) (kind : cap_type) :
  commits_nothing (find_cap d id kind).
Proof.
  intros s. split; [reflexivity|]. exists [FindCap d id kind]. simpl. auto.
Qed.

Lemma commits_nothing_format (w x : Z) : commits_nothing (print_format w x).
Proof.
  unfold print_format. destruct (table_get formats w) as [[k|]|];
    [apply commits_nothing_emit | apply commits_nothing_fail | apply commits_nothing_fail].
Qed.

Lemma commits_nothing_mask_format (w y v m x : Z) :
  commits_nothing (print_mask_format w y v m x).
Proof.
  unfold print_mask_format. destruct (table_get mask_formats w) as [[k|]|];
    [apply commits_nothing_emit | apply commits_nothing_fail | apply commits_nothing_fail].
Qed.

#[local] Hint Resolve commits_nothing_ret commits_nothing_fail commits_nothing_emit
  commits_nothing_verbose commits_nothing_read commits_nothing_find
  commits_nothing_format commits_nothing_mask_format : quiet.

Ltac quiet :=
  repeat first
    [ apply commits_nothing_bind; [|intros ?]
    | apply commits_nothing_verbose
    | solve [auto with quiet] ].





Lemma write_positions_app (a b : list event) :
  write_positions (a ++ b) = (write_positions a ++ write_positions b)%list.
Proof.
  induction a as [|e a IH]; [reflexivity|].
  destruct e; simpl; now rewrite IH.
Qed.

(** One value: the events that it adds. *)
Lemma exec_value_trace (w : Z) (d : pci_dev) (pos : Z) (v : value) (s : run_state) :
  valid_width w ->
  let old := current w s d pos in
  let full := Z.land (v_mask v) (limit w) =? limit w in
  let x := bits_of w v old in
  exists k s',
    table_get formats w = Some (Some k) /\
    exec_value fl w d pos v s = (Ok tt, s') /\
    fst (compute_bits fl w d pos v s) = Ok x /\
    trace s' =
      (trace s
         ++ (if full then [] else [Read d pos w])
         ++ (if verbose fl =? 0 then []
             else [Print " ";
                   Print (if full then hex k (v_value v)
                          else mask_format k old (v_value v) (v_mask v) x)])
         ++ (if demo_mode fl =? 0 then [Write d pos w (trunc w x)] else []))%list.
Proof.
  intros Hw old full x. subst old full x.
  unfold exec_value, compute_bits, rbind, when_verbose, print_format,
    print_mask_format, bits_of, current.
  rewrite (limit_valid Hw).
  destruct Hw as [-> | [-> | ->]];
    destruct (Z.land (v_mask v) _ =? _); destruct (verbose fl =? 0);
    destruct (demo_mode fl =? 0); simpl;
    eexists; eexists; (split; [reflexivity|]); (split; [reflexivity|]);
    (split; [reflexivity|]); simpl; rewrite <- ?app_assoc, ?app_nil_r; reflexivity.
Qed.

Lemma exec_values_writes (w : Z) (d : pci_dev) (vs : list value) :
  valid_width w ->
  forall pos s,
  pos + w * Z.of_nat (List.length vs) <= 0x1000 ->
  exists s', exec_values fl w d pos vs s = (Ok tt, s') /\
    exists new, trace s' = (trace s ++ new)%list /\
      write_positions new
      = if demo_mode fl =? 0 then running pos w (List.length vs) else [].
Proof.
  intros Hw. assert (0 < w) by (destruct Hw as [-> | [-> | ->]]; lia).
  induction vs as [|v vs IH]; intros pos s Hfit.
  - exists s. split; [reflexivity|]. exists []. rewrite app_nil_r.
    split; [reflexivity|]. simpl. now destruct (demo_mode fl =? 0).
  - simpl List.length in Hfit. rewrite Nat2Z.inj_succ in Hfit.
    assert (Hmul : 0 <= w * Z.of_nat (List.length vs))
      by (apply Z.mul_nonneg_nonneg; lia).
    rewrite Z.mul_succ_r in Hfit.
    simpl exec_values. destruct (0x1000 <? pos + w) eqn:E;
      [apply Z.ltb_lt in E; lia|].
    unfold rbind.
    destruct (exec_value_trace d pos v s Hw) as (k & s1 & _ & -> & _ & Ht1).
    destruct (IH (pos + w) s1 ltac:(lia)) as (s2 & -> & new & Ht2 & Hwp).
    exists s2. split; [reflexivity|]. eexists. rewrite Ht2, Ht1.
    rewrite <- !app_assoc. split; [reflexivity|].
    rewrite !write_positions_app, Hwp.
    destruct (Z.land _ _ =? _); destruct (verbose fl =? 0);
      destruct (demo_mode fl =? 0); reflexivity.
Qed.

Lemma output_app (a b : list event) : output (a ++ b) = (output a ++ output b)%list.
Proof.
  induction a as [|e a IH]; [reflexivity|].
  destruct e; simpl; now rewrite IH.
Qed.


End DemoMode.

Section ParserLoop.

Context {P : Platform} {L : PciLib}.
Variable fl : flags.
Variable devices : list pci_dev.
Variable junk : nat -> string.

(** Induction along the loop of [parse_ops]. *)
Lemma parse_ops_loop_elim (R : parser -> list string -> result parser -> Prop) :
  (forall p, R p [] (Ok p)) ->
  (forall p c rest e,
     is_filter_token c = true ->
     filter_token p c (hd_error rest) = Err e -> R p (c :: rest) (Err e)) ->
  (forall p c rest p' took r,
     is_filter_token c = true ->
     filter_token p c (hd_error rest) = Ok (p', took) ->
     R p' (after_filter took rest) r -> R p (c :: rest) r) ->
  (forall p c rest e,
     is_filter_token c = false ->
     op_token fl devices (junk (List.length (first_op p))) p c = Err e ->
     R p (c :: rest) (Err e)) ->
  (forall p c rest p' r,
     is_filter_token c = false ->
     op_token fl devices (junk (List.length (first_op p))) p c = Ok p' ->
     R p' rest r -> R p (c :: rest) r) ->
  forall args p, R p args (parse_ops_loop fl devices junk p args).
Proof.
  intros Hnil Hferr Hfok Hoerr Hook args.
  remember (List.length args) as n eqn:Hn. revert args Hn.
  induction n as [n IH] using lt_wf_ind. intros args Hn p.
  destruct args as [|c rest]; [apply Hnil|].
  simpl parse_ops_loop. destruct (is_filter_token c) eqn:Ef.
  - destruct (filter_token p c (hd_error rest)) as [[p' took]|e] eqn:Et; simpl.
    + eapply Hfok; eauto.
      assert (Hr : R p' (after_filter took rest)
                     (parse_ops_loop fl devices junk p' (after_filter took rest))).
      { eapply IH; [|reflexivity]. subst n. unfold after_filter.
        destruct took; destruct rest; simpl; lia. }
      unfold after_filter in *. destruct took; destruct rest; exact Hr.
    + eapply Hferr; eauto.
  - destruct (op_token fl devices _ p c) as [p'|e] eqn:Et; simpl.
    + eapply Hook; eauto. eapply IH; [|reflexivity]. subst n. simpl. lia.
    + eapply Hoerr; eauto.
Qed.

Lemma filter_token_state (p : parser) (c : string) (next : option string)
    (p' : parser) (took : bool) :
  filter_token p c next = Ok (p', took) ->
  state p' = STATE_GOT_FILTER /\ first_op p' = first_op p /\ heap p' = heap p /\
  warnings p' = warnings p /\ selected_devices p' = selected_devices p.
Proof.
  unfold filter_token.
  destruct (parse_filter c next _) as [[f t]|]; simpl; [|discriminate].
  intros H; inversion H; subst; simpl. auto.
Qed.

Lemma op_token_ops (f0 : string) (p : parser) (c : string) (p' : parser) :
  op_token fl devices f0 p c = Ok p' ->
  state p' = STATE_GOT_OP /\
  exists vec, selected_devices p' = Some vec /\
    parse_op c vec f0 (first_op p) = Ok (first_op p').
Proof.
  unfold op_token.
  destruct (state p); [discriminate| |].
  - destruct (select_devices devices (heap p) (filter p)) as [b h].
    destruct (parse_op c b f0 (first_op p)) as [ops|] eqn:E; simpl; [|discriminate].
    intros H; inversion H; subst; simpl. eauto.
  - destruct (selected_devices p) as [vec|]; [|discriminate].
    destruct (parse_op c vec f0 (first_op p)) as [ops|] eqn:E; simpl; [|discriminate].
    intros H; inversion H; subst; simpl. eauto.
Qed.

(** Every operation in the list has a width of 1, 2 or 4. *)
Lemma parse_ops_loop_widths (args : list string) (p p' : parser) :
  Forall (fun o => valid_width (width o)) (first_op p) ->
  parse_ops_loop fl devices junk p args = Ok p' ->
  Forall (fun o => valid_width (width o)) (first_op p').
Proof.
  revert p'.
  apply (parse_ops_loop_elim
           (fun p args r => forall p',
              Forall (fun o => valid_width (width o)) (first_op p) ->
              r = Ok p' -> Forall (fun o => valid_width (width o)) (first_op p')));
    clear args p.
  - intros p p' Hp H. inversion H; subst. exact Hp.
  - discriminate.
  - intros p c rest p1 took r _ Ht IH p' Hp Hr.
    apply IH; [|exact Hr].
    destruct (filter_token_state _ _ _ Ht) as (_ & -> & _). exact Hp.
  - discriminate.
  - intros p c rest p1 r _ Ht IH p' Hp Hr.
    apply IH; [|exact Hr].
    destruct (op_token_ops _ _ _ Ht) as (_ & vec & _ & Hop).
    destruct (parse_op_inversion _ _ _ _ Hop) as (o & -> & _ & Hw & _).
    apply Forall_app. split; [exact Hp | constructor; [exact Hw | constructor]].
Qed.

End ParserLoop.

Section DefinedBehaviour.

Context {L : PciLib}.
Variable fl : flags.

Lemma defined_ret {A : Type} (a : A) : defined (ret a).
Proof. intros s. discriminate. Qed.

Lemma defined_fail {A : Type} (e : error) : e <> Undefined -> defined (@fail _ A e).
Proof. intros He s. simpl. congruence. Qed.

Lemma defined_bind {A B : Type} (m : run A) (k : A -> run B) :
  defined m -> (forall a, defined (k a)) -> defined (rbind m k).
Proof.
  intros Hm Hk s. unfold rbind. specialize (Hm s).
  destruct (m s) as [[a|e] s1]; simpl in *; [apply Hk | congruence].
Qed.

Lemma defined_emit (e : event) : defined (emit e).
Proof. intros s. discriminate. Qed.

Lemma defined_verbose (m : run unit) : defined m -> defined (when_verbose fl m).
Proof.
  intros Hm. unfold when_verbose. destruct (verbose fl =? 0);
    [apply defined_ret | exact Hm].
Qed.

Lemma defined_read (w : Z) (d : pci_dev) (pos : Z) : defined (read_width w d pos).
Proof. intros s. discriminate. Qed.

Lemma defined_write (w : Z) (d : pci_dev) (pos x : Z) : defined (write_width w d pos x).
Proof. intros s. discriminate. Qed.

Lemma defined_find (d : pci_dev) (id : Z) (kind : cap_type) : defined (find_cap d id kind).
Proof. intros s. discriminate. Qed.

Lemma defined_format (w x : Z) : valid_width w -> defined (print_format w x).
Proof.
  intros [-> | [-> | ->]]; apply defined_emit.
Qed.

Lemma defined_mask_format (w y v m x : Z) :
  valid_width w -> defined (print_mask_format w y v m x).
Proof.
  intros [-> | [-> | ->]]; apply defined_emit.
Qed.

Ltac defined :=
  repeat first
    [ apply defined_bind; [|intros ?]
    | apply defined_verbose
    | apply defined_ret
    | apply defined_emit
    | apply defined_read
    | apply defined_write
    | apply defined_find
    | apply defined_fail; discriminate
    | apply defined_format; assumption
    | apply defined_mask_format; assumption ].

Lemma defined_values (w : Z) (d : pci_dev) (vs : list value) :
  valid_width w -> forall pos, defined (exec_values fl w d pos vs).
Proof.
  intros Hw. induction vs as [|v vs IH]; intros pos; simpl; [defined|].
  destruct (0x1000 <? pos + w); [defined|].
  apply defined_bind; [|intros ?; apply IH].
  unfold exec_value, compute_bits. rewrite (limit_valid Hw).
  apply defined_bind.
  - destruct (Z.land _ _ =? _); defined.
  - intros x. destruct (demo_mode fl =? 0); defined.
Qed.

Lemma defined_op (o : op) (d : pci_dev) :
  valid_width (width o) -> defined (exec_op fl o d).
Proof.
  intros Hw. unfold exec_op.
  apply defined_bind; [defined | intros _].
  apply defined_bind.
  - unfold locate. destruct (cap o =? 0); [defined|].
    apply defined_bind.
    + destruct (cap o <? 0x20000); defined.
    + intros [a|]; defined.
  - intros base. unfold exec_at. rewrite (i32_width Hw).
    apply defined_bind; [defined | intros _].
    destruct (negb (num_values o =? 0)).
    + apply defined_bind; [apply defined_values; exact Hw | intros _; defined].
    + apply defined_bind; [defined | intros _].
      destruct (0x1000 <? _); defined.
Qed.

Lemma defined_schedule (tr : list (pci_dev * op)) :
  Forall (fun x => valid_width (width (snd x))) tr -> defined (run_schedule fl tr).
Proof.
  induction 1 as [|[d o] tr Ho Htr IH]; simpl; [defined|].
  apply defined_bind; [apply defined_op; exact Ho | intros _; exact IH].
Qed.

Lemma schedule_ops (ops : list op) (d : pci_dev) (o : op) :
  In (d, o) (schedule ops) -> In o ops.
Proof.
  unfold schedule. rewrite in_flat_map. intros (g & Hg & Hin).
  rewrite <- (group_runs_concat ops). apply in_concat. exists g. split; [exact Hg|].
  unfold run_trace in Hin. destruct g as [|o0 g0]; [contradiction|].
  rewrite in_flat_map in Hin. destruct Hin as (d' & _ & Hin).
  rewrite in_map_iff in Hin. destruct Hin as (o' & Heq & Ho').
  inversion Heq; subst. exact Ho'.
Qed.

Lemma defined_execute (ops : list op) :
  Forall (fun o => valid_width (width o)) ops -> defined (execute fl ops).
Proof.
  intros Hops s. rewrite execute_schedule. apply defined_schedule.
  rewrite Forall_forall in *. intros [d o] Hin. simpl. apply Hops.
  eapply schedule_ops; eauto.
Qed.

End DefinedBehaviour.

Section OperationWidths.

Context {P : Platform} {L : PciLib}.

(** C9. Every operation that [parse_ops] puts in the list has a width of 1,
    2 or 4: the suffix gives 1, 2 or 4, the table gives 0, 1, 2 or 4, and an
    operation whose width is still 0 after [parse_register] is refused with
    [usage("Missing width")] and never appended.  So [max_values], [formats]
    and [mask_formats] are read at 1, 2 or 4 only, where their entries are
    not 0 and not NULL, and no execution of the list leaves the behaviour
    that C defines. *)
Theorem operation_widths (fl : flags) (devices : list pci_dev) (junk : nat -> string)
    (args : list string) (p : parser) :
  parse_ops fl devices junk args = Ok p ->
  Forall (fun o => valid_width (width o)) (first_op p) /\
  (forall o, In o (first_op p) ->
     let w := i32 (width o) in
     w <> 0 /\ w <> 3 /\
     (exists lim, table_get max_values w = Some lim /\ lim <> 0) /\
     (exists k, table_get formats w = Some (Some k)) /\
     (exists k, table_get mask_formats w = Some (Some k))) /\
  (forall fl', defined (execute fl' (first_op p))) /\
  (forall t w, width_suffix t = Ok w -> width_or_none w) /\
  Forall (fun r => width_or_none (rn_width r)) pci_reg_names /\
  (forall c vec f0 ops b0 value_text b1 width_text base offset n w o,
     split_at "=" c = (b0, value_text) ->
     split_at "." b0 = (b1, width_text) ->
     split_at "+" b1 = (base, offset) ->
     count_values value_text = Ok n ->
     width_suffix width_text = Ok w ->
     parse_register
       {| dev_vector := vec; cap := 0; addr := 0; width := w; values := [] |} base
       = Ok o ->
     width o = 0 ->
     parse_op c vec f0 ops = Err MissingWidth).
Proof.
  intros Hparse.
  assert (Hall : Forall (fun o => valid_width (width o)) (first_op p)).
  { unfold parse_ops in Hparse.
    destruct (parse_ops_loop fl devices junk parser_init args) as [p0|] eqn:E;
      simpl in Hparse; [|discriminate].
    destruct (state p0); inversion Hparse; subst;
      eapply parse_ops_loop_widths; eauto; constructor. }
  split; [exact Hall|]. split; [|split; [|split; [|split]]].
  - intros o Hin w. subst w.
    rewrite Forall_forall in Hall. specialize (Hall o Hin).
    rewrite (i32_width Hall).
    destruct Hall as [-> | [-> | ->]]; repeat split; try discriminate;
      eexists; try (split; [reflexivity | discriminate]); reflexivity.
  - intros fl'. apply defined_execute. exact Hall.
  - intros t w. apply width_suffix_ok.
  - rewrite Forall_forall. intros r Hin.
    pose proof (proj1 (forallb_forall _ _) pci_reg_names_ok r Hin) as Hok.
    unfold entry_ok in Hok.
    repeat (apply andb_prop in Hok; destruct Hok as [Hok ?]).
    unfold width_or_none, valid_width.
    repeat match goal with
           | H : (_ || _) = true |- _ => apply orb_prop in H; destruct H as [H | H]
           end; lia.
  - intros c vec f0 ops b0 value_text b1 width_text base offset n w o
      H1 H2 H3 Hn Hw Hr Hz.
    unfold parse_op. rewrite H1, H2, H3, Hn. simpl. rewrite Hw. simpl.
    rewrite Hr. simpl. rewrite Hz. reflexivity.
Qed.

End OperationWidths.

Section TrailingFilter.

Context {P : Platform} {L : PciLib}.
Variable fl : flags.
Variable devices : list pci_dev.
Variable junk : nat -> string.

(** A filter token takes the next token only when there is one, and when it
    takes none its result does not depend on what follows. *)
Lemma parse_filter_next (c : string) (next : option string) (filt : pci_filter)
    (filt' : pci_filter) (took : bool) :
  parse_filter c next filt = Ok (filt', took) ->
  (took = true -> next <> None) /\
  (took = false -> forall next', parse_filter c next' filt = Ok (filt', took)).
Proof.
  unfold parse_filter.
  destruct c as [|a [|k tail]]; try discriminate.
  destruct (negb (Ascii.eqb k "s" || Ascii.eqb k "d")); [discriminate|].
  destruct tail as [|e tail'].
  - destruct next as [x|]; simpl; [|discriminate].
    destruct (Ascii.eqb k "s").
    + destruct (pci_filter_parse_slot filt x); [discriminate|].
      intros H; inversion H; subst. split; [discriminate | discriminate].
    + destruct (pci_filter_parse_id filt x); [discriminate|].
      intros H; inversion H; subst. split; [discriminate | discriminate].
  - simpl. destruct (Ascii.eqb k "s").
    + destruct (pci_filter_parse_slot filt _); [discriminate|].
      intros H; inversion H; subst. split; [discriminate | reflexivity].
    + destruct (pci_filter_parse_id filt _); [discriminate|].
      intros H; inversion H; subst. split; [discriminate | reflexivity].
Qed.

Lemma filter_token_next (p : parser) (c : string) (next : option string)
    (p' : parser) (took : bool) :
  filter_token p c next = Ok (p', took) ->
  (took = true -> next <> None) /\
  (took = false -> forall next', filter_token p c next' = Ok (p', took)).
Proof.
  unfold filter_token.
  destruct (parse_filter c next _) as [[f t]|] eqn:E; simpl; [|discriminate].
  intros H; inversion H; subst.
  destruct (parse_filter_next _ _ _ E) as [H1 H2]. split; [exact H1|].
  intros Ht next'. rewrite (H2 Ht next'). reflexivity.
Qed.

(** Tokens after a command line that parses do not change how it parses. *)
Lemma parse_ops_loop_app (args more : list string) (p p' : parser) :
  parse_ops_loop fl devices junk p args = Ok p' ->
  parse_ops_loop fl devices junk p (args ++ more)
  = parse_ops_loop fl devices junk p' more.
Proof.
  revert p'.
  apply (parse_ops_loop_elim fl devices junk
           (fun p args r => forall p',
              r = Ok p' ->
              parse_ops_loop fl devices junk p (args ++ more)
              = parse_ops_loop fl devices junk p' more)); clear args p.
  - intros p p' H. inversion H; subst. reflexivity.
  - discriminate.
  - intros p c rest p1 took r Hf Ht IH p' Hr.
    simpl app. simpl parse_ops_loop. rewrite Hf.
    destruct (filter_token_next _ _ _ Ht) as [Htook Hfree].
    destruct took.
    + destruct rest as [|a rest']; [exfalso; now apply Htook|].
      simpl app. simpl hd_error in *. rewrite Ht. simpl.
      apply IH. exact Hr.
    + rewrite (Hfree eq_refl). simpl.
      replace (match (rest ++ more)%list with
               | [] | _ => parse_ops_loop fl devices junk p1 (rest ++ more)
               end) with (parse_ops_loop fl devices junk p1 (rest ++ more))
        by (destruct (rest ++ more)%list; reflexivity).
      apply IH. exact Hr.
  - discriminate.
  - intros p c rest p1 r Hf Ht IH p' Hr.
    simpl app. simpl parse_ops_loop. rewrite Hf, Ht. simpl.
    apply IH. exact Hr.
Qed.

Lemma parse_value_error (lim : Z) (f text : string) :
  parse_value lim f text <> Err NoOperation.
Proof.
  unfold parse_value.
  destruct (parse_x32 text) as [|l rest|l]; [discriminate| |].
  - destruct rest as [|a m]; [destruct (out_of_range lim l); discriminate|].
    destruct (negb (Ascii.eqb a ":")); [discriminate|].
    destruct (out_of_range lim l); [discriminate|].
    destruct (parse_x32 m) as [| |mm]; try discriminate.
    destruct (out_of_range lim mm); discriminate.
  - destruct f as [|a m]; [destruct (out_of_range lim l); discriminate|].
    destruct (negb (Ascii.eqb a ":")); [discriminate|].
    destruct (out_of_range lim l); [discriminate|].
    destruct (parse_x32 m) as [| |mm]; try discriminate.
    destruct (out_of_range lim mm); discriminate.
Qed.

Lemma parse_values_error (n : nat) (lim : Z) :
  forall f cur, parse_values n lim f cur <> Err NoOperation.
Proof.
  induction n as [|n IH]; intros f cur; simpl; [discriminate|].
  destruct cur as [v|]; [|discriminate].
  destruct (split_at "," v) as [text e].
  pose proof (parse_value_error lim f text) as Hv.
  destruct (parse_value lim f text) as [[x f']|err]; simpl; [|congruence].
  specialize (IH f' e).
  destruct (parse_values n lim f' e) as [xs|err]; simpl; [discriminate | congruence].
Qed.

Lemma parse_op_error (c : string) (vec : vector) (f0 : string) (ops : list op) :
  parse_op c vec f0 ops <> Err NoOperation.
Proof.
  unfold parse_op.
  destruct (split_at "=" c) as [b0 value_text].
  destruct (split_at "." b0) as [b1 width_text].
  destruct (split_at "+" b1) as [base offset].
  destruct (count_values value_text) as [n|e] eqn:En; simpl.
  2: { unfold count_values in En. destruct value_text as [[|a v]|]; congruence. }
  destruct (width_suffix width_text) as [w|e] eqn:Ew; simpl.
  2: { unfold width_suffix in Ew.
       destruct width_text as [[|a [|b t]]|]; try congruence.
       destruct (Z.land (code a) 223) as [|q|q]; try congruence.
       repeat (destruct q as [q|q|]; try congruence). }
  destruct (parse_register _ base) as [o|e] eqn:Er; simpl.
  2: { unfold parse_register in Er.
       destruct (parse_x32 base); try discriminate;
         destruct (parse_reg_name base); try discriminate;
         (destruct (has_prefix_nocase "CAP" base);
          [destruct (parse_x32 (advance 3 base)) as [| |x]; try congruence;
           destruct (x <? 256); congruence
          |destruct (has_prefix_nocase "ECAP" base); try congruence;
           destruct (parse_x32 (advance 4 base)) as [| |x]; try congruence;
           destruct (x <? 4096); congruence]). }
  destruct (width o =? 0); [discriminate|].
  destruct (add_offset o offset) as [o'|e] eqn:Ea; simpl.
  2: { unfold add_offset in Ea. destruct offset as [t|]; try congruence.
       destruct (parse_x32 t) as [| |x]; try congruence.
       destruct (4096 <=? x); congruence. }
  destruct (check_range o' n) as [[]|e] eqn:Ec; simpl.
  2: { unfold check_range in Ec.
       destruct (_ || _); [congruence|]. destruct (negb _); congruence. }
  pose proof (parse_values_error n (limit (width o')) f0 value_text) as Hv.
  destruct (parse_values n _ f0 value_text) as [vs|e]; simpl; [discriminate | congruence].
Qed.

Lemma parse_ops_loop_end (args : list string) (p : parser) :
  match parse_ops_loop fl devices junk p args with
  | Ok p' => args = [] /\ p' = p \/ state p' <> STATE_INIT
  | Err e => e <> NoOperation
  end.
Proof.
  apply (parse_ops_loop_elim fl devices junk
           (fun p args r =>
              match r with
              | Ok p' => args = [] /\ p' = p \/ state p' <> STATE_INIT
              | Err e => e <> NoOperation
              end)); clear args p.
  - intros p. left. auto.
  - intros p c rest e _ Ht. unfold filter_token in Ht.
    destruct (parse_filter c (hd_error rest) _) as [[f t]|e'] eqn:E; simpl in Ht;
      [discriminate|]. inversion Ht; subst.
    unfold parse_filter in E.
    destruct c as [|a [|k tail]]; try congruence.
    destruct (negb _); [congruence|].
    destruct tail as [|x tail']; [destruct (hd_error rest); [|simpl in E; congruence]|];
      simpl in E; destruct (Ascii.eqb k "s");
      try (destruct (pci_filter_parse_slot _ _); congruence);
      try (destruct (pci_filter_parse_id _ _); congruence).
  - intros p c rest p1 took r _ Ht IH.
    destruct r as [p'|e]; [|exact IH]. right.
    destruct IH as [[_ ->] | IH]; [|exact IH].
    destruct (filter_token_state _ _ _ Ht) as (-> & _). discriminate.
  - intros p c rest e _ Ht. unfold op_token in Ht.
    destruct (state p); [congruence| |].
    + destruct (select_devices devices (heap p) (filter p)) as [b h].
      pose proof (parse_op_error c b (junk (List.length (first_op p))) (first_op p)).
      destruct (parse_op c b _ (first_op p)); simpl in Ht; congruence.
    + destruct (selected_devices p) as [vec|]; [|congruence].
      pose proof (parse_op_error c vec (junk (List.length (first_op p))) (first_op p)).
      destruct (parse_op c vec _ (first_op p)); simpl in Ht; congruence.
  - intros p c rest p1 r _ Ht IH.
    destruct r as [p'|e]; [|exact IH]. right.
    destruct IH as [[_ ->] | IH]; [|exact IH].
    destruct (op_token_ops _ _ _ _ _ Ht) as (-> & _). discriminate.
Qed.

Lemma op_token_heap (f0 : string) (p : parser) (c : string) (p' : parser) :
  op_token fl devices f0 p c = Ok p' ->
  exists o, first_op p' = (first_op p ++ [o])%list /\
    (heap p' = heap p \/ heap p' = (heap p ++ [dev_vector o])%list).
Proof.
  unfold op_token.
  destruct (state p); [discriminate| |].
  - unfold select_devices.
    destruct (parse_op c _ f0 (first_op p)) as [ops|] eqn:E; simpl; [|discriminate].
    intros H; inversion H; subst; simpl.
    destruct (parse_op_inversion _ _ _ _ E) as (o & -> & Hv & _).
    exists o. split; [reflexivity|]. right. now rewrite Hv.
  - destruct (selected_devices p) as [vec|]; [|discriminate].
    destruct (parse_op c vec f0 (first_op p)) as [ops|] eqn:E; simpl; [|discriminate].
    intros H; inversion H; subst; simpl.
    destruct (parse_op_inversion _ _ _ _ E) as (o & -> & _).
    exists o. split; [reflexivity | now left].
Qed.

(** Every array of the heap is the vector of an operation of the list. *)
Lemma parse_ops_loop_heap (args : list string) (p p' : parser) :
  vectors_in_use p ->
  parse_ops_loop fl devices junk p args = Ok p' ->
  vectors_in_use p'.
Proof.
  revert p'.
  apply (parse_ops_loop_elim fl devices junk
           (fun p args r => forall p',
              vectors_in_use p -> r = Ok p' -> vectors_in_use p')); clear args p.
  - intros p p' Hp H. inversion H; subst. exact Hp.
  - discriminate.
  - intros p c rest p1 took r _ Ht IH p' Hp Hr. apply IH; [|exact Hr].
    destruct (filter_token_state _ _ _ Ht) as (_ & Ho & Hh & _).
    unfold vectors_in_use. rewrite Ho, Hh. exact Hp.
  - discriminate.
  - intros p c rest p1 r _ Ht IH p' Hp Hr. apply IH; [|exact Hr].
    destruct (op_token_heap _ _ _ Ht) as (o & Ho & Hh).
    unfold vectors_in_use in *. rewrite Ho. intros v Hv.
    destruct Hh as [Hh | Hh]; rewrite Hh in Hv.
    + destruct (Hp v Hv) as (o' & Hin & Heq). exists o'.
      split; [apply in_or_app; now left | exact Heq].
    + apply in_app_or in Hv. destruct Hv as [Hv | [<- | []]].
      * destruct (Hp v Hv) as (o' & Hin & Heq). exists o'.
        split; [apply in_or_app; now left | exact Heq].
      * exists o. split; [apply in_or_app; right; now left | reflexivity].
Qed.

(** C10. A command line that ends in the state GOT_FILTER parses: [parse_ops]
    returns, and every device vector that exists belongs to an operation, so
    that none was built for the filter at the end.  A filter (the token and,
    when it takes one, its argument) after the last operation leaves the
    vectors, the operations and the warnings as they were.  The end of the
    arguments is the error "No operation specified" for the empty list of
    arguments only. *)
Theorem trailing_filter :
  (forall args p,
     parse_ops_loop fl devices junk parser_init args = Ok p ->
     state p = STATE_GOT_FILTER ->
     parse_ops fl devices junk args = Ok p /\ vectors_in_use p) /\
  (forall args p c tail p' took,
     parse_ops_loop fl devices junk parser_init args = Ok p ->
     state p = STATE_GOT_OP ->
     is_filter_token c = true ->
     filter_token p c (hd_error tail) = Ok (p', took) ->
     after_filter took tail = [] ->
     parse_ops fl devices junk (args ++ c :: tail) = Ok p' /\
     state p' = STATE_GOT_FILTER /\
     heap p' = heap p /\ first_op p' = first_op p /\ warnings p' = warnings p) /\
  (forall args, parse_ops fl devices junk args = Err NoOperation <-> args = []).
Proof.
  split; [|split].
  - intros args p Hargs Hst. split.
    + unfold parse_ops. rewrite Hargs. simpl. rewrite Hst. reflexivity.
    + eapply parse_ops_loop_heap; [|exact Hargs]. intros v [].
  - intros args p c tail p' took Hargs Hst Hf Ht Hend.
    destruct (filter_token_state _ _ _ Ht) as (Hs & Ho & Hh & Hw & _).
    repeat split; auto.
    unfold parse_ops. rewrite (parse_ops_loop_app _ (c :: tail) _ Hargs).
    simpl parse_ops_loop. rewrite Hf, Ht. simpl.
    replace (match took with
             | true => match tail with
                       | [] => parse_ops_loop fl devices junk p' tail
                       | _ :: rest' => parse_ops_loop fl devices junk p' rest'
                       end
             | false => parse_ops_loop fl devices junk p' tail
             end) with (parse_ops_loop fl devices junk p' (after_filter took tail))
      by (unfold after_filter; destruct took; destruct tail; reflexivity).
    rewrite Hend. simpl. rewrite Hs. reflexivity.
  - intros args'. split.
    + unfold parse_ops. pose proof (parse_ops_loop_end args' parser_init) as He.
      destruct (parse_ops_loop fl devices junk parser_init args') as [p0|e]; simpl.
      * destruct He as [[-> _] | He]; [reflexivity|].
        destruct (state p0); [contradiction | discriminate | discriminate].
      * intros H; inversion H; subst. contradiction.
    + intros ->. reflexivity.
Qed.

End TrailingFilter.

Section DefinedRun.

Context {P : Platform} {L : PciLib}.

Lemma split_at_count (c : ascii) (v : string) :
  count_char c v
  = match snd (split_at c v) with
    | None => O
    | Some r => S (count_char c r)
    end.
Proof.
  induction v as [|a v IH]; [reflexivity|]. simpl.
  destruct (Ascii.eqb a c); [reflexivity|].
  destruct (split_at c v) as [h t]. simpl in *. exact IH.
Qed.

Lemma parse_value_defined (lim : Z) (f text : string) :
  parse_value lim f text <> Err Undefined.
Proof.
  unfold parse_value.
  destruct (parse_x32 text) as [|l rest|l]; [discriminate| |].
  - destruct rest as [|a m]; [destruct (out_of_range lim l); discriminate|].
    destruct (negb (Ascii.eqb a ":")); [discriminate|].
    destruct (out_of_range lim l); [discriminate|].
    destruct (parse_x32 m) as [| |mm]; try discriminate.
    destruct (out_of_range lim mm); discriminate.
  - destruct f as [|a m]; [destruct (out_of_range lim l); discriminate|].
    destruct (negb (Ascii.eqb a ":")); [discriminate|].
    destruct (out_of_range lim l); [discriminate|].
    destruct (parse_x32 m) as [| |mm]; try discriminate.
    destruct (out_of_range lim mm); discriminate.
Qed.

(** The loop over the values ends at the last comma: [value] is never NULL
    where it is read. *)
Lemma parse_values_defined (lim : Z) (n : nat) :
  forall f v, n = S (count_char "," v) ->
              parse_values n lim f (Some v) <> Err Undefined.
Proof.
  induction n as [|n IH]; intros f v Hn; [discriminate|].
  simpl. rewrite (split_at_count "," v) in Hn.
  destruct (split_at "," v) as [text e]. simpl in Hn.
  pose proof (parse_value_defined lim f text) as Hv.
  destruct (parse_value lim f text) as [[x f']|err]; simpl; [|congruence].
  destruct e as [r|].
  - specialize (IH f' r ltac:(lia)).
    destruct (parse_values n lim f' (Some r)) as [xs|err]; simpl;
      [discriminate | congruence].
  - assert (n = O) by lia. subst n. simpl. discriminate.
Qed.

Lemma parse_op_defined (c : string) (vec : vector) (f0 : string) (ops : list op) :
  parse_op c vec f0 ops <> Err Undefined.
Proof.
  unfold parse_op.
  destruct (split_at "=" c) as [b0 value_text].
  destruct (split_at "." b0) as [b1 width_text].
  destruct (split_at "+" b1) as [base offset].
  destruct (count_values value_text) as [n|e] eqn:En; simpl.
  2: { unfold count_values in En. destruct value_text as [[|a v]|]; congruence. }
  destruct (width_suffix width_text) as [w|e] eqn:Ew; simpl.
  2: { unfold width_suffix in Ew.
       destruct width_text as [[|a [|b t]]|]; try congruence.
       destruct (Z.land (code a) 223) as [|q|q]; try congruence.
       repeat (destruct q as [q|q|]; try congruence). }
  destruct (parse_register _ base) as [o|e] eqn:Er; simpl.
  2: { unfold parse_register in Er.
       destruct (parse_x32 base); try discriminate;
         destruct (parse_reg_name base); try discriminate;
         (destruct (has_prefix_nocase "CAP" base);
          [destruct (parse_x32 (advance 3 base)) as [| |x]; try congruence;
           destruct (x <? 256); congruence
          |destruct (has_prefix_nocase "ECAP" base); try congruence;
           destruct (parse_x32 (advance 4 base)) as [| |x]; try congruence;
           destruct (x <? 4096); congruence]). }
  destruct (width o =? 0); [discriminate|].
  destruct (add_offset o offset) as [o'|e] eqn:Ea; simpl.
  2: { unfold add_offset in Ea. destruct offset as [t|]; try congruence.
       destruct (parse_x32 t) as [| |x]; try congruence.
       destruct (4096 <=? x); congruence. }
  destruct (check_range o' n) as [[]|e] eqn:Ec; simpl.
  2: { unfold check_range in Ec.
       destruct (_ || _); [congruence|]. destruct (negb _); congruence. }
  apply count_values_Some in En.
  destruct value_text as [v|].
  - pose proof (parse_values_defined (limit (width o')) f0 v En) as Hv.
    destruct (parse_values n _ f0 (Some v)) as [vs|e]; simpl; [discriminate | congruence].
  - subst n. simpl. discriminate.
Qed.

Lemma parse_filter_defined (c : string) (next : option string) (filt : pci_filter) :
  parse_filter c next filt <> Err Undefined.
Proof.
  unfold parse_filter.
  destruct c as [|a [|k tail]]; try discriminate.
  destruct (negb _); [discriminate|].
  destruct tail as [|x tail']; [destruct next; [|discriminate]|];
    simpl; destruct (Ascii.eqb k "s");
    try (destruct (pci_filter_parse_slot _ _); discriminate);
    try (destruct (pci_filter_parse_id _ _); discriminate).
Qed.

(** Where [parse_ops] is in the state GOT_OP, [selected_devices] is not
    NULL; so no token leaves the behaviour that C defines. *)
Lemma parse_ops_loop_defined (fl : flags) (devices : list pci_dev)
    (junk : nat -> string) (args : list string) (p : parser) :
  (state p = STATE_GOT_OP -> selected_devices p <> None) ->
  parse_ops_loop fl devices junk p args <> Err Undefined.
Proof.
  apply (parse_ops_loop_elim fl devices junk
           (fun p args r =>
              (state p = STATE_GOT_OP -> selected_devices p <> None) ->
              r <> Err Undefined)); clear args p.
  - discriminate.
  - intros p c rest e _ Ht _. unfold filter_token in Ht.
    pose proof (parse_filter_defined c (hd_error rest)
                  match state p with
                  | STATE_GOT_FILTER => filter p
                  | _ => pci_filter_init
                  end) as Hd.
    destruct (parse_filter c (hd_error rest) _) as [[f t]|e']; simpl in Ht; congruence.
  - intros p c rest p1 took r _ Ht IH _. apply IH.
    destruct (filter_token_state _ _ _ Ht) as (-> & _). discriminate.
  - intros p c rest e _ Ht Hinv. unfold op_token in Ht.
    destruct (state p); [congruence| |].
    + destruct (select_devices devices (heap p) (filter p)) as [b h].
      pose proof (parse_op_defined c b (junk (List.length (first_op p))) (first_op p)).
      destruct (parse_op c b _ (first_op p)); simpl in Ht; congruence.
    + destruct (selected_devices p) as [vec|]; [|exfalso; now apply Hinv].
      pose proof (parse_op_defined c vec (junk (List.length (first_op p))) (first_op p)).
      destruct (parse_op c vec _ (first_op p)); simpl in Ht; congruence.
  - intros p c rest p1 r _ Ht IH _. apply IH.
    destruct (op_token_ops _ _ _ _ _ Ht) as (_ & vec & -> & _). discriminate.
Qed.

Lemma parse_option_chars_defined (c : string) :
  forall at_start next fl, parse_option_chars at_start c next fl <> Err Undefined.
Proof.
  induction c as [|a c IH]; intros at_start next fl; simpl; [discriminate|].
  destruct (Ascii.eqb a "v"); [apply IH|].
  destruct (Ascii.eqb a "f"); [apply IH|].
  destruct (Ascii.eqb a "D"); [apply IH|].
  destruct (find_option GENERIC_OPTIONS a) as [[|x r]|].
  - destruct (parse_generic_option a None); [apply IH | discriminate].
  - destruct x as [[] [] [] [] [] [] [] []];
      try (destruct (parse_generic_option a None); [apply IH | discriminate]).
    destruct c as [|b c']; [destruct next as [arg|]|];
      try destruct (parse_generic_option a _); discriminate.
  - destruct at_start; discriminate.
Qed.

Lemma parse_options_loop_defined (args : list string) :
  forall fl, parse_options_loop fl args <> Err Undefined.
Proof.
  remember (List.length args) as n eqn:Hn. revert args Hn.
  induction n as [n IH] using lt_wf_ind. intros args Hn fl.
  destruct args as [|tok rest]; [discriminate|]. simpl.
  destruct tok as [|a c]; [discriminate|].
  destruct a as [[] [] [] [] [] [] [] []]; try discriminate.
  pose proof (parse_option_chars_defined c true (hd_error rest) fl) as Hc.
  destruct (parse_option_chars true c (hd_error rest) fl) as [[fl' took|]|e]; simpl;
    [|discriminate|congruence].
  destruct took; destruct rest as [|x rest'];
    (eapply IH; [|reflexivity]; subst n; simpl; lia).
Qed.

(** No run ends in [Undefined]: no NULL pointer is used and no table is read
    outside its entries.  The read of the pointer [f] of [parse_op] before
    it is set is not covered: there the result is the one that the text
    [junk] gives, for every such text. *)
Lemma main_defined (junk : nat -> string) (devices : list pci_dev) (args : list string) :
  defined (main junk devices args).
Proof.
  intros s. unfold main.
  assert (Ho : parse_options args <> Err Undefined).
  { unfold parse_options. destruct args as [|only [|x rest]];
      try apply parse_options_loop_defined.
    destruct (String.eqb only "--version"); [discriminate|].
    apply parse_options_loop_defined. }
  destruct (parse_options args) as [[fl rest]|e]; simpl; [|congruence].
  unfold parse_ops.
  pose proof (@parse_ops_loop_defined fl devices junk rest parser_init
                ltac:(discriminate)) as Hl.
  destruct (parse_ops_loop fl devices junk parser_init rest) as [p|e] eqn:E; simpl;
    [|congruence].
  destruct (state p); simpl; try discriminate.
  all: apply defined_execute; eapply parse_ops_loop_widths; eauto; constructor.
Qed.

End DefinedRun.

(** ** The options *)

Section Options.

Context {L : PciLib}.

Lemma parse_option_chars_flags (c : string) :
  forall at_start next fl,
  flag_letters c = true ->
  parse_option_chars at_start c next fl = Ok (OptionsDone (count_flags fl c) false).
Proof.
  induction c as [|a c IH]; intros at_start next fl Hc.
  - simpl. unfold count_flags. simpl. rewrite !Z.add_0_r. now destruct fl.
  - simpl in Hc. apply andb_prop in Hc. destruct Hc as [Ha Hc].
    unfold is_flag in Ha. simpl parse_option_chars.
    destruct (Ascii.eqb a "v") eqn:Ev.
    { apply Ascii.eqb_eq in Ev. subst a. rewrite (IH _ _ _ Hc).
      unfold count_flags. simpl. do 2 f_equal. f_equal; lia. }
    destruct (Ascii.eqb a "f") eqn:Ef.
    { apply Ascii.eqb_eq in Ef. subst a. rewrite (IH _ _ _ Hc).
      unfold count_flags. simpl. do 2 f_equal. f_equal; lia. }
    destruct (Ascii.eqb a "D") eqn:Ed; [|discriminate].
    apply Ascii.eqb_eq in Ed. subst a. rewrite (IH _ _ _ Hc).
    unfold count_flags. simpl. do 2 f_equal. f_equal; lia.
Qed.

(** A token starts with [-]. *)
Lemma is_filter_token_dash (t : string) :
  is_filter_token t = true <-> exists c, t = String "-" c.
Proof.
  destruct t as [|a c]; simpl.
  - split; [discriminate | intros [c H]; discriminate].
  - rewrite Ascii.eqb_eq. split; [intros ->; eauto | intros [c' H]; now inversion H].
Qed.

Lemma parse_options_loop_stop (fl : flags) (t : string) (rest : list string) :
  is_filter_token t = false -> parse_options_loop fl (t :: rest) = Ok (fl, t :: rest).
Proof.
  intros Ht. destruct t as [|a c]; [reflexivity|]. simpl in Ht.
  simpl. destruct a as [[] [] [] [] [] [] [] []]; try reflexivity. discriminate.
Qed.

Lemma parse_options_loop_dash (fl : flags) (c : string) (rest : list string) :
  parse_options_loop fl (String "-" c :: rest)
  = (r <- parse_option_chars true c (hd_error rest) fl ;;
     match r with
     | NotAnOption => Ok (fl, String "-" c :: rest)
     | OptionsDone fl' took =>
         match took, rest with
         | true, _ :: rest' => parse_options_loop fl' rest'
         | _, _ => parse_options_loop fl' rest
         end
     end)%result.
Proof. reflexivity. Qed.

Lemma parse_options_loop_flags (toks rest : list string) :
  Forall flag_token toks ->
  match rest with
  | [] => True
  | t :: _ => is_filter_token t = false
  end ->
  forall fl, parse_options_loop fl (toks ++ rest) = Ok (fold_left count_flags toks fl, rest).
Proof.
  intros Htoks Hrest. induction Htoks as [|t toks (c & -> & Hc) _ IH]; intros fl.
  - simpl. destruct rest as [|t rest]; [reflexivity|].
    now apply parse_options_loop_stop.
  - rewrite <- app_comm_cons, parse_options_loop_dash.
    rewrite (parse_option_chars_flags _ _ _ _ Hc). simpl bind. cbv beta iota.
    rewrite IH. simpl fold_left. do 2 f_equal.
Qed.

(** X2. [parse_options] on tokens that hold flags only ([-], then any
    number of [v], [f] and [D], none included), followed by nothing or by a
    token that does not start with [-]: every [v] adds one to [verbose],
    every [f] to [force] and every [D] to [demo_mode], however the letters
    are grouped into tokens, and the tokens after the flags are returned
    untouched. *)
Theorem flags_counted (toks rest : list string) :
  Forall flag_token toks ->
  match rest with
  | [] => True
  | t :: _ => is_filter_token t = false
  end ->
  (forall fl,
     parse_options_loop fl (toks ++ rest) = Ok (fold_left count_flags toks fl, rest)) /\
  parse_options (toks ++ rest) = Ok (fold_left count_flags toks no_flags, rest).
Proof.
  intros Htoks Hrest. split; [now apply parse_options_loop_flags|].
  unfold parse_options.
  destruct (toks ++ rest)%list as [|only [|x more]] eqn:E;
    try (rewrite <- E; now apply parse_options_loop_flags).
  destruct (String.eqb only "--version") eqn:Ev;
    [|rewrite <- E; now apply parse_options_loop_flags].
  apply String.eqb_eq in Ev. subst only. exfalso.
  destruct toks as [|t toks].
  - simpl in E. subst rest. discriminate Hrest.
  - inversion E; subst. inversion Htoks as [|? ? (c & Hc & Hl) _]; subst.
    inversion Hc; subst. discriminate Hl.
Qed.

Lemma parse_option_chars_errors (c : string) :
  forall at_start next fl e,
  parse_option_chars at_start c next fl = Err e -> e = UsageNoMessage.
Proof.
  induction c as [|a c IH]; intros at_start next fl e; simpl; [discriminate|].
  destruct (Ascii.eqb a "v"); [apply IH|].
  destruct (Ascii.eqb a "f"); [apply IH|].
  destruct (Ascii.eqb a "D"); [apply IH|].
  destruct (find_option GENERIC_OPTIONS a) as [[|x r]|].
  - destruct (parse_generic_option a None); [apply IH | congruence].
  - destruct x as [[] [] [] [] [] [] [] []];
      try (destruct (parse_generic_option a None); [apply IH | congruence]).
    destruct c as [|b c']; [destruct next as [arg|]|];
      try destruct (parse_generic_option a _); congruence.
  - destruct at_start; congruence.
Qed.

(** Induction along the loop of [parse_options]. *)
Lemma parse_options_loop_elim (R : flags -> list string -> result (flags * list string) -> Prop) :
  (forall fl, R fl [] (Ok (fl, []))) ->
  (forall fl t rest, is_filter_token t = false -> R fl (t :: rest) (Ok (fl, t :: rest))) ->
  (forall fl c rest e,
     parse_option_chars true c (hd_error rest) fl = Err e ->
     R fl (String "-" c :: rest) (Err e)) ->
  (forall fl c rest,
     parse_option_chars true c (hd_error rest) fl = Ok NotAnOption ->
     R fl (String "-" c :: rest) (Ok (fl, String "-" c :: rest))) ->
  (forall fl c rest fl' took r,
     parse_option_chars true c (hd_error rest) fl = Ok (OptionsDone fl' took) ->
     R fl' (after_filter took rest) r -> R fl (String "-" c :: rest) r) ->
  forall args fl, R fl args (parse_options_loop fl args).
Proof.
  intros Hnil Hstop Herr Hnot Hdone args.
  remember (List.length args) as n eqn:Hn. revert args Hn.
  induction n as [n IH] using lt_wf_ind. intros args Hn fl.
  destruct args as [|t rest]; [apply Hnil|].
  destruct (is_filter_token t) eqn:Et.
  - apply is_filter_token_dash in Et. destruct Et as [c ->].
    rewrite parse_options_loop_dash.
    destruct (parse_option_chars true c (hd_error rest) fl) as [[fl' took|]|e] eqn:Ec;
      simpl bind; cbv beta iota.
    + eapply Hdone; [exact Ec|].
      assert (Hr : R fl' (after_filter took rest)
                     (parse_options_loop fl' (after_filter took rest))).
      { eapply IH; [|reflexivity]. subst n. unfold after_filter.
        destruct took; destruct rest; simpl; lia. }
      unfold after_filter in *. destruct took; destruct rest; exact Hr.
    + now apply Hnot.
    + now apply Herr.
  - rewrite (@parse_options_loop_stop fl t rest Et). now apply Hstop.
Qed.

Lemma parse_options_loop_errors (args : list string) (fl : flags) (e : error) :
  parse_options_loop fl args = Err e -> e = UsageNoMessage.
Proof.
  revert e.
  apply (parse_options_loop_elim
           (fun fl args r => forall e, r = Err e -> e = UsageNoMessage)).
  - discriminate.
  - discriminate.
  - intros fl0 c rest e He e' H. inversion H; subst.
    eapply parse_option_chars_errors; eauto.
  - discriminate.
  - intros fl0 c rest fl' took r _ IH. exact IH.
Qed.

(** X1. [parse_options] prints the version and exits with status 0 for one
    command line only: the single argument [--version].  Every other way
    in which it ends the run is [usage(NULL)]. *)
Theorem version_alone (args : list string) :
  (parse_options args = Err PrintVersion <-> args = ["--version"]) /\
  (forall e, parse_options args = Err e -> e = PrintVersion \/ e = UsageNoMessage).
Proof.
  assert (Hloop : forall e,
            parse_options_loop no_flags args = Err e -> e = UsageNoMessage)
    by (intros e; apply parse_options_loop_errors).
  unfold parse_options. fold no_flags.
  destruct args as [|only [|x more]].
  - split; [split; discriminate | intros e H; right; now apply Hloop].
  - destruct (String.eqb only "--version") eqn:Ev.
    + apply String.eqb_eq in Ev. subst only.
      split; [split; reflexivity | intros e H; left; congruence].
    + apply String.eqb_neq in Ev. split.
      * split; [intros H; apply Hloop in H; discriminate | congruence].
      * intros e H; right; now apply Hloop.
  - split; [split; [intros H; apply Hloop in H; discriminate | discriminate]
           |intros e H; right; now apply Hloop].
Qed.

Lemma parse_option_chars_grow (c : string) :
  forall at_start next fl fl' took,
  parse_option_chars at_start c next fl = Ok (OptionsDone fl' took) ->
  force fl <= force fl' /\ verbose fl <= verbose fl' /\ demo_mode fl <= demo_mode fl'.
Proof.
  induction c as [|a c IH]; intros at_start next fl fl' took; simpl.
  - intros H; inversion H; subst. lia.
  - destruct (Ascii.eqb a "v"); [intros H; apply IH in H; simpl in H; lia|].
    destruct (Ascii.eqb a "f"); [intros H; apply IH in H; simpl in H; lia|].
    destruct (Ascii.eqb a "D"); [intros H; apply IH in H; simpl in H; lia|].
    destruct (find_option GENERIC_OPTIONS a) as [[|x r]|].
    + destruct (parse_generic_option a None); [apply IH | discriminate].
    + destruct x as [[] [] [] [] [] [] [] []];
        try (destruct (parse_generic_option a None); [apply IH | discriminate]).
      destruct c as [|b c']; [destruct next as [arg|]|];
        try destruct (parse_generic_option a _); try discriminate;
        intros H; inversion H; subst; lia.
    + destruct at_start; discriminate.
Qed.

(** [return i-1]: the character at the start of the token is no flag and
    no option of the library. *)
Lemma parse_option_chars_not (c : string) (next : option string) (fl : flags) :
  parse_option_chars true c next fl = Ok NotAnOption ->
  exists a c', c = String a c' /\ is_flag a = false /\
               find_option GENERIC_OPTIONS a = None.
Proof.
  assert (Hfalse : forall c next fl,
            parse_option_chars false c next fl <> Ok NotAnOption).
  { clear. intros c. induction c as [|a c IH]; intros next fl; simpl; [discriminate|].
    destruct (Ascii.eqb a "v"); [apply IH|].
    destruct (Ascii.eqb a "f"); [apply IH|].
    destruct (Ascii.eqb a "D"); [apply IH|].
    destruct (find_option GENERIC_OPTIONS a) as [[|x r]|]; [| |discriminate].
    - destruct (parse_generic_option a None); [apply IH | discriminate].
    - destruct x as [[] [] [] [] [] [] [] []];
        try (destruct (parse_generic_option a None); [apply IH | discriminate]).
      destruct c as [|b c']; [destruct next as [arg|]|];
        try destruct (parse_generic_option a _); discriminate. }
  destruct c as [|a c]; simpl; [discriminate|]. unfold is_flag.
  destruct (Ascii.eqb a "v") eqn:Ev; [intros H; now apply Hfalse in H|].
  destruct (Ascii.eqb a "f") eqn:Ef; [intros H; now apply Hfalse in H|].
  destruct (Ascii.eqb a "D") eqn:Ed; [intros H; now apply Hfalse in H|].
  destruct (find_option GENERIC_OPTIONS a) as [[|x r]|] eqn:Eo.
  - destruct (parse_generic_option a None);
      [intros H; now apply Hfalse in H | discriminate].
  - destruct x as [[] [] [] [] [] [] [] []];
      try (destruct (parse_generic_option a None);
           [intros H; now apply Hfalse in H | discriminate]).
    destruct c as [|b c']; [destruct next as [arg|]|];
      try destruct (parse_generic_option a _); discriminate.
  - intros _. exists a, c. rewrite Ev, Ef, Ed. auto.
Qed.

(** X3. Where the options end.  When [parse_options] returns, the tokens it
    leaves for [parse_ops] are a suffix of the command line, and the flags
    have only grown.  The suffix is empty, or starts with a token that does
    not start with [-], or starts with a token whose first character after
    the [-] is neither [v], [f], [D] nor an option of the library (the
    [return i-1] of the source): the token [-] alone is never where the
    options end. *)
Theorem options_end (fl fl' : flags) (args rest : list string) :
  parse_options_loop fl args = Ok (fl', rest) ->
  (exists used, args = (used ++ rest)%list) /\
  (force fl <= force fl' /\ verbose fl <= verbose fl' /\ demo_mode fl <= demo_mode fl') /\
  match rest with
  | [] => True
  | t :: _ =>
      is_filter_token t = false \/
      exists a c, t = String "-" (String a c) /\ is_flag a = false /\
                  find_option GENERIC_OPTIONS a = None
  end.
Proof.
  revert fl' rest.
  apply (parse_options_loop_elim
           (fun fl args r => forall fl' rest,
              r = Ok (fl', rest) ->
              (exists used, args = (used ++ rest)%list) /\
              (force fl <= force fl' /\ verbose fl <= verbose fl' /\
               demo_mode fl <= demo_mode fl') /\
              match rest with
              | [] => True
              | t :: _ =>
                  is_filter_token t = false \/
                  exists a c, t = String "-" (String a c) /\ is_flag a = false /\
                              find_option GENERIC_OPTIONS a = None
              end)).
  - intros fl0 fl' rest H. inversion H; subst.
    split; [exists []; reflexivity|]. split; [lia | exact I].
  - intros fl0 t rest0 Ht fl' rest H. inversion H; subst.
    split; [exists []; reflexivity|]. split; [lia | now left].
  - discriminate.
  - intros fl0 c rest0 Hc fl' rest H. inversion H; subst.
    split; [exists []; reflexivity|]. split; [lia|]. right.
    destruct (parse_option_chars_not _ _ _ Hc) as (a & c' & -> & Ha & Hf).
    exists a, c'. auto.
  - intros fl0 c rest0 fl1 took r Hc IH fl' rest Hr.
    destruct (IH _ _ Hr) as ((used & Hu) & Hg & Hh).
    pose proof (parse_option_chars_grow _ _ _ _ Hc) as Hg1.
    split; [|split; [lia | exact Hh]].
    unfold after_filter in Hu. destruct took; [destruct rest0 as [|x rest0]|].
    + exists (String "-" c :: used). now rewrite Hu.
    + exists (String "-" c :: x :: used). now rewrite Hu.
    + exists (String "-" c :: used). now rewrite Hu.
Qed.

Lemma parse_option_chars_inside (p : string) (a : ascii) (c : string) :
  flag_letters p = true -> is_flag a = false -> find_option GENERIC_OPTIONS a = None ->
  forall at_start next fl,
  parse_option_chars at_start (p ++ String a c) next fl
  = match p with
    | EmptyString => if at_start then Ok NotAnOption else Err UsageNoMessage
    | _ => Err UsageNoMessage
    end.
Proof.
  intros Hp Ha Hf. unfold is_flag in Ha.
  apply orb_false_iff in Ha. destruct Ha as [Ha Hd].
  apply orb_false_iff in Ha. destruct Ha as [Hv Hff].
  induction p as [|b p IH]; intros at_start next fl.
  - simpl. rewrite Hv, Hff, Hd, Hf. reflexivity.
  - simpl in Hp. apply andb_prop in Hp. destruct Hp as [Hb Hp].
    specialize (IH Hp). simpl append. simpl parse_option_chars.
    assert (Hrec : forall fl0, parse_option_chars false (p ++ String a c) next fl0
                               = Err UsageNoMessage).
    { intros fl0. rewrite IH. now destruct p. }
    unfold is_flag in Hb.
    destruct (Ascii.eqb b "v"); [apply Hrec|].
    destruct (Ascii.eqb b "f"); [apply Hrec|].
    destruct (Ascii.eqb b "D"); [apply Hrec | discriminate].
Qed.

(** X4. A character that is neither a flag nor an option of the library
    ends the options only at the start of its token: the token is then left,
    whole, for [parse_ops].  After one flag or more in the same token it is
    [usage(NULL)]: [-v -s ...] is a flag and a filter, [-vs ...] is an
    error. *)
Theorem option_cluster (fl : flags) (p : string) (a : ascii) (c : string)
    (rest : list string) :
  flag_letters p = true -> is_flag a = false -> find_option GENERIC_OPTIONS a = None ->
  parse_options_loop fl (String "-" (p ++ String a c) :: rest)
  = match p with
    | EmptyString => Ok (fl, String "-" (String a c) :: rest)
    | _ => Err UsageNoMessage
    end.
Proof.
  intros Hp Ha Hf. rewrite parse_options_loop_dash.
  rewrite (@parse_option_chars_inside p a c Hp Ha Hf). now destruct p.
Qed.

End Options.

(** ** The filter tokens *)

Section Filters.

Context {P : Platform} {L : PciLib}.

(** The three places of the argument of a filter. *)
Lemma parse_filter_spellings (dash k : ascii) (arg : string) (next : option string)
    (f : pci_filter) :
  k = "s"%char \/ k = "d"%char ->
  (arg <> EmptyString -> (forall r, arg <> String "=" r) ->
     parse_filter (String dash (String k arg)) next f = filter_call k f arg false) /\
  parse_filter (String dash (String k (String "=" arg))) next f
    = filter_call k f arg false /\
  parse_filter (String dash (String k EmptyString)) (Some arg) f
    = filter_call k f arg true /\
  parse_filter (String dash (String k EmptyString)) None f = Err UsageNoMessage.
Proof.
  intros Hk.
  assert (Hgo : forall d took,
            (if Ascii.eqb k "s"
             then match pci_filter_parse_slot f d with
                  | inl msg => Err (FilterError "s" msg)
                  | inr filter' => Ok (filter', took)
                  end
             else match pci_filter_parse_id f d with
                  | inl msg => Err (FilterError "d" msg)
                  | inr filter' => Ok (filter', took)
                  end) = filter_call k f d took).
  { intros d took. unfold filter_call.
    destruct Hk as [-> | ->]; simpl; reflexivity. }
  assert (Hsd : negb (Ascii.eqb k "s" || Ascii.eqb k "d") = false)
    by (destruct Hk as [-> | ->]; reflexivity).
  split; [|split; [|split]].
  - intros Hne Heq. destruct arg as [|e tail]; [contradiction|].
    unfold parse_filter. rewrite Hsd.
    destruct (Ascii.eqb e "=") eqn:Ee.
    { apply Ascii.eqb_eq in Ee. subst e. exfalso. now apply (Heq tail). }
    simpl bind. cbv beta iota. apply Hgo.
  - unfold parse_filter. rewrite Hsd. simpl bind. cbv beta iota. apply Hgo.
  - unfold parse_filter. rewrite Hsd. simpl bind. cbv beta iota. apply Hgo.
  - unfold parse_filter. rewrite Hsd. reflexivity.
Qed.

(** The loop of [parse_ops] goes on in the same way after a filter token
    with its argument [arg] attached as after the bare letter and [arg]. *)
Lemma parse_ops_loop_filter (fl : flags) (devices : list pci_dev) (junk : nat -> string)
    (p : parser) (c : string) (k : ascii) (arg : string) (rest : list string) :
  is_filter_token c = true ->
  (forall f, parse_filter c (hd_error rest) f = filter_call k f arg false) ->
  (forall f, parse_filter (String "-" (String k EmptyString)) (Some arg) f
             = filter_call k f arg true) ->
  parse_ops_loop fl devices junk p (c :: rest)
  = parse_ops_loop fl devices junk p (String "-" (String k EmptyString) :: arg :: rest).
Proof.
  intros Hc Hf Hs.
  change (parse_ops_loop fl devices junk p
            (String "-" (String k EmptyString) :: arg :: rest))
    with (' (p', took) <- filter_token p (String "-" (String k EmptyString)) (Some arg) ;;
          match took, (arg :: rest)%list with
          | true, _ :: rest' => parse_ops_loop fl devices junk p' rest'
          | _, _ => parse_ops_loop fl devices junk p' (arg :: rest)
          end)%result.
  simpl parse_ops_loop. rewrite Hc. unfold filter_token. rewrite Hf, Hs.
  unfold filter_call.
  destruct (if Ascii.eqb k "s" then _ else _) as [msg|f']; reflexivity.
Qed.

(** X5. The spellings of a filter.  For the letter [s] or [d] the argument
    may be attached to the letter ([-sARG], when [ARG] is not empty and does
    not start with [=]), attached after one [=] ([-s=ARG], where [ARG] may
    be empty), or be the next token, whatever that token is ([-s ARG]); the
    library is called with the same filter and the same text in the three
    cases, only the last one takes the next token, and [parse_ops] goes on
    in the same way after each of them.  A bare letter at the end of the
    command line, a token of fewer than two characters and any other letter
    are [usage(NULL)]; the first character of the token is not looked at. *)
Theorem filter_spellings (dash k : ascii) (arg : string) (next : option string)
    (f : pci_filter) :
  (k = "s"%char \/ k = "d"%char ->
     (arg <> EmptyString -> (forall r, arg <> String "=" r) ->
        parse_filter (String dash (String k arg)) next f = filter_call k f arg false) /\
     parse_filter (String dash (String k (String "=" arg))) next f
       = filter_call k f arg false /\
     parse_filter (String dash (String k EmptyString)) (Some arg) f
       = filter_call k f arg true /\
     parse_filter (String dash (String k EmptyString)) None f = Err UsageNoMessage /\
     (forall fl devices junk p rest,
        (arg <> EmptyString -> (forall r, arg <> String "=" r) ->
           parse_ops_loop fl devices junk p (String "-" (String k arg) :: rest)
           = parse_ops_loop fl devices junk p
               (String "-" (String k EmptyString) :: arg :: rest)) /\
        parse_ops_loop fl devices junk p (String "-" (String k (String "=" arg)) :: rest)
        = parse_ops_loop fl devices junk p
            (String "-" (String k EmptyString) :: arg :: rest))) /\
  (k <> "s"%char -> k <> "d"%char ->
     parse_filter (String dash (String k arg)) next f = Err UsageNoMessage) /\
  parse_filter (String dash EmptyString) next f = Err UsageNoMessage /\
  parse_filter EmptyString next f = Err UsageNoMessage.
Proof.
  split; [|split; [|split; reflexivity]].
  - intros Hk.
    destruct (@parse_filter_spellings dash k arg next f Hk) as (H1 & H2 & H3 & H4).
    split; [exact H1|]. split; [exact H2|]. split; [exact H3|]. split; [exact H4|].
    intros fl devices junk p rest. split.
    + intros Hne Heq. apply parse_ops_loop_filter; [reflexivity| |].
      * intros f0.
        now apply (proj1 (@parse_filter_spellings "-" k arg (hd_error rest) f0 Hk)).
      * intros f0.
        apply (proj1 (proj2 (proj2
                 (@parse_filter_spellings "-" k arg (Some arg) f0 Hk)))).
    + apply parse_ops_loop_filter; [reflexivity| |].
      * intros f0.
        apply (proj1 (proj2 (@parse_filter_spellings "-" k arg (hd_error rest) f0 Hk))).
      * intros f0.
        apply (proj1 (proj2 (proj2
                 (@parse_filter_spellings "-" k arg (Some arg) f0 Hk)))).
  - intros Hs Hd. unfold parse_filter.
    apply Ascii.eqb_neq in Hs. apply Ascii.eqb_neq in Hd. rewrite Hs, Hd. reflexivity.
Qed.

End Filters.

(** ** The warning of [parse_ops] *)

Section Warnings.

Context {P : Platform} {L : PciLib}.
Variable devices : list pci_dev.
Variable junk : nat -> string.

Lemma filter_token_agree (p q : parser) (c : string) (next : option string) :
  same_parse p q ->
  match filter_token p c next, filter_token q c next with
  | Ok (p', t), Ok (q', t') => same_parse p' q' /\ t = t'
  | Err e, Err e' => e = e'
  | _, _ => False
  end.
Proof.
  intros (Hs & Hf & Hd & Ho & Hh). unfold filter_token. rewrite Hs, Hf.
  destruct (parse_filter c next _) as [[f t]|e]; simpl; [|reflexivity].
  unfold same_parse; simpl; repeat split; auto.
Qed.

Lemma op_token_agree (fl fl' : flags) (f0 : string) (p q : parser) (c : string) :
  same_parse p q ->
  parses_agree (op_token fl devices f0 p c) (op_token fl' devices f0 q c).
Proof.
  intros (Hs & Hf & Hd & Ho & Hh). unfold op_token. rewrite <- Hs, <- Hf, <- Hd, <- Ho, <- Hh.
  destruct (state p); [reflexivity| |].
  - destruct (select_devices devices (heap p) (filter p)) as [b h].
    destruct (parse_op c b f0 (first_op p)) as [ops|e]; simpl; [|reflexivity].
    unfold same_parse; simpl; repeat split; auto.
  - destruct (selected_devices p) as [vec|]; [|reflexivity].
    destruct (parse_op c vec f0 (first_op p)) as [ops|e]; simpl; [|reflexivity].
    unfold same_parse; simpl; repeat split; auto.
Qed.

Lemma parse_ops_loop_agree (fl fl' : flags) (args : list string) :
  forall p q, same_parse p q ->
  parses_agree (parse_ops_loop fl devices junk p args)
               (parse_ops_loop fl' devices junk q args).
Proof.
  remember (List.length args) as n eqn:Hn. revert args Hn.
  induction n as [n IH] using lt_wf_ind. intros args Hn p q Hpq.
  destruct args as [|c rest]; [exact Hpq|].
  simpl parse_ops_loop. destruct (is_filter_token c).
  - pose proof (filter_token_agree c (hd_error rest) Hpq) as Hf.
    destruct (filter_token p c (hd_error rest)) as [[p' t]|e];
      destruct (filter_token q c (hd_error rest)) as [[q' t']|e'];
      try contradiction; simpl bind; cbv beta iota; [|exact Hf].
    destruct Hf as [Hpq' <-].
    destruct t; destruct rest as [|x rest'];
      (eapply IH; [|reflexivity|exact Hpq']; subst n; simpl; lia).
  - destruct Hpq as (Hs & Hf & Hd & Ho & Hh). rewrite <- Ho.
    pose proof (@op_token_agree fl fl' (junk (List.length (first_op p))) p q c
                  (conj Hs (conj Hf (conj Hd (conj Ho Hh))))) as Hop.
    destruct (op_token fl devices _ p c) as [p'|e];
      destruct (op_token fl' devices _ q c) as [q'|e'];
      try contradiction; simpl bind; [|exact Hop].
    eapply IH; [|reflexivity|exact Hop]. subst n. simpl. lia.
Qed.

(** What one operation token adds to the warnings. *)
Lemma op_token_warnings (fl : flags) (f0 : string) (p : parser) (c : string) (p' : parser) :
  op_token fl devices f0 p c = Ok p' ->
  exists o, first_op p' = (first_op p ++ [o])%list /\
    warnings p'
    = match vec_devs (dev_vector o) with
      | [] => if force fl =? 0 then (warnings p ++ [c])%list else warnings p
      | _ :: _ => warnings p
      end.
Proof.
  unfold op_token.
  destruct (state p); [discriminate| |].
  - destruct (select_devices devices (heap p) (filter p)) as [b h].
    destruct (parse_op c b f0 (first_op p)) as [ops|] eqn:E; simpl; [|discriminate].
    intros H; inversion H; subst; simpl.
    destruct (parse_op_inversion _ _ _ _ E) as (o & -> & <- & _).
    exists o. auto.
  - destruct (selected_devices p) as [vec|]; [|discriminate].
    destruct (parse_op c vec f0 (first_op p)) as [ops|] eqn:E; simpl; [|discriminate].
    intros H; inversion H; subst; simpl.
    destruct (parse_op_inversion _ _ _ _ E) as (o & -> & <- & _).
    exists o. auto.
Qed.

Lemma parse_ops_loop_warnings (fl : flags) (args : list string) (p p' : parser) :
  parse_ops_loop fl devices junk p args = Ok p' ->
  (force fl <> 0 -> warnings p' = warnings p) /\
  (force fl = 0 ->
     (List.length (warnings p') + List.length (unselected (first_op p))
      = List.length (warnings p) + List.length (unselected (first_op p')))%nat).
Proof.
  revert p'.
  apply (parse_ops_loop_elim fl devices junk
           (fun p args r => forall p',
              r = Ok p' ->
              (force fl <> 0 -> warnings p' = warnings p) /\
              (force fl = 0 ->
                 (List.length (warnings p') + List.length (unselected (first_op p))
                  = List.length (warnings p) + List.length (unselected (first_op p')))%nat)));
    clear args p.
  - intros p p' H. inversion H; subst. split; [reflexivity | lia].
  - discriminate.
  - intros p c rest p1 took r _ Ht IH p' Hr.
    destruct (filter_token_state _ _ _ Ht) as (_ & Ho & _ & Hw & _).
    rewrite <- Ho, <- Hw. now apply IH.
  - discriminate.
  - intros p c rest p1 r _ Ht IH p' Hr.
    destruct (op_token_warnings _ _ _ _ Ht) as (o & Ho & Hw).
    destruct (IH _ Hr) as [IH1 IH2]. split.
    + intros Hf. rewrite (IH1 Hf), Hw.
      apply Z.eqb_neq in Hf. rewrite Hf. now destruct (vec_devs (dev_vector o)).
    + intros Hf. specialize (IH2 Hf). rewrite Ho, Hw in IH2.
      unfold unselected in *. rewrite filter_app, length_app in IH2.
      rewrite Hf in IH2. simpl in IH2.
      destruct (vec_devs (dev_vector o)); simpl in IH2;
        rewrite ?length_app in IH2; simpl in IH2; lia.
Qed.

(** X6. The flag [force] silences the warning and does nothing else in
    [parse_ops].  With [force] set no warning is printed; without it there
    is one warning for each operation whose device vector is empty.  With
    any other flags the same tokens parse to the same operations, vectors
    and state, or fail with the same error. *)
Theorem force_silences (fl fl' : flags) (args : list string) :
  (forall p, parse_ops fl devices junk args = Ok p ->
     (force fl <> 0 -> warnings p = []) /\
     (force fl = 0 ->
        List.length (warnings p) = List.length (unselected (first_op p))) /\
     exists q, parse_ops fl' devices junk args = Ok q /\ same_parse p q) /\
  (forall e, parse_ops fl devices junk args = Err e ->
     parse_ops fl' devices junk args = Err e).
Proof.
  assert (Hinit : same_parse parser_init parser_init)
    by (unfold same_parse; repeat split; auto).
  pose proof (@parse_ops_loop_agree fl fl' args _ _ Hinit) as Hag.
  unfold parse_ops. split.
  - intros p Hp.
    destruct (parse_ops_loop fl devices junk parser_init args) as [p0|e] eqn:E;
      simpl in Hp; [|discriminate].
    assert (p0 = p) by (destruct (state p0); congruence). subst p0.
    destruct (parse_ops_loop_warnings _ _ _ E) as [Hw1 Hw2]. simpl in Hw1, Hw2.
    split; [exact Hw1|]. split; [intros Hf; specialize (Hw2 Hf); lia|].
    destruct (parse_ops_loop fl' devices junk parser_init args) as [q|e'];
      simpl in Hag; [|contradiction].
    exists q. split; [|exact Hag]. simpl.
    destruct Hag as (Hs & _). rewrite <- Hs.
    destruct (state p); [discriminate Hp | reflexivity | reflexivity].
  - intros e He.
    destruct (parse_ops_loop fl devices junk parser_init args) as [p0|e0] eqn:E;
      destruct (parse_ops_loop fl' devices junk parser_init args) as [q|e'];
      simpl in Hag; try contradiction; simpl in *.
    + destruct Hag as (Hs & _). rewrite <- Hs. destruct (state p0); congruence.
    + congruence.
Qed.

End Warnings.

(** ** Letter case in an operation token *)

Section LetterCase.

Context {P : Platform}.

Lemma tolower_facts (a : ascii) :
  tolower (tolower a) = tolower a /\
  hex_value (tolower a) = hex_value a /\
  isspace (tolower a) = isspace a /\
  Ascii.eqb (tolower a) "=" = Ascii.eqb a "=" /\
  Ascii.eqb (tolower a) "." = Ascii.eqb a "." /\
  Ascii.eqb (tolower a) "+" = Ascii.eqb a "+" /\
  Ascii.eqb (tolower a) "," = Ascii.eqb a "," /\
  Ascii.eqb (tolower a) ":" = Ascii.eqb a ":" /\
  Ascii.eqb (tolower a) "-" = Ascii.eqb a "-" /\
  Ascii.eqb (tolower a) "0" = Ascii.eqb a "0" /\
  (Ascii.eqb (tolower a) "x" || Ascii.eqb (tolower a) "X"
   = Ascii.eqb a "x" || Ascii.eqb a "X") /\
  Z.land (code (tolower a)) 0xdf = Z.land (code a) 0xdf.
Proof. destruct a as [[] [] [] [] [] [] [] []]; vm_compute; repeat split. Qed.

Lemma caseless_marks :
  caseless "=" /\ caseless "." /\ caseless "+" /\ caseless "," /\ caseless ":".
Proof. repeat split; intros a; apply tolower_facts. Qed.

Lemma split_at_lower (c : ascii) (s : string) :
  caseless c ->
  split_at c (lower s)
  = (lower (fst (split_at c s)), option_map lower (snd (split_at c s))).
Proof.
  intros Hc. induction s as [|a s IH]; [reflexivity|].
  simpl. rewrite Hc. destruct (Ascii.eqb a c); [reflexivity|].
  rewrite IH. now destruct (split_at c s).
Qed.

Lemma count_char_lower (c : ascii) (s : string) :
  caseless c -> count_char c (lower s) = count_char c s.
Proof.
  intros Hc. induction s as [|a s IH]; [reflexivity|].
  simpl. now rewrite Hc, IH.
Qed.

Lemma skip_space_lower (s : string) : skip_space (lower s) = lower (skip_space s).
Proof.
  induction s as [|a s IH]; [reflexivity|]. simpl.
  destruct (tolower_facts a) as (_ & _ & -> & _).
  destruct (isspace a); [exact IH | reflexivity].
Qed.

Lemma skip_sign_lower (s : string) :
  skip_sign (lower s) = (fst (skip_sign s), lower (snd (skip_sign s))).
Proof.
  destruct s as [|a s]; [reflexivity|]. simpl.
  destruct (tolower_facts a) as (_ & _ & _ & _ & _ & Hp & _ & _ & Hm & _).
  rewrite Hp, Hm. destruct (Ascii.eqb a "-"); [reflexivity|].
  destruct (Ascii.eqb a "+"); reflexivity.
Qed.

Lemma skip_0x_lower (s : string) : skip_0x (lower s) = lower (skip_0x s).
Proof.
  destruct s as [|a [|b [|d r]]]; try reflexivity.
  simpl lower. unfold skip_0x.
  destruct (tolower_facts a) as (_ & _ & _ & _ & _ & _ & _ & _ & _ & H0 & _).
  destruct (tolower_facts b) as (_ & _ & _ & _ & _ & _ & _ & _ & _ & _ & Hx & _).
  destruct (tolower_facts d) as (_ & Hd & _).
  rewrite H0, Hx, Hd.
  destruct (Ascii.eqb a "0" && (Ascii.eqb b "x" || Ascii.eqb b "X")); [|reflexivity].
  destruct (hex_value d); reflexivity.
Qed.

Lemma digits_lower (s : string) :
  forall acc seen,
  digits acc seen (lower s)
  = (fst (digits acc seen s), lower (snd (digits acc seen s))).
Proof.
  induction s as [|a s IH]; intros acc seen; [reflexivity|]. simpl.
  destruct (tolower_facts a) as (_ & -> & _).
  destruct (hex_value a); [apply IH | reflexivity].
Qed.

Lemma strtoul16_lower (c : string) :
  strtoul16 (lower c)
  = {| number := number (strtoul16 c); stop := lower (stop (strtoul16 c));
       erange := erange (strtoul16 c) |}.
Proof.
  unfold strtoul16. rewrite skip_space_lower, skip_sign_lower.
  destruct (skip_sign (skip_space c)) as [neg s]. simpl fst. simpl snd.
  rewrite skip_0x_lower, digits_lower.
  destruct (digits 0 false (skip_0x s)) as [[mag seen] rest]. simpl fst. simpl snd.
  cbv beta iota.
  destruct (negb seen); [reflexivity|].
  destruct (ULONG_MAX <? mag); reflexivity.
Qed.

Lemma parse_x32_lower (c : string) :
  parse_x32 (lower c)
  = match parse_x32 c with
    | X32_partial l r => X32_partial l (lower r)
    | x => x
    end.
Proof.
  destruct c as [|a c]; [reflexivity|].
  unfold parse_x32. change (lower (String a c)) with (String (tolower a) (lower c)).
  cbv iota. change (String (tolower a) (lower c)) with (lower (String a c)).
  rewrite strtoul16_lower. simpl.
  destruct (erange (strtoul16 (String a c))); [reflexivity|].
  destruct (negb _); [reflexivity|].
  destruct (stop (strtoul16 (String a c))); reflexivity.
Qed.

Lemma strcaseeq_lower_r (n s : string) : strcaseeq n (lower s) = strcaseeq n s.
Proof.
  revert s. induction n as [|x n IH]; intros [|y s]; simpl; try reflexivity.
  destruct (tolower_facts y) as (-> & _). now rewrite IH.
Qed.

Lemma has_prefix_lower_r (p s : string) :
  has_prefix_nocase p (lower s) = has_prefix_nocase p s.
Proof.
  revert s. induction p as [|x p IH]; intros [|y s]; simpl; try reflexivity.
  destruct (tolower_facts y) as (-> & _). now rewrite IH.
Qed.

Lemma advance_lower (n : nat) (s : string) : advance n (lower s) = lower (advance n s).
Proof.
  revert s. induction n as [|n IH]; intros [|a s]; simpl; auto.
Qed.

Lemma parse_reg_name_lower (s : string) : parse_reg_name (lower s) = parse_reg_name s.
Proof.
  unfold parse_reg_name. induction pci_reg_names as [|r table IH]; [reflexivity|].
  simpl. now rewrite strcaseeq_lower_r, IH.
Qed.

Lemma parse_register_lower (o : op) (base : string) :
  parse_register o (lower base) = lower_result (parse_register o base).
Proof.
  unfold parse_register.
  rewrite parse_x32_lower, parse_reg_name_lower, !has_prefix_lower_r,
    !advance_lower, !parse_x32_lower.
  assert (Hrest :
    match parse_reg_name base with
    | Some r =>
        Ok (set_reg o (rn_cap r) (rn_offset r)
              (if negb (rn_width r =? 0) && (width o =? 0) then rn_width r else width o))
    | None =>
        if has_prefix_nocase "CAP" base
        then match match parse_x32 (advance 3 base) with
                   | X32_partial l r => X32_partial l (lower r)
                   | x => x
                   end with
             | X32_full c =>
                 if c <? 256 then Ok (set_reg o (u32 (c + 65536)) 0 (width o))
                 else Err (UnknownRegister (lower base))
             | _ => Err (UnknownRegister (lower base))
             end
        else if has_prefix_nocase "ECAP" base
             then match match parse_x32 (advance 4 base) with
                        | X32_partial l r => X32_partial l (lower r)
                        | x => x
                        end with
                  | X32_full c =>
                      if c <? 4096 then Ok (set_reg o (u32 (c + 131072)) 0 (width o))
                      else Err (UnknownRegister (lower base))
                  | _ => Err (UnknownRegister (lower base))
                  end
             else Err (UnknownRegister (lower base))
    end
    = lower_result
        match parse_reg_name base with
        | Some r =>
            Ok (set_reg o (rn_cap r) (rn_offset r)
                  (if negb (rn_width r =? 0) && (width o =? 0) then rn_width r else width o))
        | None =>
            if has_prefix_nocase "CAP" base
            then match parse_x32 (advance 3 base) with
                 | X32_full c =>
                     if c <? 256 then Ok (set_reg o (u32 (c + 65536)) 0 (width o))
                     else Err (UnknownRegister base)
                 | _ => Err (UnknownRegister base)
                 end
            else if has_prefix_nocase "ECAP" base
                 then match parse_x32 (advance 4 base) with
                      | X32_full c =>
                          if c <? 4096 then Ok (set_reg o (u32 (c + 131072)) 0 (width o))
                          else Err (UnknownRegister base)
                      | _ => Err (UnknownRegister base)
                      end
                 else Err (UnknownRegister base)
        end).
  { destruct (parse_reg_name base); [reflexivity|].
    destruct (has_prefix_nocase "CAP" base).
    - destruct (parse_x32 (advance 3 base)) as [| |c]; try reflexivity.
      destruct (c <? 256); reflexivity.
    - destruct (has_prefix_nocase "ECAP" base); [|reflexivity].
      destruct (parse_x32 (advance 4 base)) as [| |c]; try reflexivity.
      destruct (c <? 4096); reflexivity. }
  destruct (parse_x32 base) as [| |a]; [exact Hrest | exact Hrest | reflexivity].
Qed.

Lemma width_suffix_lower (t : option string) :
  width_suffix (option_map lower t) = lower_result (width_suffix t).
Proof.
  destruct t as [[|a [|b t]]|]; try reflexivity. simpl.
  destruct (tolower_facts a) as (_ & _ & _ & _ & _ & _ & _ & _ & _ & _ & _ & ->).
  destruct (Z.land (code a) 223) as [|p|p]; try reflexivity.
  do 7 (destruct p as [p|p|]; try reflexivity).
Qed.

Lemma count_values_lower (t : option string) :
  count_values (option_map lower t) = count_values t.
Proof.
  destruct t as [[|a v]|]; try reflexivity. simpl.
  destruct (tolower_facts a) as (_ & _ & _ & _ & _ & _ & -> & _).
  now rewrite (count_char_lower v (proj1 (proj2 (proj2 (proj2 caseless_marks))))).
Qed.

Lemma add_offset_lower (o : op) (t : option string) :
  add_offset o (option_map lower t) = lower_result (add_offset o t).
Proof.
  destruct t as [t|]; [|reflexivity]. simpl. rewrite parse_x32_lower.
  destruct (parse_x32 t) as [| |off]; try reflexivity.
  destruct (4096 <=? off); reflexivity.
Qed.

Lemma parse_value_lower (lim : Z) (f text : string) :
  parse_value lim (lower f) (lower text)
  = match parse_value lim f text with
    | Ok (v, f') => Ok (v, lower f')
    | Err e => Err (lower_error e)
    end.
Proof.
  assert (Htail : forall g ll,
    match lower g with
    | String a mask_text =>
        if negb (Ascii.eqb a ":") then Err (InvalidValue (lower text))
        else if out_of_range lim ll then Err (ValueOutOfRange (lower text))
        else match parse_x32 mask_text with
             | X32_full m =>
                 if out_of_range lim m then Err (MaskOutOfRange mask_text)
                 else Ok ({| v_value := Z.land ll m; v_mask := m |}, lower g)
             | _ => Err (InvalidMask mask_text)
             end
    | EmptyString =>
        if out_of_range lim ll then Err (ValueOutOfRange (lower text))
        else Ok ({| v_value := ll; v_mask := UINT_MAX |}, lower g)
    end
    = match match g with
            | String a mask_text =>
                if negb (Ascii.eqb a ":") then Err (InvalidValue text)
                else if out_of_range lim ll then Err (ValueOutOfRange text)
                else match parse_x32 mask_text with
                     | X32_full m =>
                         if out_of_range lim m then Err (MaskOutOfRange mask_text)
                         else Ok ({| v_value := Z.land ll m; v_mask := m |}, g)
                     | _ => Err (InvalidMask mask_text)
                     end
            | EmptyString =>
                if out_of_range lim ll then Err (ValueOutOfRange text)
                else Ok ({| v_value := ll; v_mask := UINT_MAX |}, g)
            end with
      | Ok (v, f') => Ok (v, lower f')
      | Err e => Err (lower_error e)
      end).
  { intros g ll. destruct g as [|a m]; simpl.
    - destruct (out_of_range lim ll); reflexivity.
    - destruct (tolower_facts a) as (_ & _ & _ & _ & _ & _ & _ & -> & _).
      destruct (negb (Ascii.eqb a ":")); [reflexivity|].
      destruct (out_of_range lim ll); [reflexivity|].
      rewrite parse_x32_lower.
      destruct (parse_x32 m) as [| |mm]; try reflexivity.
      destruct (out_of_range lim mm); reflexivity. }
  unfold parse_value. rewrite parse_x32_lower.
  destruct (parse_x32 text) as [|l rest|l]; [reflexivity| |]; apply Htail.
Qed.

Lemma parse_values_lower (n : nat) (lim : Z) :
  forall f cur,
  parse_values n lim (lower f) (option_map lower cur)
  = lower_result (parse_values n lim f cur).
Proof.
  induction n as [|n IH]; intros f cur; [reflexivity|].
  destruct cur as [v|]; [|reflexivity]. simpl.
  rewrite (split_at_lower v (proj1 (proj2 (proj2 (proj2 caseless_marks))))).
  destruct (split_at "," v) as [text e]. simpl fst. simpl snd.
  rewrite parse_value_lower.
  destruct (parse_value lim f text) as [[x f']|err]; simpl; [|reflexivity].
  rewrite IH. destruct (parse_values n lim f' e); reflexivity.
Qed.

Lemma parse_op_lower (c : string) (vec : vector) (f0 : string) (ops : list op) :
  parse_op (lower c) vec (lower f0) ops = lower_result (parse_op c vec f0 ops).
Proof.
  destruct caseless_marks as (Heq & Hdot & Hplus & _).
  unfold parse_op.
  rewrite (split_at_lower c Heq).
  destruct (split_at "=" c) as [b0 value_text]. simpl fst. simpl snd.
  rewrite (split_at_lower b0 Hdot).
  destruct (split_at "." b0) as [b1 width_text]. simpl fst. simpl snd.
  rewrite (split_at_lower b1 Hplus).
  destruct (split_at "+" b1) as [base offset]. simpl fst. simpl snd.
  rewrite count_values_lower.
  destruct (count_values value_text) as [n|e] eqn:En; simpl.
  2: { destruct value_text as [[|a v]|]; simpl in En; inversion En. reflexivity. }
  rewrite width_suffix_lower.
  destruct (width_suffix width_text) as [w|e]; simpl; [|reflexivity].
  rewrite parse_register_lower.
  destruct (parse_register _ base) as [o|e]; simpl; [|reflexivity].
  destruct (width o =? 0); [reflexivity|].
  rewrite add_offset_lower.
  destruct (add_offset o offset) as [o'|e]; simpl; [|reflexivity].
  destruct (check_range o' n) as [[]|e] eqn:Ec; simpl.
  2: { unfold check_range in Ec.
       destruct (_ || _); [inversion Ec; reflexivity|].
       destruct (negb _); inversion Ec; reflexivity. }
  rewrite parse_values_lower.
  destruct (parse_values n _ f0 value_text) as [vs|e]; reflexivity.
Qed.

(** X8. Letter case in an operation token.  Register names, the prefixes
    [CAP] and [ECAP], the width suffix, the hexadecimal digits and the [x]
    of [0x] are read without regard to letter case, and the characters that
    cut the token ([=], [.], [+], [,], [:]) are no letters.  So [parse_op]
    on the token in lower case gives what it gives on the token as written,
    the text in an error message apart; and two tokens that differ in
    letter case only give the same operation, or both fail. *)
Theorem operation_letter_case (c : string) (vec : vector) (f0 : string) (ops : list op) :
  parse_op (lower c) vec (lower f0) ops = lower_result (parse_op c vec f0 ops) /\
  (forall c', lower c' = lower c ->
     lower_result (parse_op c' vec f0 ops) = lower_result (parse_op c vec f0 ops) /\
     forall r, parse_op c' vec f0 ops = Ok r <-> parse_op c vec f0 ops = Ok r).
Proof.
  split; [apply parse_op_lower|].
  intros c' Hc.
  assert (H : lower_result (parse_op c' vec f0 ops) = lower_result (parse_op c vec f0 ops))
    by (rewrite <- !parse_op_lower; now rewrite Hc).
  split; [exact H|].
  intros r. destruct (parse_op c' vec f0 ops) as [x|e];
    destruct (parse_op c vec f0 ops) as [y|e']; simpl in H; try discriminate.
  - inversion H; subst. reflexivity.
  - split; discriminate.
Qed.

End LetterCase.

Section LetterCaseOfResults.

Context {P : Platform}.

(** Two tokens that differ in letter case only: the same operation, or the
    same error up to the case of its text. *)
Lemma parse_op_same_case (c c' : string) (vec : vector) (f0 : string) (ops : list op) :
  lower c' = lower c ->
  lower_result (parse_op c' vec f0 ops) = lower_result (parse_op c vec f0 ops).
Proof. intros Hc. rewrite <- !parse_op_lower. now rewrite Hc. Qed.

End LetterCaseOfResults.

(** ** Width suffixes and numbers *)

Section WidthSuffixes.

(** X9. The width suffixes.  The test [*width & 0xdf] accepts six
    suffixes and no other: [b] and [B] for 1 byte, [w] and [W] for 2, [l]
    and [L] for 4.  Any other text after the dot, the empty one included,
    is [usage("Invalid width ...")] with that text, and no dot leaves the
    width open (0). *)
Theorem width_suffixes (s : string) (w : Z) :
  (width_suffix (Some s) = Ok w <->
     (w = 1 /\ (s = "b" \/ s = "B")) \/
     (w = 2 /\ (s = "w" \/ s = "W")) \/
     (w = 4 /\ (s = "l" \/ s = "L"))) /\
  (forall e, width_suffix (Some s) = Err e -> e = InvalidWidth s) /\
  width_suffix None = Ok 0.
Proof.
  split; [|split; [|reflexivity]].
  - split.
    + destruct s as [|a [|b t]]; try discriminate.
      destruct a as [[] [] [] [] [] [] [] []]; simpl; intros H;
        try discriminate H; inversion H; subst; tauto.
    + intros [[-> [-> | ->]] | [[-> [-> | ->]] | [-> [-> | ->]]]]; reflexivity.
  - intros e. destruct s as [|a [|b t]]; simpl.
    + intros H; now inversion H.
    + destruct (Z.land (code a) 223) as [|p|p]; try (intros H; now inversion H).
      do 7 (destruct p as [p|p|]; try (intros H; now inversion H)).
    + intros H; now inversion H.
Qed.

End WidthSuffixes.

Section NegativeLiterals.

Lemma land_uint_le (x : Z) : 0 <= x -> (Z.land x UINT_MAX =? x) = (x <=? UINT_MAX).
Proof.
  intros Hx. change UINT_MAX with (Z.ones 32) at 1.
  rewrite Z.land_ones by lia. unfold UINT_MAX.
  destruct (x <=? 4294967295) eqn:E.
  - apply Z.leb_le in E. rewrite Z.mod_small by lia. apply Z.eqb_refl.
  - apply Z.leb_gt in E. apply Z.eqb_neq.
    pose proof (Z.mod_pos_bound x (2 ^ 32) ltac:(lia)). lia.
Qed.

(** [parse_x32] on a minus sign and digits: [strtoul] negates the number in
    [unsigned long]. *)
Lemma parse_x32_minus {P : Platform} (s : string) (n : Z) :
  hex_number s = Some n ->
  parse_x32 (String "-" s)
  = if ULONG_MAX <? n then X32_error
    else let l := (ULONG_MAX + 1 - n) mod (ULONG_MAX + 1) in
         if l <=? UINT_MAX then X32_full l else X32_error.
Proof.
  destruct s as [|a s]; [discriminate|]. unfold hex_number. intros H.
  pose proof (skip_0x_digits _ H) as H0x.
  pose proof (@digits_hex_value _ 0 false n H) as Hd.
  pose proof ULONG_MAX_min as Hmin.
  unfold parse_x32, strtoul16.
  change (skip_sign (skip_space (String "-" (String a s)))) with (true, String a s).
  cbv beta iota. rewrite H0x, Hd. cbv beta iota. simpl negb. cbv iota.
  destruct (ULONG_MAX <? n); [reflexivity|]. simpl.
  rewrite land_uint_le
    by (apply Z.mod_pos_bound; unfold UINT_MAX in Hmin; lia).
  destruct (_ <=? UINT_MAX); reflexivity.
Qed.

(** X10. Literals with a minus sign depend on the width of [unsigned
    long].  Where it has 32 bits, [-n] for n from 1 to 0xFFFFFFFF is read
    by [parse_x32] as 2^32 - n.  Where it has 64 bits, [-n] is refused for
    every n from 1 to 2^64 - 2^32, because the negated number does not fit
    an [unsigned int].  In the same way the second half of the range test
    of a value, [ll < ~0UL - lim], matters with 32 bits only: with 64 bits
    a number that [parse_x32] returned is out of range exactly when it is
    above the maximum of the width. *)
Theorem negative_literals (s : string) (n : Z) :
  hex_number s = Some n -> 0 < n ->
  (n <= 0xFFFFFFFF ->
     @parse_x32 ILP32 (String "-" s) = X32_full (0x100000000 - n)) /\
  (n <= 0xFFFFFFFF00000000 -> @parse_x32 LP64 (String "-" s) = X32_error) /\
  (forall lim ll, 0 <= lim <= UINT_MAX -> 0 <= ll <= UINT_MAX ->
     @out_of_range LP64 lim ll = (lim <? ll) /\
     @out_of_range ILP32 lim ll = (lim <? ll) && (ll <? UINT_MAX - lim)).
Proof.
  intros H Hn. split; [|split].
  - intros Hle. rewrite (@parse_x32_minus ILP32 s n H). simpl ULONG_MAX.
    replace (4294967295 <? n) with false by (symmetry; apply Z.ltb_ge; lia).
    cbv zeta. rewrite Z.mod_small by lia.
    replace (4294967295 + 1 - n <=? UINT_MAX) with true
      by (symmetry; apply Z.leb_le; unfold UINT_MAX; lia).
    f_equal; lia.
  - intros Hle. rewrite (@parse_x32_minus LP64 s n H). simpl ULONG_MAX.
    replace (18446744073709551615 <? n) with false by (symmetry; apply Z.ltb_ge; lia).
    cbv zeta. rewrite Z.mod_small by lia.
    replace (18446744073709551615 + 1 - n <=? UINT_MAX) with false
      by (symmetry; apply Z.leb_gt; unfold UINT_MAX; lia).
    reflexivity.
  - intros lim ll Hlim Hll. unfold out_of_range, UINT_MAX in *. simpl ULONG_MAX. split.
    + rewrite Z.mod_small by lia.
      replace (ll <? 18446744073709551615 - lim) with true
        by (symmetry; apply Z.ltb_lt; lia).
      apply andb_true_r.
    + rewrite Z.mod_small by lia. reflexivity.
Qed.

End NegativeLiterals.

Section NumberSpellings.

Context {P : Platform}.

(** [parse_x32] on a text that [strtoul] reads, with no minus sign, up to
    its end. *)
Lemma parse_x32_conversion (c s1 s : string) (n : Z) :
  c <> EmptyString ->
  skip_sign (skip_space c) = (false, s1) ->
  skip_0x s1 = s ->
  hex_number s = Some n -> n <= UINT_MAX ->
  parse_x32 c = X32_full n.
Proof.
  intros Hc Hsign H0x Hs Hn.
  destruct s as [|a s]; [discriminate|]. unfold hex_number in Hs.
  pose proof (@hex_digits_value_nonneg _ 0 n (Z.le_refl 0) Hs) as Hpos.
  pose proof (@digits_hex_value _ 0 false n Hs) as Hd.
  pose proof ULONG_MAX_min as Hmin.
  destruct c as [|c0 c]; [contradiction|].
  unfold parse_x32, strtoul16. rewrite Hsign, H0x, Hd. cbv beta iota.
  replace (ULONG_MAX <? n) with false by (symmetry; apply Z.ltb_ge; lia).
  simpl. rewrite land_uint_le by lia.
  replace (n <=? UINT_MAX) with true by (symmetry; apply Z.leb_le; lia).
  reflexivity.
Qed.

(** X21. The spellings of a number.  [parse_x32] reads a text of
    hexadecimal digits that an [unsigned int] holds as that number also
    after [0x] or [0X], after a plus sign and after white space, as
    [strtoul] does; the empty text is not a number.  So a register may be
    given as [0x40] as well as [40]. *)
Theorem number_spellings (s : string) (n : Z) :
  hex_number s = Some n -> n <= UINT_MAX ->
  parse_x32 (String "0" (String "x" s)) = X32_full n /\
  parse_x32 (String "0" (String "X" s)) = X32_full n /\
  parse_x32 (String "+" s) = X32_full n /\
  parse_x32 (String " " s) = X32_full n /\
  parse_x32 EmptyString = X32_error /\
  (forall o, parse_register o (String "0" (String "x" s))
             = Ok (set_reg o 0 n (width o))).
Proof.
  intros Hs Hn.
  assert (Hs' := Hs). destruct s as [|a s]; [discriminate|].
  assert (Ha : exists d, hex_value a = Some d).
  { unfold hex_number in Hs. simpl in Hs.
    destruct (hex_value a) as [d|]; [eauto | discriminate]. }
  destruct Ha as [d Ha]. destruct (hex_value_plain _ Ha) as (Hsp & Hm & Hp & _).
  assert (H0x : skip_0x (String a s) = String a s)
    by (eapply skip_0x_digits; exact Hs).
  assert (Hx : parse_x32 (String "0" (String "x" (String a s))) = X32_full n).
  { eapply parse_x32_conversion; try exact Hs'; try exact Hn; [discriminate|reflexivity|].
    simpl. now rewrite Ha. }
  split; [exact Hx|]. split; [|split; [|split; [|split]]].
  - eapply parse_x32_conversion; try exact Hs'; try exact Hn; [discriminate|reflexivity|].
    simpl. now rewrite Ha.
  - eapply parse_x32_conversion; try exact Hs'; try exact Hn;
      [discriminate | reflexivity | exact H0x].
  - eapply parse_x32_conversion; try exact Hs'; try exact Hn; [discriminate| |exact H0x].
    change (skip_space (String " " (String a s))) with (skip_space (String a s)).
    unfold skip_space. rewrite Hsp. unfold skip_sign. rewrite Hm, Hp. reflexivity.
  - reflexivity.
  - intros o. unfold parse_register. rewrite Hx. reflexivity.
Qed.

End NumberSpellings.

(** ** What is printed can be read back *)

Section PrintedNumbers.

Context {P : Platform}.

Lemma hex_value_hex_digit (n : Z) : 0 <= n < 16 -> hex_value (hex_digit n) = Some n.
Proof.
  intros Hn. rewrite <- (Z2Nat.id n) by lia.
  assert (Hk : (Z.to_nat n < 16)%nat) by lia.
  revert Hk. generalize (Z.to_nat n). intros k Hk.
  do 16 (destruct k as [|k]; [reflexivity|]). lia.
Qed.

Lemma hex_digits_value_app (a b : string) :
  forall acc,
  hex_digits_value acc (a ++ b)
  = match hex_digits_value acc a with
    | Some x => hex_digits_value x b
    | None => None
    end.
Proof.
  induction a as [|c a IH]; intros acc; simpl; [reflexivity|].
  destruct (hex_value c); [apply IH | reflexivity].
Qed.

(** The digits that [printf] writes spell the number. *)
Lemma hex_digits_value_digits (k : nat) :
  forall v acc, 0 <= v ->
  hex_digits_value acc (hex_digits k v) = Some (acc * 16 ^ Z.of_nat k + v mod 16 ^ Z.of_nat k).
Proof.
  induction k as [|k IH]; intros v acc Hv.
  - simpl. rewrite Z.mod_1_r. f_equal. lia.
  - simpl hex_digits. rewrite hex_digits_value_app.
    rewrite IH by (apply Z.div_pos; lia). cbn [hex_digits_value].
    rewrite hex_value_hex_digit by (apply Z.mod_pos_bound; lia).
    f_equal. rewrite Nat2Z.inj_succ, Z.pow_succ_r by lia.
    rewrite (Z.rem_mul_r v 16 (16 ^ Z.of_nat k)) by lia. ring.
Qed.

Lemma strip_value (min : nat) (s : string) :
  hex_digits_value 0 (strip min s) = hex_digits_value 0 s.
Proof.
  induction s as [|a s IH]; [reflexivity|].
  simpl strip. destruct (Ascii.eqb a "0" && Nat.ltb min _) eqn:E; [|reflexivity].
  apply andb_prop in E. destruct E as [Ea _]. apply Ascii.eqb_eq in Ea. subst a.
  rewrite IH. reflexivity.
Qed.

Lemma strip_nonempty (min : nat) (s : string) :
  (1 <= min)%nat -> s <> EmptyString -> strip min s <> EmptyString.
Proof.
  intros Hmin. induction s as [|a s IH]; [contradiction|]. intros _.
  simpl strip. destruct (Ascii.eqb a "0" && Nat.ltb min _) eqn:E; [|discriminate].
  apply andb_prop in E. destruct E as [_ El]. apply Nat.ltb_lt in El.
  apply IH. destruct s; [simpl in El; lia | discriminate].
Qed.

Lemma length_append (a b : string) :
  String.length (a ++ b) = (String.length a + String.length b)%nat.
Proof. induction a as [|x a IH]; simpl; [reflexivity | now rewrite IH]. Qed.

Lemma hex_digits_length (k : nat) : forall v, String.length (hex_digits k v) = k.
Proof.
  induction k as [|k IH]; intros v; [reflexivity|].
  simpl hex_digits. rewrite length_append, IH. simpl. lia.
Qed.

Lemma zeros_snoc (n : nat) : (zeros n ++ "0")%string = zeros (S n).
Proof. induction n as [|n IH]; [reflexivity|]. simpl. now rewrite IH. Qed.

Lemma append_assoc (a b c : string) : ((a ++ b) ++ c = a ++ (b ++ c))%string.
Proof. induction a as [|x a IH]; simpl; [reflexivity | now rewrite IH]. Qed.

Lemma append_nil_r (a : string) : (a ++ "")%string = a.
Proof. induction a as [|x a IH]; simpl; [reflexivity | now rewrite IH]. Qed.

(** A number below 16^k has zeros before its last [k] digits. *)
Lemma hex_digits_zeros (n : nat) :
  forall (k : nat) v, (k <= n)%nat -> 0 <= v < 16 ^ Z.of_nat k ->
  hex_digits n v = (zeros (n - k) ++ hex_digits k v)%string.
Proof.
  induction n as [|n IH]; intros k v Hk Hv.
  - assert (k = O) by lia. subst k. reflexivity.
  - destruct k as [|k].
    + simpl in Hv. assert (v = 0) by lia. subst v.
      simpl hex_digits. change (0 / 16) with 0.
      rewrite (IH O 0) by (simpl; lia). simpl hex_digits.
      rewrite Nat.sub_0_r, !append_nil_r. apply zeros_snoc.
    + simpl hex_digits. rewrite Nat2Z.inj_succ, Z.pow_succ_r in Hv by lia.
      rewrite (IH k (v / 16)).
      * rewrite append_assoc. reflexivity.
      * lia.
      * split; [apply Z.div_pos; lia | apply Z.div_lt_upper_bound; lia].
Qed.

Lemma strip_zeros (k m : nat) (t : string) :
  String.length t = k -> strip k (zeros m ++ t) = t.
Proof.
  intros <-. induction m as [|m IH].
  - simpl. destruct t as [|a t]; [reflexivity|]. simpl.
    rewrite Nat.ltb_irrefl, andb_false_r. reflexivity.
  - simpl append. simpl strip.
    replace (Nat.ltb (String.length t) _) with true; [exact IH|].
    symmetry. apply Nat.ltb_lt. rewrite length_append. lia.
Qed.

(** A number below 16^k is printed with exactly [k] digits under a minimum
    of [k]. *)
Lemma hex_fits (k : nat) (v : Z) :
  (1 <= k <= 8)%nat -> 0 <= v < 16 ^ Z.of_nat k ->
  String.length (hex k v) = k /\ hex k v = hex_digits k v.
Proof.
  intros Hk Hv.
  assert (H16 : 16 ^ Z.of_nat k <= 16 ^ 8)
    by (apply Z.pow_le_mono_r; lia).
  change (16 ^ 8) with 0x100000000 in H16.
  assert (Hv' : u32 v = v) by (unfold u32; apply Z.mod_small; lia).
  assert (Heq : hex k v = hex_digits k v).
  { unfold hex. rewrite Hv', Nat.max_l by lia.
    rewrite (@hex_digits_zeros 8 k v) by lia.
    apply strip_zeros, hex_digits_length. }
  split; [|exact Heq]. rewrite Heq. apply hex_digits_length.
Qed.

(** X11. What the tool prints it can read back.  The text that [printf]
    writes for an [unsigned int] under [%02x], [%04x] or [%08x] (or any
    other minimal number of digits) is read by [parse_x32] as a whole, as
    the number that was printed: the value shown by a read can be given
    back as the value of a write.  A number below 16^k is printed with
    exactly [k] digits under a minimum of [k] (from 1 to 8). *)
Theorem printed_number_parses (k : nat) (v : Z) :
  parse_x32 (hex k v) = X32_full (u32 v) /\
  ((1 <= k <= 8)%nat -> 0 <= v < 16 ^ Z.of_nat k ->
     String.length (hex k v) = k /\ hex k v = hex_digits k v).
Proof.
  assert (Hu : 0 <= u32 v < 0x100000000)
    by (unfold u32; apply Z.mod_pos_bound; lia).
  split; [|apply hex_fits].
  apply parse_x32_hex_number; [|unfold UINT_MAX; lia].
  unfold hex.
  assert (Hne : strip (Nat.max k 1) (hex_digits 8 (u32 v)) <> EmptyString).
  { apply strip_nonempty; [lia|].
    intros H. apply (f_equal String.length) in H.
    rewrite hex_digits_length in H. discriminate. }
  unfold hex_number.
  destruct (strip (Nat.max k 1) (hex_digits 8 (u32 v))) eqn:E; [contradiction|].
  rewrite <- E, strip_value, hex_digits_value_digits by lia.
  f_equal. change (16 ^ Z.of_nat 8) with 0x100000000.
  rewrite Z.mod_small by lia. lia.
Qed.

End PrintedNumbers.

(** ** Runs that read only, runs on no device *)

Section ReadOnly.

Context {L : PciLib}.
Variable fl : flags.

Lemma scan_ops_values (ops : list op) :
  scan_ops ops = true <-> exists o, In o ops /\ values o <> [].
Proof.
  induction ops as [|o ops IH]; simpl.
  - split; [discriminate | intros (o & [] & _)].
  - rewrite orb_true_iff, IH. unfold num_values. split.
    + intros [H | (o' & Hin & Hv)].
      * exists o. split; [now left|]. intros Hnil. rewrite Hnil in H. discriminate.
      * exists o'. split; [now right | exact Hv].
    + intros (o' & [<- | Hin] & Hv).
      * left. destruct (values o); [contradiction | reflexivity].
      * right. exists o'. auto.
Qed.

(** An operation with no value calls no write primitive. *)
Lemma read_commits_nothing (o : op) (d : pci_dev) :
  values o = [] -> commits_nothing (exec_op fl o d).
Proof.
  intros Hv. unfold exec_op.
  apply commits_nothing_bind;
    [apply commits_nothing_verbose, commits_nothing_emit | intros _].
  apply commits_nothing_bind.
  - unfold locate. destruct (cap o =? 0); [apply commits_nothing_ret|].
    apply commits_nothing_bind.
    + destruct (cap o <? 0x20000);
        (apply commits_nothing_bind;
         [apply commits_nothing_verbose, commits_nothing_emit
         |intros _; apply commits_nothing_find]).
    + intros [a|]; [apply commits_nothing_ret | apply commits_nothing_fail].
  - intros base. unfold exec_at, num_values. rewrite Hv. simpl negb. cbv iota.
    apply commits_nothing_bind;
      [apply commits_nothing_verbose, commits_nothing_emit | intros _].
    apply commits_nothing_bind;
      [apply commits_nothing_verbose, commits_nothing_emit | intros _].
    destruct (0x1000 <? _); [apply commits_nothing_fail|].
    apply commits_nothing_bind; [apply commits_nothing_read | intros x].
    apply commits_nothing_bind;
      [apply commits_nothing_format | intros _; apply commits_nothing_emit].
Qed.

Lemma read_schedule_commits_nothing (tr : list (pci_dev * op)) :
  Forall (fun x => values (snd x) = []) tr -> commits_nothing (run_schedule fl tr).
Proof.
  induction 1 as [|[d o] tr Ho Htr IH]; simpl; [apply commits_nothing_ret|].
  apply commits_nothing_bind; [now apply read_commits_nothing | intros _; exact IH].
Qed.

(** X12. [scan_ops] and the writes.  [scan_ops] sets [pacc->writeable]
    exactly when an operation of the list has a value.  When it does not
    set it, no run of [execute] on the list calls a write primitive or
    changes a configuration space, whatever the flags: the library is
    never written through an access that was not opened for writing. *)
Theorem read_only_run (ops : list op) :
  (scan_ops ops = true <-> exists o, In o ops /\ values o <> []) /\
  (scan_ops ops = false -> commits_nothing (execute fl ops)).
Proof.
  split; [apply scan_ops_values|].
  intros Hscan s. rewrite execute_schedule.
  apply read_schedule_commits_nothing.
  rewrite Forall_forall. intros [d o] Hin. simpl.
  apply schedule_ops in Hin.
  destruct (values o) as [|v vs] eqn:Hv; [reflexivity|]. exfalso.
  assert (Ht : scan_ops ops = true)
    by (apply scan_ops_values; exists o; split; [exact Hin | rewrite Hv; discriminate]).
  congruence.
Qed.

(** X13. Operations on no device.  When the device vector of every
    operation is empty, [execute] calls [exec_op] for no operation: the run
    ends with status 0, nothing is printed and no device is touched.  The
    warning of [parse_ops] is all that such an operation gives. *)
Theorem no_device_no_run (ops : list op) (s : run_state) :
  Forall no_device ops ->
  schedule ops = [] /\ execute fl ops s = (Ok tt, s).
Proof.
  intros Hops.
  assert (Hs : schedule ops = []).
  { unfold schedule.
    assert (Hg : Forall (fun g => run_trace g = []) (group_runs ops)).
    { rewrite Forall_forall. intros g Hg. destruct g as [|o g]; [reflexivity|].
      unfold run_trace.
      assert (Hin : In o ops).
      { rewrite <- (group_runs_concat ops). apply in_concat.
        exists (o :: g). split; [exact Hg | now left]. }
      rewrite Forall_forall in Hops. rewrite (Hops o Hin). reflexivity. }
    induction Hg as [|g gs Hg _ IH]; [reflexivity|].
    simpl. rewrite Hg, IH. reflexivity. }
  split; [exact Hs|]. rewrite execute_schedule, Hs. reflexivity.
Qed.

End ReadOnly.

(** ** Operations that the parser accepted, at run time *)

Section AcceptedOperations.

Context {P : Platform} {L : PciLib}.

Lemma parse_op_checked (c : string) (vec : vector) (f0 : string) (ops ops' : list op) :
  parse_op c vec f0 ops = Ok ops' ->
  exists o, ops' = (ops ++ [o])%list /\ dev_vector o = vec /\ checked o.
Proof.
  intros H. destruct (parse_op_inversion _ _ _ _ H) as (o & -> & Hv & Hw & Ha & Hc & Hp).
  exists o. unfold checked. repeat split; auto; apply Ha.
Qed.

Lemma parse_ops_loop_checked (fl : flags) (devices : list pci_dev)
    (junk : nat -> string) (args : list string) (p p' : parser) :
  Forall checked (first_op p) ->
  parse_ops_loop fl devices junk p args = Ok p' ->
  Forall checked (first_op p').
Proof.
  revert p'.
  apply (parse_ops_loop_elim fl devices junk
           (fun p args r => forall p',
              Forall checked (first_op p) -> r = Ok p' -> Forall checked (first_op p')));
    clear args p.
  - intros p p' Hp H. inversion H; subst. exact Hp.
  - discriminate.
  - intros p c rest p1 took r _ Ht IH p' Hp Hr.
    apply IH; [|exact Hr].
    destruct (filter_token_state _ _ _ Ht) as (_ & -> & _). exact Hp.
  - discriminate.
  - intros p c rest p1 r _ Ht IH p' Hp Hr.
    apply IH; [|exact Hr].
    destruct (op_token_ops _ _ _ _ _ Ht) as (_ & vec & _ & Hop).
    destruct (parse_op_checked _ _ _ _ Hop) as (o & -> & _ & Ho).
    apply Forall_app. split; [exact Hp | constructor; [exact Ho | constructor]].
Qed.

Lemma parse_ops_checked (fl : flags) (devices : list pci_dev)
    (junk : nat -> string) (args : list string) (p : parser) :
  parse_ops fl devices junk args = Ok p -> Forall checked (first_op p).
Proof.
  unfold parse_ops.
  destruct (parse_ops_loop fl devices junk parser_init args) as [p0|e] eqn:E;
    simpl; [|discriminate].
  intros H. assert (p0 = p) by (destruct (state p0); congruence). subst p0.
  eapply parse_ops_loop_checked; [|exact E]. constructor.
Qed.

(** The values of a checked operation fit below 0x1000 from its offset. *)
Lemma checked_fits (o : op) :
  checked o -> num_values o < 0x3FFFFC00 ->
  addr o + width o * Z.max 1 (num_values o) <= 0x1000.
Proof.
  intros (Hw & Ha & Hc & _) Hn.
  destruct (check_range_cases o (List.length (values o)) Hw) as (_ & _ & Hok).
  apply Hok in Hc. destruct Hc as [Hb _]. unfold num_values in *.
  rewrite beyond_exact in Hb by (auto; lia). lia.
Qed.

Lemma plain_op_runs (fl : flags) (o : op) (d : pci_dev) (s : run_state) :
  checked o -> plain o ->
  fst (exec_op fl o d s) = Ok tt /\
  Forall (in_window d (width o) (addr o) (Z.max 1 (num_values o)))
         (new_events (exec_op fl o d) s).
Proof.
  intros Hc [Hcap Hn]. pose proof (checked_fits Hc Hn) as Hfit.
  destruct Hc as (Hw & Ha & _).
  unfold exec_op, rbind.
  destruct (when_verbose_print fl
              (hex 2 (bus d) ++ ":" ++ hex 2 (dev d) ++ "." ++ hex 1 (func d)) s)
    as (pr0 & Hpr0 & E0).
  pose proof (locate_request fl o d {| space := space s; trace := (trace s ++ pr0)%list |})
    as Hloc.
  assert (Hreq : request o = None) by (unfold request, selector_of; now rewrite Hcap).
  rewrite Hreq in Hloc.
  destruct (@exec_at_window L fl o d 0
              {| space := space s; trace := (trace s ++ pr0)%list |}
              Hw Ha ltac:(lia)) as (Hres & Hiff & new & Ht & Hf).
  simpl in Hf, Hiff.
  assert (Hok : fst (exec_at fl o d 0 {| space := space s; trace := (trace s ++ pr0)%list |})
                = Ok tt).
  { destruct Hres as [Hres | Hres]; [exact Hres|]. apply Hiff in Hres. lia. }
  rewrite E0, Hloc. split; [exact Hok|].
  erewrite new_events_eq.
  2: { unfold exec_op, rbind. rewrite E0, Hloc, Ht. simpl.
       rewrite <- !app_assoc. reflexivity. }
  apply Forall_app; split; [apply only_prints_window; assumption | assumption].
Qed.

Lemma run_schedule_ok (fl : flags) (tr : list (pci_dev * op)) :
  Forall (fun x => forall s, fst (exec_op fl (snd x) (fst x) s) = Ok tt) tr ->
  forall s, fst (run_schedule fl tr s) = Ok tt.
Proof.
  induction 1 as [|[d o] tr Ho Htr IH]; intros s; simpl; [reflexivity|].
  unfold rbind. specialize (Ho s). simpl in Ho.
  destruct (exec_op fl o d s) as [[[]|e] s1]; simpl in Ho; [apply IH | discriminate].
Qed.

(** X14. What the checks of the parser are worth at run time.  An
    operation that [parse_ops] accepted, that names no capability and has
    fewer than 0x3FFFFC00 values, cannot fail on any device: [exec_op]
    returns, and each of its reads and writes is at the offset of the
    operation plus a multiple of the width, and ends inside the 0x1000
    bytes.  A command line of such operations runs to the end with status
    0, under any flags: every failure of a run after the parse involves a
    capability. *)
Theorem plain_operations_run (fl : flags) (devices : list pci_dev)
    (junk : nat -> string) (args : list string) (p : parser) :
  parse_ops fl devices junk args = Ok p ->
  (forall o, In o (first_op p) -> plain o ->
     forall fl' d s,
       fst (exec_op fl' o d s) = Ok tt /\
       Forall (in_window d (width o) (addr o) (Z.max 1 (num_values o)))
              (new_events (exec_op fl' o d) s)) /\
  (Forall plain (first_op p) ->
     forall fl' s, fst (execute fl' (first_op p) s) = Ok tt).
Proof.
  intros Hp. pose proof (parse_ops_checked _ _ _ _ Hp) as Hc.
  rewrite Forall_forall in Hc. split.
  - intros o Hin Hpl fl' d s. apply plain_op_runs; auto.
  - intros Hpl fl' s. rewrite Forall_forall in Hpl.
    rewrite execute_schedule. apply run_schedule_ok.
    rewrite Forall_forall. intros [d o] Hin s'. simpl.
    apply schedule_ops in Hin. apply plain_op_runs; auto.
Qed.

End AcceptedOperations.

(** ** The output without [-v], and the writes before a failure *)

Section QuietOutput.

Context {L : PciLib}.
Variable fl : flags.
Hypothesis Hquiet : verbose fl = 0.

Lemma when_verbose_quiet (m : run unit) : when_verbose fl m = ret tt.
Proof. unfold when_verbose. now rewrite Hquiet. Qed.

Lemma prints_nothing_ret {A : Type} (a : A) : prints_nothing (ret a).
Proof. intros s. exists []. simpl. now rewrite app_nil_r. Qed.

Lemma prints_nothing_fail {A : Type} (e : error) : prints_nothing (@fail _ A e).
Proof. intros s. exists []. simpl. now rewrite app_nil_r. Qed.

Lemma prints_nothing_bind {A B : Type} (m : run A) (k : A -> run B) :
  prints_nothing m -> (forall a, prints_nothing (k a)) -> prints_nothing (rbind m k).
Proof.
  intros Hm Hk s. unfold rbind. destruct (Hm s) as (new & Ht & Ho).
  destruct (m s) as [[a|e] s1]; simpl in *.
  - destruct (Hk a s1) as (new' & Ht' & Ho').
    exists (new ++ new')%list. rewrite Ht', Ht, app_assoc. split; [reflexivity|].
    now rewrite output_app, Ho, Ho'.
  - exists new. auto.
Qed.

Lemma prints_nothing_verbose (m : run unit) : prints_nothing (when_verbose fl m).
Proof. rewrite when_verbose_quiet. apply prints_nothing_ret. Qed.

Lemma prints_nothing_read (w : Z) (d : pci_dev) (pos : Z) :
  prints_nothing (read_width w d pos).
Proof. intros s. exists [Read d pos w]. auto. Qed.

Lemma prints_nothing_write (w : Z) (d : pci_dev) (pos x : Z) :
  prints_nothing (write_width w d pos x).
Proof. intros s. exists [Write d pos w (trunc w x)]. auto. Qed.

Lemma prints_nothing_find (d : pci_dev) (id : Z) (kind : cap_type) :
  prints_nothing (find_cap d id kind).
Proof. intros s. exists [FindCap d id kind]. auto. Qed.

Lemma prints_nothing_values (w : Z) (d : pci_dev) (vs : list value) :
  forall pos, prints_nothing (exec_values fl w d pos vs).
Proof.
  induction vs as [|v vs IH]; intros pos; simpl; [apply prints_nothing_ret|].
  destruct (0x1000 <? pos + w); [apply prints_nothing_fail|].
  apply prints_nothing_bind; [|intros _; apply IH].
  unfold exec_value. apply prints_nothing_bind.
  - unfold compute_bits.
    destruct (table_get max_values w) as [lim|]; [|apply prints_nothing_fail].
    destruct (Z.land (v_mask v) lim =? lim).
    + apply prints_nothing_bind;
        [apply prints_nothing_verbose | intros _; apply prints_nothing_ret].
    + apply prints_nothing_bind; [apply prints_nothing_read | intros y].
      apply prints_nothing_bind;
        [apply prints_nothing_verbose | intros _; apply prints_nothing_ret].
  - intros x. destruct (demo_mode fl =? 0);
      [apply prints_nothing_write | apply prints_nothing_ret].
Qed.

Lemma prints_nothing_locate (o : op) (d : pci_dev) : prints_nothing (locate fl o d).
Proof.
  unfold locate. destruct (cap o =? 0); [apply prints_nothing_ret|].
  apply prints_nothing_bind.
  - destruct (cap o <? 0x20000);
      (apply prints_nothing_bind;
       [apply prints_nothing_verbose | intros _; apply prints_nothing_find]).
  - intros [a|]; [apply prints_nothing_ret | apply prints_nothing_fail].
Qed.

Lemma write_prints_nothing (o : op) (d : pci_dev) :
  values o <> [] -> prints_nothing (exec_op fl o d).
Proof.
  intros Hv. unfold exec_op.
  apply prints_nothing_bind; [apply prints_nothing_verbose | intros _].
  apply prints_nothing_bind; [apply prints_nothing_locate | intros base].
  unfold exec_at.
  apply prints_nothing_bind; [apply prints_nothing_verbose | intros _].
  replace (negb (num_values o =? 0)) with true.
  - apply prints_nothing_bind;
      [apply prints_nothing_values | intros _; apply prints_nothing_verbose].
  - unfold num_values. destruct (values o); [contradiction | reflexivity].
Qed.

(** The locator without [-v]. *)
Lemma locate_quiet (o : op) (d : pci_dev) (s : run_state) (base : Z) :
  capability_base o d s = Some base ->
  exists s', locate fl o d s = (Ok (i32 base), s') /\ space s' = space s /\
    exists new, trace s' = (trace s ++ new)%list /\ output new = [].
Proof.
  unfold capability_base, request, selector_of, locate, rbind.
  rewrite !when_verbose_quiet.
  destruct (cap o =? 0).
  - intros H; inversion H; subst. exists s. repeat split.
    exists []. now rewrite app_nil_r.
  - destruct (cap o <? 0x20000); simpl; intros ->; eexists;
      (split; [reflexivity|]); simpl; (split; [reflexivity|]);
      eexists; (split; [reflexivity|]); reflexivity.
Qed.

(** X15. The output without [-v].  When [verbose] is 0 an operation that
    writes prints nothing at all, whether it succeeds or ends the run.  An
    operation that reads prints, for each device, the number that the read
    primitive returned under the format of its width, and a new line, and
    nothing else: 2, 4 or 8 hexadecimal digits exactly when the primitive
    returns a byte, a word or a long as its type promises. *)
Theorem quiet_output (o : op) (d : pci_dev) (s : run_state) :
  (values o <> [] -> output (new_events (exec_op fl o d) s) = []) /\
  (values o = [] -> valid_width (width o) -> 0 <= addr o ->
   forall base,
     capability_base o d s = Some base -> 0 <= base ->
     base + addr o + width o <= 0x1000 ->
     let x := current (width o) s d (base + addr o) in
     fst (exec_op fl o d s) = Ok tt /\
     output (new_events (exec_op fl o d) s) = [hex (digits_of (width o)) x; newline] /\
     (0 <= x < 256 ^ width o ->
      String.length (hex (digits_of (width o)) x) = digits_of (width o))).
Proof.
  split.
  - intros Hv. destruct (@write_prints_nothing o d Hv s) as (new & Ht & Ho).
    now rewrite (new_events_eq _ _ _ Ht).
  - intros Hv Hw Ha base Hbase Hb Hfit x.
    assert (Hwpos : 0 < width o) by (destruct Hw as [-> | [-> | ->]]; lia).
    destruct (@locate_quiet o d s base Hbase) as (s1 & Hloc & Hsp & new & Ht & Ho).
    assert (Hrun : exec_op fl o d s
                   = (Ok tt, {| space := space s1;
                                trace := (trace s1 ++ [Read d (base + addr o) (width o);
                                                       Print (hex (digits_of (width o)) x);
                                                       Print newline])%list |})).
    { unfold exec_op, rbind. rewrite !when_verbose_quiet. unfold ret at 1.
      cbv beta iota.
      rewrite Hloc. unfold exec_at, rbind. rewrite !when_verbose_quiet.
      unfold ret. cbv beta iota.
      unfold num_values. rewrite Hv. simpl negb. cbv iota.
      rewrite (i32_width Hw), (@i32_small base), (@i32_small (base + addr o)) by lia.
      replace (0x1000 <? base + addr o + width o) with false
        by (symmetry; apply Z.ltb_ge; lia).
      unfold read_width, print_format, emit, digits_of. subst x. unfold current.
      destruct Hw as [Hw | [Hw | Hw]]; rewrite Hw; simpl;
        rewrite ?Hsp, <- ?app_assoc; reflexivity. }
    split; [now rewrite Hrun|]. split.
    + erewrite new_events_eq.
      2: { rewrite Hrun. simpl. rewrite Ht, <- app_assoc. reflexivity. }
      rewrite output_app, Ho. reflexivity.
    + intros Hx. apply hex_fits.
      * unfold digits_of. destruct Hw as [-> | [-> | ->]]; simpl; lia.
      * unfold digits_of. destruct Hw as [Hw | [Hw | Hw]]; rewrite Hw in *;
          simpl in *; lia.
Qed.

End QuietOutput.

Section WritesBeforeDeath.

Context {L : PciLib}.
Variable fl : flags.

Lemma exec_values_app (w : Z) (d : pci_dev) (a b : list value) :
  forall pos s,
  exec_values fl w d pos (a ++ b) s
  = match exec_values fl w d pos a s with
    | (Ok _, s1) => exec_values fl w d (pos + w * Z.of_nat (List.length a)) b s1
    | (Err e, s1) => (Err e, s1)
    end.
Proof.
  induction a as [|v a IH]; intros pos s.
  - simpl. now rewrite Z.mul_0_r, Z.add_0_r.
  - replace (pos + w * Z.of_nat (List.length (v :: a)))
      with (pos + w + w * Z.of_nat (List.length a)) by (simpl List.length; lia).
    simpl app. simpl exec_values. destruct (0x1000 <? pos + w); [reflexivity|].
    unfold rbind. destruct (exec_value fl w d pos v s) as [[u|e] s1]; [|reflexivity].
    apply IH.
Qed.

(** X16. The writes before [die("Out of range")].  When the first values
    of an operation fit below 0x1000 and the next one does not, the loop of
    [exec_op] executes the values that fit, in order, and then ends the
    run: the state in which the run dies is the state after these values.
    Nothing is rolled back and the values after the one that does not fit
    are not looked at; the writes that were made are at the running
    address, one width apart. *)
Theorem writes_before_death (w : Z) (d : pci_dev) (vs1 : list value) (v : value)
    (vs2 : list value) (pos : Z) (s : run_state) :
  valid_width w ->
  pos + w * Z.of_nat (List.length vs1) <= 0x1000 ->
  0x1000 < pos + w * Z.of_nat (List.length vs1) + w ->
  fst (exec_values fl w d pos vs1 s) = Ok tt /\
  exec_values fl w d pos (vs1 ++ v :: vs2) s
    = (Err OutOfRange, snd (exec_values fl w d pos vs1 s)) /\
  write_positions (new_events (exec_values fl w d pos (vs1 ++ v :: vs2)) s)
    = if demo_mode fl =? 0 then running pos w (List.length vs1) else [].
Proof.
  intros Hw Hfit Hout.
  destruct (@exec_values_writes L fl w d vs1 Hw pos s Hfit) as (s' & He & new & Ht & Hwp).
  assert (Hall : exec_values fl w d pos (vs1 ++ v :: vs2) s = (Err OutOfRange, s')).
  { rewrite exec_values_app, He. simpl exec_values.
    replace (0x1000 <? pos + w * Z.of_nat (List.length vs1) + w) with true
      by (symmetry; apply Z.ltb_lt; lia).
    reflexivity. }
  rewrite He. split; [reflexivity|]. split; [exact Hall|].
  erewrite new_events_eq; [exact Hwp|]. rewrite Hall. exact Ht.
Qed.

End WritesBeforeDeath.

(** ** The vectors of the parsed operations *)

Section ParsedVectors.

Context {P : Platform} {L : PciLib}.
Variable fl : flags.
Variable devices : list pci_dev.
Variable junk : nat -> string.

Lemma sorted_snoc {A : Type} (R : A -> A -> Prop) (l : list A) (y : A) :
  StronglySorted R l -> Forall (fun x => R x y) l -> StronglySorted R (l ++ [y]).
Proof.
  induction 1 as [|a l Hl IH Ha]; intros Hy; simpl.
  - constructor; constructor.
  - inversion Hy; subst. constructor; [now apply IH|].
    apply Forall_app. split; [exact Ha | constructor; [assumption | constructor]].
Qed.

(** Between two operations of the same vector there are operations of
    that vector only. *)
Lemma sorted_between (ops1 : list op) (a : op) (mid : list op) (b : op) (ops2 : list op) :
  StronglySorted by_vector (ops1 ++ a :: mid ++ b :: ops2) ->
  same_vector (dev_vector a) (dev_vector b) = true ->
  Forall (fun o => same_vector (dev_vector o) (dev_vector a) = true) mid.
Proof.
  intros Hs Hab. unfold same_vector in Hab. apply Nat.eqb_eq in Hab.
  induction ops1 as [|x ops1 IH]; simpl in Hs.
  - inversion Hs as [|? ? Hrest Ha]; subst. clear Hs.
    rewrite Forall_forall. intros o Ho. unfold same_vector. apply Nat.eqb_eq.
    assert (H1 : by_vector a o).
    { rewrite Forall_forall in Ha. apply Ha. apply in_or_app. now left. }
    assert (H2 : by_vector o b).
    { clear Ha. induction mid as [|m mid IHm]; [contradiction|].
      simpl in Hrest. inversion Hrest as [|? ? Hrest' Hm]; subst.
      destruct Ho as [<- | Ho].
      - rewrite Forall_forall in Hm. apply Hm. apply in_or_app. right. now left.
      - now apply IHm. }
    unfold by_vector in *. lia.
  - inversion Hs; subst. now apply IH.
Qed.

Lemma vectors_kept_filter (p p' : parser) (c : string) (next : option string) (took : bool) :
  vectors_kept devices p -> filter_token p c next = Ok (p', took) ->
  vectors_kept devices p'.
Proof.
  intros (Hh & Hs & Ho & Hsort & _) Ht.
  destruct (filter_token_state _ _ _ Ht) as (Hst & Hops & Hheap & _).
  unfold vectors_kept. rewrite Hops, Hheap, Hst.
  repeat split; auto. discriminate.
Qed.

Lemma vectors_kept_op (f0 : string) (p p' : parser) (c : string) :
  vectors_kept devices p -> op_token fl devices f0 p c = Ok p' ->
  vectors_kept devices p'.
Proof.
  intros (Hh & Hs & Ho & Hsort & Hsel). unfold op_token.
  destruct (state p) eqn:Est; [discriminate| |].
  - unfold select_devices.
    set (vec := {| vec_addr := List.length (heap p);
                   vec_devs := copy_matches (filter p) devices |}).
    destruct (parse_op c vec f0 (first_op p)) as [ops|] eqn:Eop; simpl; [|discriminate].
    intros H; inversion H; subst p'; clear H.
    destruct (parse_op_inversion _ _ _ _ Eop) as (o & -> & Hvec & _).
    destruct (@heap_ok_fresh (heap p) vec Hh eq_refl) as [Hh' _].
    assert (Hle : Forall (fun o' => (vec_addr (dev_vector o') <= vec_addr vec)%nat)
                    (first_op p)).
    { rewrite Forall_forall in *. intros o' Hin. specialize (Ho o' Hin).
      apply In_nth_error in Ho. destruct Ho as [i Hi].
      rewrite (Hh _ _ Hi).
      assert (i < List.length (heap p))%nat by (apply nth_error_Some; congruence).
      simpl. lia. }
    unfold vectors_kept. simpl. split; [exact Hh'|]. split; [|split; [|split]].
    + apply Forall_app. split; [exact Hs|]. constructor; [|constructor].
      exists (filter p). simpl. apply copy_matches_filter.
    + apply Forall_app. split.
      * eapply Forall_impl; [|exact Ho]. intros o' Hin. apply in_or_app. now left.
      * constructor; [|constructor]. rewrite Hvec. apply in_or_app. right. now left.
    + apply sorted_snoc; [exact Hsort|]. unfold by_vector. now rewrite Hvec.
    + intros _. exists vec. split; [reflexivity|].
      split; [apply in_or_app; right; now left|].
      apply Forall_app. split; [exact Hle|]. constructor; [|constructor].
      rewrite Hvec. lia.
  - destruct (Hsel eq_refl) as (vec & Hv & Hin & Hle). rewrite Hv.
    destruct (parse_op c vec f0 (first_op p)) as [ops|] eqn:Eop; simpl; [|discriminate].
    intros H; inversion H; subst p'; clear H.
    destruct (parse_op_inversion _ _ _ _ Eop) as (o & -> & Hvec & _).
    unfold vectors_kept. simpl. split; [exact Hh|]. split; [exact Hs|].
    split; [|split].
    + apply Forall_app. split; [exact Ho|]. constructor; [|constructor].
      now rewrite Hvec.
    + apply sorted_snoc; [exact Hsort|]. unfold by_vector. now rewrite Hvec.
    + intros _. exists vec. split; [reflexivity|]. split; [exact Hin|].
      apply Forall_app. split; [exact Hle|]. constructor; [|constructor].
      rewrite Hvec. lia.
Qed.

Lemma parse_ops_loop_vectors (args : list string) (p p' : parser) :
  vectors_kept devices p ->
  parse_ops_loop fl devices junk p args = Ok p' ->
  vectors_kept devices p'.
Proof.
  revert p'.
  apply (parse_ops_loop_elim fl devices junk
           (fun p args r => forall p',
              vectors_kept devices p -> r = Ok p' -> vectors_kept devices p'));
    clear args p.
  - intros p p' Hp H. inversion H; subst. exact Hp.
  - discriminate.
  - intros p c rest p1 took r _ Ht IH p' Hp Hr.
    apply IH; [|exact Hr]. eapply vectors_kept_filter; eauto.
  - discriminate.
  - intros p c rest p1 r _ Ht IH p' Hp Hr.
    apply IH; [|exact Hr]. eapply vectors_kept_op; eauto.
Qed.

(** X17. The vectors of the operations that [parse_ops] built.  Each
    operation points at an array that [select_devices] allocated, and each
    array holds the devices of [pacc->devices] that a filter matched, in
    the order of that list.  Two operations whose vectors are the same
    pointer have the same devices.  The operations are in the order in
    which their vectors were allocated, so the operations of one vector are
    consecutive in the list: between two of them there are operations of
    that vector only, and [execute] meets each vector in one run of the
    list. *)
Theorem parsed_vectors (args : list string) (p : parser) :
  parse_ops fl devices junk args = Ok p ->
  heap_ok (heap p) /\
  (forall o, In o (first_op p) ->
     In (dev_vector o) (heap p) /\ selection_of devices (dev_vector o)) /\
  (forall a b, In a (first_op p) -> In b (first_op p) ->
     same_vector (dev_vector a) (dev_vector b) = true -> dev_vector a = dev_vector b) /\
  StronglySorted by_vector (first_op p) /\
  (forall ops1 a mid b ops2,
     first_op p = (ops1 ++ a :: mid ++ b :: ops2)%list ->
     same_vector (dev_vector a) (dev_vector b) = true ->
     Forall (fun o => same_vector (dev_vector o) (dev_vector a) = true) mid).
Proof.
  intros Hp.
  assert (Hk : vectors_kept devices p).
  { unfold parse_ops in Hp.
    destruct (parse_ops_loop fl devices junk parser_init args) as [p0|e] eqn:E;
      simpl in Hp; [|discriminate].
    assert (p0 = p) by (destruct (state p0); congruence). subst p0.
    eapply parse_ops_loop_vectors; [|exact E].
    unfold vectors_kept. simpl. repeat split; try constructor.
    - intros i v Hi. destruct i; discriminate.
    - discriminate. }
  destruct Hk as (Hh & Hs & Ho & Hsort & _).
  rewrite Forall_forall in Ho, Hs.
  split; [exact Hh|]. split; [|split; [|split]].
  - intros o Hin. split; [now apply Ho | apply Hs; now apply Ho].
  - intros a b Ha Hb Hab. unfold same_vector in Hab. apply Nat.eqb_eq in Hab.
    pose proof (Ho a Ha) as Hia. pose proof (Ho b Hb) as Hib.
    apply In_nth_error in Hia, Hib.
    destruct Hia as [i Hi]. destruct Hib as [j Hj].
    pose proof (Hh _ _ Hi). pose proof (Hh _ _ Hj).
    assert (i = j) by lia. subst j. congruence.
  - exact Hsort.
  - intros ops1 a mid b ops2 Heq Hab. rewrite Heq in Hsort.
    eapply sorted_between; eauto.
Qed.

End ParsedVectors.

(** ** Byte order *)

Section ByteSwaps.

Import ByteOrder.

(** [w & (ones << k)] keeps the [n] bits from bit [k] on. *)
Lemma land_mask (w k n : Z) :
  0 <= k -> 0 <= n ->
  Z.land w (Z.shiftl (Z.ones n) k) = (w / 2 ^ k) mod 2 ^ n * 2 ^ k.
Proof.
  intros Hk Hn. rewrite <- Z.shiftl_mul_pow2, <- Z.shiftr_div_pow2 by lia.
  rewrite <- Z.land_ones by lia.
  apply Z.bits_inj'. intros i Hi. rewrite Z.land_spec.
  destruct (Z.lt_ge_cases i k) as [Hlt | Hge].
  - rewrite !Z.shiftl_spec_low by lia. apply andb_false_r.
  - rewrite !Z.shiftl_spec by lia. rewrite Z.land_spec, Z.shiftr_spec by lia.
    now replace (i - k + k) with i by lia.
Qed.

(** Bits that do not overlap are added by [|]. *)
Lemma lor_add_shift (a c k : Z) :
  0 <= k -> 0 <= a < 2 ^ k -> Z.lor a (c * 2 ^ k) = a + c * 2 ^ k.
Proof.
  intros Hk Ha.
  assert (Hd : Z.land a (c * 2 ^ k) = 0).
  { rewrite <- Z.shiftl_mul_pow2 by lia.
    apply Z.bits_inj'. intros i Hi. rewrite Z.land_spec, Z.bits_0.
    destruct (Z.lt_ge_cases i k) as [Hlt | Hge].
    - rewrite Z.shiftl_spec_low by lia. apply andb_false_r.
    - rewrite <- (Z.mod_small a (2 ^ k)) by lia.
      rewrite Z.mod_pow2_bits_high by lia. reflexivity. }
  rewrite (Z.add_nocarry_lxor _ _ Hd). symmetry. now apply Z.lxor_lor.
Qed.

Lemma swab32_bytes (b0 b1 b2 b3 : Z) :
  is_byte b0 -> is_byte b1 -> is_byte b2 -> is_byte b3 ->
  swab32 (of_bytes4 b0 b1 b2 b3) = of_bytes4 b3 b2 b1 b0.
Proof.
  unfold is_byte, of_bytes4. intros H0 H1 H2 H3.
  set (w := b0 + 256 * b1 + 65536 * b2 + 16777216 * b3).
  assert (Hw : 0 <= w < 0x100000000) by (subst w; lia).
  assert (E3 : Z.shiftr (Z.land w 0xff000000) 24 = b3).
  { change 0xff000000 with (Z.shiftl (Z.ones 8) 24).
    rewrite land_mask, Z.shiftr_div_pow2 by lia.
    change (2 ^ 24) with 16777216. change (2 ^ 8) with 256.
    rewrite Z.div_mul by lia. subst w.
    replace (b0 + 256 * b1 + 65536 * b2 + 16777216 * b3)
      with (b0 + 256 * b1 + 65536 * b2 + b3 * 16777216) by lia.
    rewrite Z.div_add by lia. rewrite Z.div_small by lia.
    apply Z.mod_small. lia. }
  assert (E2 : Z.shiftr (Z.land w 0x00ff0000) 8 = b2 * 2 ^ 8).
  { change 0x00ff0000 with (Z.shiftl (Z.ones 8) 16).
    rewrite land_mask, Z.shiftr_div_pow2 by lia.
    change (2 ^ 16) with (256 * 256). change (2 ^ 8) with 256.
    rewrite Z.mul_assoc, Z.div_mul by lia. f_equal. subst w.
    replace (b0 + 256 * b1 + 65536 * b2 + 16777216 * b3)
      with (b0 + 256 * b1 + (b2 + 256 * b3) * (256 * 256)) by lia.
    rewrite Z.div_add by lia. rewrite (Z.div_small (b0 + 256 * b1)) by lia.
    replace (0 + (b2 + 256 * b3)) with (b2 + b3 * 256) by lia.
    rewrite Z.mod_add by lia. apply Z.mod_small. lia. }
  assert (E1 : u32 (Z.shiftl (Z.land w 0x0000ff00) 8) = b1 * 2 ^ 16).
  { change 0x0000ff00 with (Z.shiftl (Z.ones 8) 8).
    rewrite land_mask, Z.shiftl_mul_pow2 by lia.
    change (2 ^ 16) with 65536. change (2 ^ 8) with 256.
    assert (Hb : (w / 256) mod 256 = b1).
    { subst w.
      replace (b0 + 256 * b1 + 65536 * b2 + 16777216 * b3)
        with (b0 + (b1 + 256 * b2 + 65536 * b3) * 256) by lia.
      rewrite Z.div_add by lia. rewrite (Z.div_small b0) by lia.
      replace (0 + (b1 + 256 * b2 + 65536 * b3))
        with (b1 + (b2 + 256 * b3) * 256) by lia.
      rewrite Z.mod_add by lia. apply Z.mod_small. lia. }
    rewrite Hb. unfold u32. rewrite Z.mod_small by lia. lia. }
  assert (E0 : u32 (Z.shiftl (Z.land w 0x000000ff) 24) = b0 * 2 ^ 24).
  { change 0x000000ff with (Z.ones 8).
    rewrite Z.land_ones, Z.shiftl_mul_pow2 by lia.
    change (2 ^ 24) with 16777216. change (2 ^ 8) with 256.
    assert (Hb : w mod 256 = b0).
    { subst w.
      replace (b0 + 256 * b1 + 65536 * b2 + 16777216 * b3)
        with (b0 + (b1 + 256 * b2 + 65536 * b3) * 256) by lia.
      rewrite Z.mod_add by lia. apply Z.mod_small. lia. }
    rewrite Hb. unfold u32. rewrite Z.mod_small by lia. lia. }
  unfold swab32. rewrite E3, E2, E1, E0.
  rewrite (@lor_add_shift b3 b2 8) by (change (2 ^ 8) with 256; lia).
  rewrite (@lor_add_shift (b3 + b2 * 2 ^ 8) b1 16)
    by (change (2 ^ 8) with 256; change (2 ^ 16) with 65536; lia).
  rewrite (@lor_add_shift (b3 + b2 * 2 ^ 8 + b1 * 2 ^ 16) b0 24)
    by (change (2 ^ 8) with 256; change (2 ^ 16) with 65536;
        change (2 ^ 24) with 16777216; lia).
  change (2 ^ 8) with 256. change (2 ^ 16) with 65536. change (2 ^ 24) with 16777216.
  lia.
Qed.

Lemma swab16_bytes (b0 b1 : Z) :
  is_byte b0 -> is_byte b1 -> swab16 (of_bytes2 b0 b1) = of_bytes2 b1 b0.
Proof.
  unfold is_byte, of_bytes2. intros H0 H1.
  set (w := b0 + 256 * b1).
  assert (E1 : Z.land (Z.shiftr w 8) 0xff = b1).
  { change 0xff with (Z.ones 8). rewrite Z.land_ones, Z.shiftr_div_pow2 by lia.
    change (2 ^ 8) with 256. subst w.
    replace (b0 + 256 * b1) with (b0 + b1 * 256) by lia.
    rewrite Z.div_add by lia. rewrite Z.div_small by lia.
    apply Z.mod_small. lia. }
  unfold swab16. rewrite E1, Z.shiftl_mul_pow2, Z.lor_comm by lia.
  rewrite (@lor_add_shift b1 w 8) by (change (2 ^ 8) with 256; lia).
  change (2 ^ 8) with 256. unfold u16. subst w.
  replace (b1 + (b0 + 256 * b1) * 256) with (b1 + 256 * b0 + b1 * 65536) by lia.
  rewrite Z.mod_add by lia. apply Z.mod_small. lia.
Qed.

Lemma bytes4_of (w : Z) :
  0 <= w < 0x100000000 ->
  exists b0 b1 b2 b3,
    is_byte b0 /\ is_byte b1 /\ is_byte b2 /\ is_byte b3 /\ w = of_bytes4 b0 b1 b2 b3.
Proof.
  intros Hw. exists (w mod 256), (w / 256 mod 256), (w / 65536 mod 256), (w / 16777216).
  unfold is_byte, of_bytes4.
  pose proof (Z.div_mod w 256 ltac:(lia)).
  pose proof (Z.div_mod (w / 256) 256 ltac:(lia)).
  pose proof (Z.div_mod (w / 65536) 256 ltac:(lia)).
  pose proof (Z.mod_pos_bound w 256 ltac:(lia)).
  pose proof (Z.mod_pos_bound (w / 256) 256 ltac:(lia)).
  pose proof (Z.mod_pos_bound (w / 65536) 256 ltac:(lia)).
  assert (w / 256 / 256 = w / 65536) by (rewrite Z.div_div by lia; reflexivity).
  assert (w / 65536 / 256 = w / 16777216) by (rewrite Z.div_div by lia; reflexivity).
  assert (0 <= w / 16777216 < 256)
    by (split; [apply Z.div_pos; lia | apply Z.div_lt_upper_bound; lia]).
  repeat split; lia.
Qed.

Lemma bytes2_of (w : Z) :
  0 <= w < 0x10000 ->
  exists b0 b1, is_byte b0 /\ is_byte b1 /\ w = of_bytes2 b0 b1.
Proof.
  intros Hw. exists (w mod 256), (w / 256). unfold is_byte, of_bytes2.
  pose proof (Z.div_mod w 256 ltac:(lia)).
  pose proof (Z.mod_pos_bound w 256 ltac:(lia)).
  assert (0 <= w / 256 < 256)
    by (split; [apply Z.div_pos; lia | apply Z.div_lt_upper_bound; lia]).
  repeat split; lia.
Qed.

(** X18. [swab32] reverses the four bytes of a [u32]: the number of bytes
    b0 (lowest) to b3 becomes the number of bytes b3 to b0.  So it is its
    own inverse on [u32], its result is a [u32], and [cpu_to_le32] and
    [le32_to_cpu] undo each other in both byte orders. *)
Theorem swab32_reverses (w : Z) :
  0 <= w < 0x100000000 ->
  (forall b0 b1 b2 b3,
     is_byte b0 -> is_byte b1 -> is_byte b2 -> is_byte b3 ->
     w = of_bytes4 b0 b1 b2 b3 -> swab32 w = of_bytes4 b3 b2 b1 b0) /\
  0 <= swab32 w < 0x100000000 /\
  swab32 (swab32 w) = w /\
  (forall bo, le32_to_cpu bo (cpu_to_le32 bo w) = w /\
              cpu_to_le32 bo (le32_to_cpu bo w) = w).
Proof.
  intros Hw.
  destruct (bytes4_of Hw) as (b0 & b1 & b2 & b3 & H0 & H1 & H2 & H3 & ->).
  assert (Hinv : swab32 (swab32 (of_bytes4 b0 b1 b2 b3)) = of_bytes4 b0 b1 b2 b3)
    by (rewrite !swab32_bytes; auto).
  split; [|split; [|split]].
  - intros c0 c1 c2 c3 G0 G1 G2 G3 ->. now apply swab32_bytes.
  - rewrite swab32_bytes by auto. unfold is_byte, of_bytes4 in *. lia.
  - exact Hinv.
  - intros [|]; simpl; auto.
Qed.

(** X19. [swab16] exchanges the two bytes of a [word]; it is its own
    inverse on [word], its result is a [word], and [cpu_to_le16] and
    [le16_to_cpu] undo each other in both byte orders. *)
Theorem swab16_reverses (w : Z) :
  0 <= w < 0x10000 ->
  (forall b0 b1, is_byte b0 -> is_byte b1 ->
     w = of_bytes2 b0 b1 -> swab16 w = of_bytes2 b1 b0) /\
  0 <= swab16 w < 0x10000 /\
  swab16 (swab16 w) = w /\
  (forall bo, le16_to_cpu bo (cpu_to_le16 bo w) = w /\
              cpu_to_le16 bo (le16_to_cpu bo w) = w).
Proof.
  intros Hw.
  destruct (bytes2_of Hw) as (b0 & b1 & H0 & H1 & ->).
  assert (Hinv : swab16 (swab16 (of_bytes2 b0 b1)) = of_bytes2 b0 b1)
    by (rewrite !swab16_bytes; auto).
  split; [|split; [|split]].
  - intros c0 c1 G0 G1 ->. now apply swab16_bytes.
  - rewrite swab16_bytes by auto. unfold is_byte, of_bytes2 in *. lia.
  - exact Hinv.
  - intros [|]; simpl; auto.
Qed.

End ByteSwaps.

(** ** The pointers of the parser *)

Section ParserPointers.

Context {P : Platform} {L : PciLib}.

(** X7. Two pointers that the parser uses unchecked are never NULL where
    they are used.  [parse_ops] reads [selected_devices[0]] only after
    [select_devices] has built a vector: an operation token before any
    filter is [usage(NULL)].  The loop over the values of [parse_op] calls
    [strchr(value, ',')] once for each value counted, and [value] becomes
    NULL only after the last of them.  Nor does [parse_options] have such a
    use. *)
Theorem parse_never_null (fl : flags) (devices : list pci_dev) (junk : nat -> string)
    (args : list string) :
  parse_ops fl devices junk args <> Err Undefined /\
  parse_options args <> Err Undefined /\
  (forall c rest, is_filter_token c = false ->
     parse_ops fl devices junk (c :: rest) = Err UsageNoMessage).
Proof.
  split; [|split].
  - unfold parse_ops.
    pose proof (@parse_ops_loop_defined P L fl devices junk args parser_init
                  ltac:(discriminate)) as Hl.
    destruct (parse_ops_loop fl devices junk parser_init args) as [p|e]; simpl;
      [|congruence].
    destruct (state p); discriminate.
  - unfold parse_options. destruct args as [|only [|x rest]];
      try apply parse_options_loop_defined.
    destruct (String.eqb only "--version"); [discriminate|].
    apply parse_options_loop_defined.
  - intros c rest Hc. unfold parse_ops. simpl. rewrite Hc. reflexivity.
Qed.

Lemma split_at_none (c : ascii) (s : string) :
  count_char c s = O -> split_at c s = (s, None).
Proof.
  induction s as [|a s IH]; [reflexivity|]. simpl.
  destruct (Ascii.eqb a c); [discriminate|].
  intros H. now rewrite (IH H).
Qed.

Lemma split_at_append (c : ascii) (t1 t2 : string) :
  count_char c t1 = O -> split_at c (t1 ++ String c t2) = (t1, Some t2).
Proof.
  induction t1 as [|a t1 IH]; simpl.
  - intros _. now rewrite Ascii.eqb_refl.
  - destruct (Ascii.eqb a c); [discriminate|].
    intros H. now rewrite (IH H).
Qed.

(** X20. The pointer [f] of [parse_op].  [parse_x32] stores to it only
    when it stops before the end of a value, so it is read before it is
    set only when the first value is a number and nothing else: a token with
    no [=] does not depend on what [f] holds at the start, and neither does
    a value that [parse_x32] reads in part.  As it is not reset between the
    values, a value that is a number and nothing else is read with the
    pointer of the value before: after a value with a mask, a value with no
    mask is stored under that same mask. *)
Theorem pointer_f (lim : Z) :
  (forall c vec f0 f0' ops,
     snd (split_at "=" c) = None ->
     parse_op c vec f0 ops = parse_op c vec f0' ops) /\
  (forall f f' text,
     (forall l, parse_x32 text <> X32_full l) ->
     parse_value lim f text = parse_value lim f' text) /\
  (forall f0 t1 l1 m mm t2 l2,
     parse_x32 t1 = X32_partial l1 (String ":" m) ->
     parse_x32 m = X32_full mm ->
     parse_x32 t2 = X32_full l2 ->
     count_char "," t1 = O -> count_char "," t2 = O ->
     out_of_range lim l1 = false -> out_of_range lim mm = false ->
     out_of_range lim l2 = false ->
     parse_values 2 lim f0 (Some (t1 ++ String "," t2))
     = Ok [{| v_value := Z.land l1 mm; v_mask := mm |};
           {| v_value := Z.land l2 mm; v_mask := mm |}]).
Proof.
  split; [|split].
  - intros c vec f0 f0' ops Hc. unfold parse_op.
    destruct (split_at "=" c) as [b0 value_text]. simpl in Hc. subst value_text.
    destruct (split_at "." b0) as [b1 width_text].
    destruct (split_at "+" b1) as [base offset]. reflexivity.
  - intros f f' text Hn. unfold parse_value.
    destruct (parse_x32 text) as [|l rest|l]; [reflexivity | reflexivity|].
    exfalso. now apply (Hn l).
  - intros f0 t1 l1 m mm t2 l2 H1 Hm H2 Hc1 Hc2 Ho1 Hom Ho2.
    simpl parse_values. rewrite (@split_at_append "," t1 t2 Hc1).
    unfold parse_value at 1. rewrite H1. simpl. rewrite Ho1, Hm, Hom. simpl.
    rewrite (@split_at_none "," t2 Hc2).
    unfold parse_value. rewrite H2. simpl. rewrite Ho2, Hm, Hom. reflexivity.
Qed.

End ParserPointers.

(** ** A read, from the command line to the output *)

Section ReadCommand.

Context {P : Platform} {L : PciLib}.

(** A read with no capability and without [-v], on one device. *)
Lemma read_op_quiet (fl : flags) (o : op) (d : pci_dev) (s : run_state) :
  verbose fl = 0 -> values o = [] -> cap o = 0 ->
  valid_width (width o) -> 0 <= addr o -> addr o + width o <= 0x1000 ->
  exec_op fl o d s
  = (Ok tt, {| space := space s;
               trace := (trace s ++ read_line (width o) (addr o) s d)%list |}).
Proof.
  intros Hv Hval Hcap Hw Ha Hfit.
  assert (Hq : forall m, when_verbose fl m = ret tt)
    by (intros m; unfold when_verbose; now rewrite Hv).
  assert (Hloc : forall s0, locate fl o d s0 = (Ok 0, s0))
    by (intros s0; unfold locate; rewrite Hcap; reflexivity).
  unfold exec_op, rbind. rewrite Hq. unfold ret at 1. cbv beta iota.
  rewrite Hloc.
  unfold exec_at, rbind. rewrite !Hq. unfold ret. cbv beta iota.
  unfold num_values. rewrite Hval. simpl negb. cbv iota.
  rewrite (i32_width Hw). change (0 + addr o) with (addr o).
  rewrite (@i32_small (addr o)) by (destruct Hw as [H | [H | H]]; rewrite H in Hfit; lia).
  replace (0x1000 <? addr o + width o) with false by (symmetry; apply Z.ltb_ge; lia).
  unfold read_width, print_format, emit, read_line, digits_of, current.
  destruct Hw as [Hw | [Hw | Hw]]; rewrite Hw; simpl;
    rewrite <- ?app_assoc; reflexivity.
Qed.

Lemma read_schedule_quiet (fl : flags) (o : op) (devs : list pci_dev) :
  verbose fl = 0 -> values o = [] -> cap o = 0 ->
  valid_width (width o) -> 0 <= addr o -> addr o + width o <= 0x1000 ->
  forall s,
  run_schedule fl (map (fun d => (d, o)) devs) s
  = (Ok tt, {| space := space s;
               trace := (trace s
                         ++ flat_map (read_line (width o) (addr o) s) devs)%list |}).
Proof.
  intros Hv Hval Hcap Hw Ha Hfit. induction devs as [|d devs IH]; intros s.
  - simpl. rewrite app_nil_r. now destruct s.
  - simpl map. simpl run_schedule. unfold rbind.
    rewrite (@read_op_quiet fl o d s Hv Hval Hcap Hw Ha Hfit). rewrite IH. simpl.
    rewrite <- !app_assoc. reflexivity.
Qed.

Lemma flat_map_single {A B : Type} (g : A -> B) (l : list A) :
  flat_map (fun a => [g a]) l = map g l.
Proof. induction l as [|a l IH]; simpl; [reflexivity | now rewrite IH]. Qed.

(** X22. A read, end to end.  For the command line [-s SLOT REG], where
    the library accepts [SLOT] and [REG] is an operation with no value and
    no capability: [main] parses no option, builds one vector of the devices
    of [pacc->devices] that the filter matches, and for each of them, in the
    order of that list, reads the register once and prints the number under
    the format of the width and a new line.  It prints and reads nothing
    else, writes nothing and returns 0. *)
Theorem read_command (junk : nat -> string) (devices : list pci_dev)
    (slot tok : string) (f : pci_filter) (o : op) (s : run_state) :
  find_option GENERIC_OPTIONS "s" = None ->
  is_filter_token tok = false ->
  pci_filter_parse_slot pci_filter_init slot = inr f ->
  parse_op tok {| vec_addr := 0;
                  vec_devs := List.filter (pci_filter_match f) devices |}
    (junk O) [] = Ok [o] ->
  values o = [] -> cap o = 0 ->
  main junk devices ["-s"; slot; tok] s
  = (Ok tt,
     {| space := space s;
        trace := (trace s
                  ++ flat_map (read_line (width o) (addr o) s)
                       (List.filter (pci_filter_match f) devices))%list |}).
Proof.
  intros Hopt Htok Hslot Hop Hval Hcap.
  destruct (parse_op_checked _ _ _ _ Hop) as (o' & Heq & Hvec & Hc).
  assert (o' = o) by (simpl in Heq; now inversion Heq). subst o'.
  assert (Hn : num_values o < 0x3FFFFC00) by (unfold num_values; rewrite Hval; simpl; lia).
  pose proof (checked_fits Hc Hn) as Hfit.
  destruct Hc as (Hw & Ha & _).
  unfold num_values in Hfit. rewrite Hval in Hfit.
  change (Z.max 1 (Z.of_nat (List.length (@nil value)))) with 1 in Hfit.
  rewrite Z.mul_1_r in Hfit.
  assert (Hoptions : parse_options ["-s"; slot; tok] = Ok (no_flags, ["-s"; slot; tok])).
  { unfold parse_options. fold no_flags. rewrite parse_options_loop_dash.
    simpl parse_option_chars. rewrite Hopt. reflexivity. }
  assert (Hops : parse_ops no_flags devices junk ["-s"; slot; tok]
                 = Ok {| state := STATE_GOT_OP; filter := f;
                         selected_devices :=
                           Some {| vec_addr := 0;
                                   vec_devs := List.filter (pci_filter_match f) devices |};
                         first_op := [o];
                         heap := [{| vec_addr := 0;
                                     vec_devs := List.filter (pci_filter_match f) devices |}];
                         warnings :=
                           match List.filter (pci_filter_match f) devices with
                           | [] => [tok]
                           | _ :: _ => []
                           end |}).
  { unfold parse_ops. simpl parse_ops_loop.
    unfold filter_token. simpl state. cbv iota.
    unfold parse_filter. simpl. rewrite Hslot. simpl.
    rewrite Htok. unfold op_token. simpl state. cbv iota.
    unfold select_devices. simpl heap. simpl filter. simpl List.length.
    rewrite copy_matches_filter. cbv beta iota zeta. simpl first_op.
    rewrite Hop. simpl.
    destruct (List.filter (pci_filter_match f) devices); reflexivity. }
  unfold main. rewrite Hoptions. simpl bind. cbv beta iota.
  rewrite Hops. simpl bind. cbv beta iota. simpl first_op.
  rewrite execute_schedule.
  assert (Hs : schedule [o] = map (fun d => (d, o))
                                (List.filter (pci_filter_match f) devices)).
  { unfold schedule. simpl. rewrite app_nil_r. rewrite Hvec. simpl.
    apply flat_map_single. }
  rewrite Hs.
  apply read_schedule_quiet;
    [reflexivity | exact Hval | exact Hcap | exact Hw | apply Ha | exact Hfit].
Qed.

End ReadCommand.

(** ** The names of the table as operations *)

Section TableNames.

Context {P : Platform}.

Lemma count_char_append (c : ascii) (a b : string) :
  count_char c (a ++ b) = (count_char c a + count_char c b)%nat.
Proof.
  induction a as [|x a IH]; simpl; [reflexivity|]. rewrite IH. lia.
Qed.

(** A name of the table with an optional width suffix, as [parse_op] reads
    it. *)
Lemma parse_op_name (n : string) (r : reg_name) (suffix : option string) (w0 w : Z)
    (vec : vector) (f0 : string) (ops : list op) :
  count_char "=" n = O -> count_char "." n = O -> count_char "+" n = O ->
  parse_reg_name n = Some r ->
  match suffix with
  | Some t => count_char "=" t = O
  | None => True
  end ->
  width_suffix suffix = Ok w0 ->
  w = (if negb (rn_width r =? 0) && (w0 =? 0) then rn_width r else w0) ->
  parse_op (n ++ match suffix with Some t => String "." t | None => EmptyString end)
    vec f0 ops
  = if w =? 0 then Err MissingWidth
    else match check_range (reads_as vec r w) 0 with
         | Ok _ => Ok (ops ++ [reads_as vec r w])%list
         | Err e => Err e
         end.
Proof.
  intros Heq Hdot Hplus Hr Hsuf Hw0 Hw.
  pose proof (names_not_numbers _ Hr) as Hnum.
  unfold parse_op.
  assert (Hs1 : split_at "=" (n ++ match suffix with
                                   | Some t => String "." t
                                   | None => EmptyString
                                   end)
                = (n ++ match suffix with
                        | Some t => String "." t
                        | None => EmptyString
                        end, None)).
  { apply split_at_none. rewrite count_char_append, Heq.
    destruct suffix as [t|]; simpl; [exact Hsuf | reflexivity]. }
  assert (Hs2 : split_at "." (n ++ match suffix with
                                   | Some t => String "." t
                                   | None => EmptyString
                                   end) = (n, suffix)).
  { destruct suffix as [t|].
    - now apply split_at_append.
    - rewrite append_nil_r. now apply split_at_none. }
  rewrite Hs1, Hs2, (@split_at_none "+" n Hplus). simpl count_values. simpl bind at 1.
  cbv beta. rewrite Hw0. simpl bind at 1. cbv beta.
  unfold parse_register.
  assert (Hx : forall X (a : Z -> X) (b : X),
            match parse_x32 n with X32_full l => a l | _ => b end = b).
  { intros X a b. destruct (parse_x32 n) as [| |l] eqn:E; auto.
    exfalso. exact (Hnum l E). }
  rewrite Hx, Hr. simpl bind. cbv beta iota. simpl width. rewrite <- Hw.
  destruct (w =? 0); [reflexivity|].
  unfold add_offset, set_reg. simpl.
  change {| dev_vector := vec; cap := rn_cap r; addr := rn_offset r; width := w;
            values := [] |} with (reads_as vec r w).
  destruct (check_range (reads_as vec r w) 0) as [[]|e]; reflexivity.
Qed.

(** X23. The names of the table as operations.  Every name of the table,
    in any letter case, finds its own entry (no two names are the same up
    to letter case), and the register of every entry passes the checks of
    range and alignment.  So the name of an entry that has a width is, by
    itself, a read of that register with that width; the name of an entry
    that has none (the capabilities) is refused for its missing width by
    itself, and with the suffix [.B], [.W] or [.L] it is a read at offset 0
    of the capability. *)
Theorem table_names (r : reg_name) (name : string) (vec : vector) (f0 : string)
    (ops : list op) :
  In r pci_reg_names -> lower name = lower (rn_name r) ->
  parse_reg_name name = Some r /\
  (rn_width r <> 0 ->
     parse_op name vec f0 ops = Ok (ops ++ [reads_as vec r (rn_width r)])%list) /\
  (rn_width r = 0 ->
     parse_op name vec f0 ops = Err MissingWidth /\
     parse_op (name ++ ".B") vec f0 ops = Ok (ops ++ [reads_as vec r 1])%list /\
     parse_op (name ++ ".W") vec f0 ops = Ok (ops ++ [reads_as vec r 2])%list /\
     parse_op (name ++ ".L") vec f0 ops = Ok (ops ++ [reads_as vec r 4])%list).
Proof.
  intros Hin Hname.
  pose proof (proj1 (forallb_forall _ _) pci_reg_names_usable r Hin) as Hu.
  unfold entry_usable in Hu.
  apply andb_prop in Hu. destruct Hu as [Hu Hrange].
  apply andb_prop in Hu. destruct Hu as [Hu Hfind].
  apply andb_prop in Hu. destruct Hu as [Hu Hplus].
  apply andb_prop in Hu. destruct Hu as [Heq Hdot].
  apply Nat.eqb_eq in Heq, Hdot, Hplus.
  assert (Hr : parse_reg_name (rn_name r) = Some r).
  { unfold parse_reg_name. destruct (find_reg_name pci_reg_names (rn_name r)) as [r'|];
      [|discriminate]. apply reg_name_eqb_eq in Hfind. now subst r'. }
  assert (Hchk : forall w vec',
            In w (if rn_width r =? 0 then [1; 2; 4] else [rn_width r]) ->
            check_range (reads_as vec' r w) 0 = Ok tt).
  { intros w vec' Hw. pose proof (proj1 (forallb_forall _ _) Hrange w Hw) as Hc.
    cbv beta in Hc. unfold check_range in *. simpl in *.
    destruct (_ || _); [discriminate|]. destruct (negb _); [discriminate | reflexivity]. }
  assert (Hexact : forall suffix w0 w,
            match suffix with Some t => count_char "=" t = O | None => True end ->
            width_suffix suffix = Ok w0 ->
            w = (if negb (rn_width r =? 0) && (w0 =? 0) then rn_width r else w0) ->
            w <> 0 ->
            In w (if rn_width r =? 0 then [1; 2; 4] else [rn_width r]) ->
            parse_op (name ++ match suffix with
                              | Some t => String "." t
                              | None => EmptyString
                              end) vec f0 ops
            = Ok (ops ++ [reads_as vec r w])%list).
  { intros suffix w0 w Hsuf Hw0 Hw Hnz Hwin.
    pose proof (@parse_op_name (rn_name r) r suffix w0 w vec f0 ops
                  Heq Hdot Hplus Hr Hsuf Hw0 Hw) as Hop.
    apply Z.eqb_neq in Hnz. rewrite Hnz, (Hchk w vec Hwin) in Hop.
    assert (Hcase : lower (name ++ match suffix with
                                   | Some t => String "." t
                                   | None => EmptyString
                                   end)
                    = lower (rn_name r ++ match suffix with
                                          | Some t => String "." t
                                          | None => EmptyString
                                          end)).
    { clear - Hname. revert Hname. generalize (rn_name r). intros m.
      revert m. induction name as [|a name IH]; intros [|b m] H; simpl in *;
        try discriminate; [reflexivity|].
      inversion H. f_equal. now apply IH. }
    pose proof (@parse_op_same_case _ _ _ vec f0 ops Hcase) as Hsame.
    rewrite Hop in Hsame. unfold lower_result in Hsame.
    match goal with
    | |- ?p = _ => destruct p as [x|e]; [exact Hsame | discriminate Hsame]
    end. }
  split; [|split].
  - rewrite <- (parse_reg_name_lower name), Hname, parse_reg_name_lower. exact Hr.
  - intros Hw. apply Z.eqb_neq in Hw.
    rewrite <- (append_nil_r name).
    apply (Hexact None 0 (rn_width r)); auto.
    + now rewrite Hw.
    + now apply Z.eqb_neq.
    + rewrite Hw. now left.
  - intros Hw. split; [|split; [|split]].
    + pose proof (@parse_op_name (rn_name r) r None 0 0 vec f0 ops
                    Heq Hdot Hplus Hr I eq_refl) as Hop.
      rewrite Hw in Hop. specialize (Hop eq_refl). simpl in Hop.
      rewrite append_nil_r in Hop.
      pose proof (@parse_op_same_case P (rn_name r) name vec f0 ops Hname) as Hsame.
      rewrite Hop in Hsame. unfold lower_result in Hsame.
      destruct (parse_op name vec f0 ops) as [x|e]; [discriminate|].
      destruct e; simpl in Hsame; congruence.
    + apply (Hexact (Some "B") 1 1); auto; try reflexivity.
      * rewrite Hw. reflexivity.
      * discriminate.
      * rewrite Hw. simpl. auto.
    + apply (Hexact (Some "W") 2 2); auto; try reflexivity.
      * rewrite Hw. reflexivity.
      * discriminate.
      * rewrite Hw. simpl. auto.
    + apply (Hexact (Some "L") 4 4); auto; try reflexivity.
      * rewrite Hw. reflexivity.
      * discriminate.
      * rewrite Hw. simpl. auto.
Qed.

End TableNames.

(** ** Registers given by their address *)

Section NumericRegisters.

Context {P : Platform}.

Lemma hex_digits_clean (c : ascii) (s : string) :
  hex_value c = None ->
  forall acc n, hex_digits_value acc s = Some n -> count_char c s = O.
Proof.
  intros Hc. induction s as [|a s IH]; intros acc n H; [reflexivity|].
  simpl in *. destruct (hex_value a) as [d|] eqn:Ea; [|discriminate].
  destruct (Ascii.eqb a c) eqn:E.
  - apply Ascii.eqb_eq in E. subst a. congruence.
  - simpl. eapply IH; eauto.
Qed.

Lemma hex_number_clean (c : ascii) (s : string) (n : Z) :
  hex_value c = None -> hex_number s = Some n -> count_char c s = O.
Proof.
  intros Hc H. destruct s as [|a s]; [reflexivity|].
  unfold hex_number in H. eapply hex_digits_clean; eauto.
Qed.

(** A suffix that gives a width is one character that is no [=], and the
    width is 1, 2 or 4. *)
Lemma width_suffix_some (sfx : string) (w : Z) :
  width_suffix (Some sfx) = Ok w -> valid_width w /\ count_char "=" sfx = O.
Proof.
  intros H. split.
  - destruct (width_suffix_ok _ H) as [-> | Hv]; [|exact Hv].
    exfalso. destruct sfx as [|a [|b t]]; try discriminate. simpl in H.
    destruct (Z.land (code a) 223) as [|p|p]; try discriminate.
    do 7 (destruct p as [p|p|]; try discriminate).
  - destruct sfx as [|a [|b t]]; try discriminate. simpl.
    destruct (Ascii.eqb a "=") eqn:E; [|reflexivity].
    apply Ascii.eqb_eq in E. subst a. discriminate.
Qed.

(** X24. A register given by its address.  For a base of hexadecimal
    digits, an optional offset of hexadecimal digits after [+] and a width
    suffix: [parse_op] refuses an offset of 0x1000 or more with [die("Invalid
    offset ...")]; otherwise the register is the base, or the base plus the
    offset in [unsigned int], and the token is a read of that register
    under the width of the suffix once it has passed the checks of range
    and alignment.  Without a width suffix the token is refused for its
    missing width, whatever the offset. *)
Theorem numeric_register (s : string) (a : Z) (offset : option (string * Z))
    (sfx : string) (w : Z) (vec : vector) (f0 : string) (ops : list op) :
  hex_number s = Some a -> a <= UINT_MAX ->
  match offset with
  | Some (t, off) => hex_number t = Some off /\ off <= UINT_MAX
  | None => True
  end ->
  width_suffix (Some sfx) = Ok w ->
  parse_op ((s ++ offset_text offset) ++ String "." sfx) vec f0 ops
  = match offset with
    | Some (t, off) =>
        if 0x1000 <=? off then Err (InvalidOffset t)
        else checked_read (read_at vec (register_address a offset) w) ops
    | None => checked_read (read_at vec (register_address a offset) w) ops
    end /\
  parse_op (s ++ offset_text offset) vec f0 ops = Err MissingWidth.
Proof.
  intros Hs Ha Hoff Hsfx.
  destruct (width_suffix_some _ Hsfx) as [Hw Hsfx_eq].
  assert (Hwnz : (w =? 0) = false)
    by (apply Z.eqb_neq; destruct Hw as [-> | [-> | ->]]; discriminate).
  assert (Hclean : forall c, hex_value c = None ->
            count_char c (s ++ offset_text offset)
            = match offset with
              | Some _ => if Ascii.eqb "+" c then 1%nat else O
              | None => O
              end).
  { intros c Hc. rewrite count_char_append, (hex_number_clean c _ Hc Hs).
    destruct offset as [[t off]|]; [|reflexivity]. destruct Hoff as [Ht _].
    simpl. rewrite (hex_number_clean c _ Hc Ht). now rewrite Nat.add_0_r. }
  assert (Hplus : split_at "+" (s ++ offset_text offset)
                  = (s, option_map fst offset)).
  { destruct offset as [[t off]|]; simpl.
    - apply split_at_append. eapply hex_number_clean; eauto.
    - rewrite append_nil_r. apply split_at_none. eapply hex_number_clean; eauto. }
  assert (Hreg : forall w0,
            parse_register
              {| dev_vector := vec; cap := 0; addr := 0; width := w0; values := [] |} s
            = Ok {| dev_vector := vec; cap := 0; addr := a; width := w0; values := [] |}).
  { intros w0. unfold parse_register. rewrite (parse_x32_hex_number _ Hs Ha). reflexivity. }
  split.
  - unfold parse_op.
    rewrite (@split_at_none "=" ((s ++ offset_text offset) ++ String "." sfx)).
    2: { rewrite count_char_append, (Hclean "="%char eq_refl). simpl. rewrite Hsfx_eq.
         now destruct offset. }
    rewrite (@split_at_append "." (s ++ offset_text offset) sfx).
    2: { rewrite (Hclean "."%char eq_refl). now destruct offset. }
    rewrite Hplus. cbn [count_values bind].
    rewrite Hsfx. cbn [bind]. rewrite Hreg. cbn [bind width]. rewrite Hwnz.
    destruct offset as [[t off]|]; cbn [option_map fst]; unfold add_offset.
    + destruct Hoff as [Ht Hoff]. rewrite (parse_x32_hex_number _ Ht Hoff).
      destruct (0x1000 <=? off); [reflexivity|].
      cbn [bind]. unfold set_reg, checked_read, read_at. simpl.
      destruct (check_range _ 0) as [[]|e]; reflexivity.
    + cbn [bind]. unfold checked_read, read_at. simpl.
      destruct (check_range _ 0) as [[]|e]; reflexivity.
  - unfold parse_op.
    rewrite (@split_at_none "=" (s ++ offset_text offset)).
    2: { rewrite (Hclean "="%char eq_refl). now destruct offset. }
    rewrite (@split_at_none "." (s ++ offset_text offset)).
    2: { rewrite (Hclean "."%char eq_refl). now destruct offset. }
    rewrite Hplus. cbn [count_values width_suffix bind]. rewrite Hreg. reflexivity.
Qed.

End NumericRegisters.

(** ** Values with masks *)

Section MaskedValues.

Context {P : Platform}.

Lemma digits_stop (c : ascii) (r : string) (v : string) :
  hex_value c = None ->
  forall acc seen n,
  hex_digits_value acc v = Some n ->
  digits acc seen (v ++ String c r)
  = (n, match v with EmptyString => seen | _ => true end, String c r).
Proof.
  intros Hc. induction v as [|a v IH]; intros acc seen n H; simpl in *.
  - inversion H; subst. now rewrite Hc.
  - destruct (hex_value a) as [d|]; [|discriminate].
    rewrite (IH _ true _ H). now destruct v.
Qed.

(** A number before a colon: [parse_x32] stops at the colon. *)
Lemma parse_x32_masked (v m : string) (l : Z) :
  hex_number v = Some l -> l <= UINT_MAX ->
  parse_x32 (v ++ String ":" m) = X32_partial l (String ":" m).
Proof.
  destruct v as [|a v]; [discriminate|]. unfold hex_number. intros H Hl.
  pose proof (@hex_digits_value_nonneg _ 0 l (Z.le_refl 0) H) as Hpos.
  pose proof (@digits_stop ":" m _ eq_refl 0 false l H) as Hd.
  assert (Ha : exists d, hex_value a = Some d).
  { simpl in H. destruct (hex_value a) as [d|]; [eauto | discriminate]. }
  destruct Ha as [d Ha]. destruct (hex_value_plain _ Ha) as (Hsp & Hm & Hp & _).
  assert (H0x : skip_0x (String a v ++ String ":" m) = (String a v ++ String ":" m)%string).
  { destruct v as [|b v]; simpl append.
    - destruct m as [|c m]; [reflexivity|]. unfold skip_0x.
      simpl orb. now rewrite andb_false_r.
    - simpl in H. rewrite Ha in H.
      destruct (hex_value b) as [y|] eqn:Eb; [|discriminate].
      destruct (hex_value_plain _ Eb) as (_ & _ & _ & Hx & HX).
      destruct (v ++ String ":" m)%string as [|c r] eqn:E; [reflexivity|].
      unfold skip_0x. rewrite Hx, HX. simpl orb. now rewrite andb_false_r. }
  pose proof ULONG_MAX_min as Hmin.
  unfold parse_x32, strtoul16. simpl append.
  replace (skip_space (String a (v ++ String ":" m)))
    with (String a (v ++ String ":" m)) by (simpl; now rewrite Hsp).
  replace (skip_sign (String a (v ++ String ":" m)))
    with (false, String a (v ++ String ":" m)) by (simpl; now rewrite Hm, Hp).
  simpl append in H0x, Hd. rewrite H0x, Hd. cbv beta iota.
  replace (ULONG_MAX <? l) with false by (symmetry; apply Z.ltb_ge; lia).
  simpl. rewrite land_uint_le by lia.
  replace (l <=? UINT_MAX) with true by (symmetry; apply Z.leb_le; lia).
  reflexivity.
Qed.

Lemma parse_value_masked (lim : Z) (f : string) (t : string * string) (n : Z * Z) :
  spells lim t n ->
  parse_value lim f (masked_text t) = Ok (stored n, String ":" (snd t)).
Proof.
  intros (Hv & Hvl & Hm & Hml & Hov & Hom).
  unfold parse_value, masked_text. rewrite (@parse_x32_masked (fst t) (snd t) (fst n) Hv Hvl).
  simpl. rewrite Hov, (parse_x32_hex_number _ Hm Hml), Hom. reflexivity.
Qed.

Lemma masked_text_clean (lim : Z) (t : string * string) (n : Z * Z) :
  spells lim t n -> count_char "," (masked_text t) = O /\ masked_text t <> EmptyString.
Proof.
  intros (Hv & _ & Hm & _). split.
  - unfold masked_text. rewrite count_char_append. simpl.
    rewrite (@hex_number_clean "," _ _ eq_refl Hv), (@hex_number_clean "," _ _ eq_refl Hm).
    reflexivity.
  - unfold masked_text. destruct (fst t); discriminate.
Qed.

Lemma values_text_commas (lim : Z) (texts : list (string * string)) (nums : list (Z * Z)) :
  Forall2 (spells lim) texts nums ->
  texts <> [] ->
  S (count_char "," (values_text texts)) = List.length texts /\
  values_text texts <> EmptyString.
Proof.
  induction 1 as [|t n texts nums Ht Hrest IH]; [contradiction|]. intros _.
  destruct (@masked_text_clean lim t n Ht) as [Hc Hne].
  destruct texts as [|t' texts].
  - simpl. rewrite Hc. auto.
  - destruct (IH ltac:(discriminate)) as [IHc _].
    change (values_text (t :: t' :: texts))
      with (masked_text t ++ String "," (values_text (t' :: texts)))%string.
    split.
    + rewrite count_char_append, Hc.
      change (count_char "," (String "," (values_text (t' :: texts))))
        with (S (count_char "," (values_text (t' :: texts)))).
      change (List.length (t :: t' :: texts)) with (S (List.length (t' :: texts))).
      lia.
    + destruct (masked_text t); [contradiction | discriminate].
Qed.

(** X25. Values that all have a mask.  For a list of one value or more,
    each a number, a colon and a number, both in range for the width and
    with commas between them: [parse_op] counts as many values as there
    are, and stores for each, in order, the mask as it is written and the
    value with the bits outside the mask cleared, whatever the pointer [f]
    held before. *)
Theorem masked_values (lim : Z) (f0 : string) (texts : list (string * string))
    (nums : list (Z * Z)) :
  Forall2 (spells lim) texts nums ->
  texts <> [] ->
  count_values (Some (values_text texts)) = Ok (List.length texts) /\
  parse_values (List.length texts) lim f0 (Some (values_text texts))
  = Ok (map stored nums).
Proof.
  intros Hall Hne. split.
  - destruct (@values_text_commas lim texts nums Hall Hne) as [Hc Hn].
    unfold count_values. destruct (values_text texts); [contradiction|].
    now rewrite <- Hc.
  - clear Hne. revert f0.
    induction Hall as [|t n texts nums Ht Hrest IH]; intros f0; [reflexivity|].
    destruct (@masked_text_clean lim t n Ht) as [Hc _].
    destruct texts as [|t' texts].
    + inversion Hrest; subst. simpl.
      rewrite (@split_at_none "," _ Hc), (@parse_value_masked lim f0 t n Ht). reflexivity.
    + change (values_text (t :: t' :: texts))
        with (masked_text t ++ String "," (values_text (t' :: texts)))%string.
      change (List.length (t :: t' :: texts)) with (S (List.length (t' :: texts))).
      cbn [parse_values].
      rewrite (@split_at_append "," _ (values_text (t' :: texts)) Hc).
      rewrite (@parse_value_masked lim f0 t n Ht). cbn [bind].
      rewrite (IH (String ":" (snd t))). reflexivity.
Qed.

End MaskedValues.

(** ** The properties on concrete command lines *)

(** C1 on [04.B=02:0f] over a byte 0xa5: the byte is read, 0xa2 is written. *)
Lemma masked_write_witness :
  accesses (new_events (exec_value Bench.quiet 1 Bench.d1 4 Bench.masked) Bench.start)
  = [Read Bench.d1 4 1; Write Bench.d1 4 1 0xa2].
Proof.
  destruct (@masked_write LP64 Bench.lib Bench.quiet 1 Bench.d1 4 Bench.masked
              eq_refl (or_introl eq_refl)) as (_ & H & _).
  apply (H ltac:(vm_compute; discriminate) Bench.start).
Defined.

(** C2 on two operations for bus 0 and one for bus 1. *)
Lemma execute_order_witness :
  schedule [Bench.opA; Bench.opB; Bench.opC]
  = [(Bench.d1, Bench.opA); (Bench.d1, Bench.opB);
     (Bench.d2, Bench.opA); (Bench.d2, Bench.opB); (Bench.d3, Bench.opC)].
Proof.
  apply (proj2 (proj2 (@execute_order Bench.lib Bench.quiet []))
           Bench.opA Bench.opB Bench.opC Bench.d1 Bench.d2
           eq_refl eq_refl eq_refl).
Defined.


(** C4 on [1001.W]: out of range. *)
Lemma range_and_alignment_witness :
  check_range Bench.odd 0 = Err RegisterOutOfRange.
Proof.
  apply (proj1 (@range_and_alignment LP64 Bench.odd 0
                  (or_intror (or_introl eq_refl)))).
  left. vm_compute. discriminate.
Defined.

(** C4 as it is stated fails on [1001.W]: the offset is odd, and the failure
    is the one of the range. *)
Lemma unaligned_counterexample :
  valid_width (width Bench.odd) /\
  addr Bench.odd mod width Bench.odd <> 0 /\
  check_range Bench.odd 0 <> Err Unaligned /\
  @parse_op LP64 "1001.W" Bench.vec0 EmptyString [] = Err RegisterOutOfRange.
Proof.
  split; [right; left; reflexivity|].
  split; [vm_compute; discriminate|].
  split; [vm_compute; discriminate | vm_compute; reflexivity].
Qed.

Lemma bench_find_range (s : @run_state Bench.lib) (d : pci_dev) (id : Z)
    (kind : cap_type) (a : Z) :
  @pci_find_cap Bench.lib (space s) d id kind = Some a -> 0 <= a < 0x7FFFF000.
Proof.
  simpl. unfold Bench.find. destruct kind; [|discriminate].
  destruct ((bus d =? 0) && (id =? 1)); [|discriminate].
  intros H; inversion H; subst. lia.
Qed.

(** C5 on [CAP_PM+4.W] for the device of bus 1, which has no such
    capability. *)
Lemma effective_address_witness :
  fst (exec_op Bench.quiet Bench.opC Bench.d3 Bench.start)
  = Err (CapabilityNotFound 0x10001) /\
  accesses (new_events (exec_op Bench.quiet Bench.opC Bench.d3) Bench.start)
  = [FindCap Bench.d3 1 PCI_CAP_NORMAL].
Proof.
  destruct (@effective_address Bench.lib Bench.quiet Bench.opC Bench.d3 Bench.start
              (or_intror (or_introl eq_refl))
              (conj (Zle_bool_imp_le 0 4 eq_refl) (proj1 (Z.ltb_lt 4 0x1000) eq_refl))
              (@bench_find_range Bench.start Bench.d3)) as (H & _).
  destruct (H 1 PCI_CAP_NORMAL eq_refl) as (_ & Hnone).
  exact (Hnone eq_refl).
Defined.

(** C7 on [-s 0 04.B]: the operation token builds the vector of the two
    devices of bus 0. *)
Lemma filter_and_vector_witness :
  exists vec o,
    heap (Bench.parsed ["-s"; "0"; "04.B"]) = [vec] /\
    vec_devs vec = [Bench.d1; Bench.d2] /\
    first_op (Bench.parsed ["-s"; "0"; "04.B"]) = [o] /\ dev_vector o = vec.
Proof.
  destruct (proj1 (proj2 (@filter_and_vector LP64 Bench.lib Bench.quiet Bench.devices
                            EmptyString (Bench.parsed ["-s"; "0"]) "04.B"))
              (Bench.parsed ["-s"; "0"; "04.B"]) eq_refl eq_refl)
    as (vec & o & Hh & _ & _ & Hd & _ & _ & _ & Ho & Hv).
  exists vec, o. split; [exact Hh|]. split; [exact Hd|]. split; [exact Ho | exact Hv].
Defined.

(** C7 as it is stated fails on [-s 0 -d 1f]: the second token refines the
    filter of the first, where a new filter would hold the device number
    only, and no vector has been built after either token. *)
Lemma filter_token_counterexample :
  @parse_ops_loop LP64 Bench.lib Bench.quiet Bench.devices Bench.no_junk
    (@parser_init Bench.lib) ["-s"; "0"; "-d"; "1f"]
  = Ok (Bench.parsed ["-s"; "0"; "-d"; "1f"]) /\
  state (Bench.parsed ["-s"; "0"; "-d"; "1f"]) = STATE_GOT_FILTER /\
  filter (Bench.parsed ["-s"; "0"; "-d"; "1f"])
  = ((Some 0, Some 0x1f) : @pci_filter Bench.lib) /\
  @parse_filter Bench.lib "-d" (Some "1f") (@pci_filter_init Bench.lib)
  = Ok ((None, Some 0x1f) : @pci_filter Bench.lib, true) /\
  heap (Bench.parsed ["-s"; "0"; "-d"; "1f"]) = [].
Proof. repeat split; vm_compute; reflexivity. Qed.



(** C9 on [-s 0 COMMAND=0006 CAP_PM+4.W]. *)
Lemma operation_widths_witness :
  Forall (fun o => valid_width (width o))
    (first_op (Bench.parsed ["-s"; "0"; "COMMAND=0006"; "CAP_PM+4.W"])).
Proof.
  exact (proj1 (@operation_widths LP64 Bench.lib Bench.quiet Bench.devices
                  Bench.no_junk ["-s"; "0"; "COMMAND=0006"; "CAP_PM+4.W"]
                  (Bench.parsed ["-s"; "0"; "COMMAND=0006"; "CAP_PM+4.W"]) eq_refl)).
Defined.

(** C10 on [-s 0 04.B -d 1f]. *)
Lemma trailing_filter_witness :
  @parse_ops LP64 Bench.lib Bench.quiet Bench.devices Bench.no_junk
    ["-s"; "0"; "04.B"; "-d"; "1f"]
  = Ok (Bench.parsed ["-s"; "0"; "04.B"; "-d"; "1f"]) /\
  heap (Bench.parsed ["-s"; "0"; "04.B"; "-d"; "1f"])
  = heap (Bench.parsed ["-s"; "0"; "04.B"]).
Proof.
  destruct (proj1 (proj2 (@trailing_filter LP64 Bench.lib Bench.quiet Bench.devices
                            Bench.no_junk))
              ["-s"; "0"; "04.B"] (Bench.parsed ["-s"; "0"; "04.B"]) "-d" ["1f"]
              (Bench.parsed ["-s"; "0"; "04.B"; "-d"; "1f"]) true
              eq_refl eq_refl eq_refl eq_refl eq_refl) as (H & _ & Hh & _).
  split; [exact H | exact Hh].
Defined.

(** ** The further properties on concrete inputs *)

(** X2 on [-vv -fD 04.B]. *)
Lemma flags_counted_witness :
  @parse_options Bench.lib ["-vv"; "-fD"; "04.B"]
  = Ok ({| force := 1; verbose := 2; demo_mode := 1 |}, ["04.B"]).
Proof.
  exact (proj2 (@flags_counted Bench.lib ["-vv"; "-fD"] ["04.B"]
                  (Forall_cons _ (ex_intro _ "vv" (conj eq_refl eq_refl))
                     (Forall_cons _ (ex_intro _ "fD" (conj eq_refl eq_refl))
                        (Forall_nil _)))
                  eq_refl)).
Defined.

(** X3 on [-v -s 0]: the filter is left for [parse_ops]. *)
Lemma options_end_witness :
  exists used, ["-v"; "-s"; "0"] = (used ++ ["-s"; "0"])%list.
Proof.
  exact (proj1 (@options_end Bench.lib no_flags
                  {| force := 0; verbose := 1; demo_mode := 0 |}
                  ["-v"; "-s"; "0"] ["-s"; "0"] eq_refl)).
Defined.

(** X4 on [-vs 0] and [-s 0]. *)
Lemma option_cluster_witness :
  @parse_options_loop Bench.lib no_flags ["-vs"; "0"] = Err UsageNoMessage /\
  @parse_options_loop Bench.lib no_flags ["-s"; "0"] = Ok (no_flags, ["-s"; "0"]).
Proof.
  split.
  - exact (@option_cluster Bench.lib no_flags "v" "s" "" ["0"] eq_refl eq_refl eq_refl).
  - exact (@option_cluster Bench.lib no_flags "" "s" "" ["0"] eq_refl eq_refl eq_refl).
Defined.

(** X5 on [-s0], [-s=0] and [-s 0]. *)
Lemma filter_spellings_witness :
  @parse_filter Bench.lib "-s0" None (@pci_filter_init Bench.lib)
  = @filter_call Bench.lib "s" (@pci_filter_init Bench.lib) "0" false /\
  @parse_filter Bench.lib "-s=0" None (@pci_filter_init Bench.lib)
  = @filter_call Bench.lib "s" (@pci_filter_init Bench.lib) "0" false /\
  @parse_filter Bench.lib "-s" (Some "0") (@pci_filter_init Bench.lib)
  = @filter_call Bench.lib "s" (@pci_filter_init Bench.lib) "0" true.
Proof.
  destruct (proj1 (@filter_spellings LP64 Bench.lib "-" "s" "0" None
                     (@pci_filter_init Bench.lib)) (or_introl eq_refl))
    as (H1 & H2 & _).
  destruct (proj1 (@filter_spellings LP64 Bench.lib "-" "s" "0" (Some "0")
                     (@pci_filter_init Bench.lib)) (or_introl eq_refl))
    as (_ & _ & H3 & _).
  split; [|split; [exact H2 | exact H3]].
  apply H1; [discriminate | intros r; discriminate].
Defined.

(** X6 on [-s 7 04.B], where no device is on bus 7. *)
Lemma force_silences_witness :
  List.length (warnings (Bench.parsed ["-s"; "7"; "04.B"]))
  = List.length (unselected (first_op (Bench.parsed ["-s"; "7"; "04.B"]))).
Proof.
  exact (proj1 (proj2 (proj1 (@force_silences LP64 Bench.lib Bench.devices Bench.no_junk
                                Bench.quiet Bench.quiet ["-s"; "7"; "04.B"])
                         (Bench.parsed ["-s"; "7"; "04.B"]) eq_refl))
           eq_refl).
Defined.

(** X8 on [command=1F] and [COMMAND=1f]. *)
Lemma operation_letter_case_witness :
  lower_result (@parse_op LP64 "command=1F" Bench.vec0 EmptyString [])
  = lower_result (@parse_op LP64 "COMMAND=1f" Bench.vec0 EmptyString []).
Proof.
  exact (proj1 (proj2 (@operation_letter_case LP64 "COMMAND=1f" Bench.vec0 EmptyString [])
                  "command=1F" eq_refl)).
Defined.

(** X10 on [-1]. *)
Lemma negative_literals_witness :
  @parse_x32 ILP32 "-1" = X32_full 0xFFFFFFFF /\ @parse_x32 LP64 "-1" = X32_error.
Proof.
  destruct (@negative_literals "1" 1 eq_refl (proj1 (Z.ltb_lt 0 1) eq_refl))
    as (H1 & H2 & _).
  split; [apply H1 | apply H2]; apply Zle_bool_imp_le; reflexivity.
Defined.

(** X12 on two reads. *)
Lemma read_only_run_witness :
  @commits_nothing Bench.lib unit (@execute Bench.lib Bench.quiet [Bench.opB; Bench.opC]).
Proof.
  exact (proj2 (@read_only_run Bench.lib Bench.quiet [Bench.opB; Bench.opC]) eq_refl).
Defined.

(** X13 on an operation for no device. *)
Lemma no_device_no_run_witness :
  execute Bench.quiet
    [{| dev_vector := {| vec_addr := 0; vec_devs := [] |};
        cap := 0; addr := 4; width := 1;
        values := [{| v_value := 1; v_mask := 0xFFFFFFFF |}] |}] Bench.start
  = (Ok tt, Bench.start).
Proof.
  refine (proj2 (@no_device_no_run Bench.lib Bench.quiet _ Bench.start _)).
  apply Forall_cons; [reflexivity | apply Forall_nil].
Defined.

(** X14 on [-s 0 04.B=1]. *)
Lemma plain_operations_run_witness :
  fst (execute Bench.quiet (first_op (Bench.parsed ["-s"; "0"; "04.B=1"])) Bench.start)
  = Ok tt.
Proof.
  apply (proj2 (@plain_operations_run LP64 Bench.lib Bench.quiet Bench.devices
                  Bench.no_junk ["-s"; "0"; "04.B=1"]
                  (Bench.parsed ["-s"; "0"; "04.B=1"]) eq_refl)).
  apply Forall_cons; [split; reflexivity | apply Forall_nil].
Defined.

(** X15 on [CAP_PM+4.W] for a device that has the capability at 0x40. *)
Lemma quiet_output_witness :
  output (new_events (exec_op Bench.quiet Bench.opB Bench.d1) Bench.start)
  = ["a5a5"; newline].
Proof.
  exact (proj1 (proj2 (proj2 (@quiet_output Bench.lib Bench.quiet eq_refl
                                Bench.opB Bench.d1 Bench.start)
                         eq_refl (or_intror (or_introl eq_refl))
                         (Zle_bool_imp_le 0 4 eq_refl) 0x40 eq_refl
                         (Zle_bool_imp_le 0 0x40 eq_refl)
                         (Zle_bool_imp_le (0x40 + 4 + 2) 0x1000 eq_refl)))).
Defined.

(** X16 on two longs from 0xffc on: the first is written, the second ends
    the run. *)
Lemma writes_before_death_witness :
  write_positions
    (new_events (exec_values Bench.quiet 4 Bench.d1 0xffc
                   [{| v_value := 1; v_mask := 0xFFFFFFFF |};
                    {| v_value := 2; v_mask := 0xFFFFFFFF |}]) Bench.start)
  = [0xffc].
Proof.
  exact (proj2 (proj2 (@writes_before_death Bench.lib Bench.quiet 4 Bench.d1
                         [{| v_value := 1; v_mask := 0xFFFFFFFF |}]
                         {| v_value := 2; v_mask := 0xFFFFFFFF |} [] 0xffc Bench.start
                         (or_intror (or_intror eq_refl))
                         (Zle_bool_imp_le (0xffc + 4 * 1) 0x1000 eq_refl)
                         (proj1 (Z.ltb_lt 0x1000 (0xffc + 4 * 1 + 4)) eq_refl)))).
Defined.

(** X17 on [-s 0 04.B 05.B -s 1 04.B]. *)
Lemma parsed_vectors_witness :
  StronglySorted by_vector
    (first_op (Bench.parsed ["-s"; "0"; "04.B"; "05.B"; "-s"; "1"; "04.B"])).
Proof.
  exact (proj1 (proj2 (proj2 (proj2
           (@parsed_vectors LP64 Bench.lib Bench.quiet Bench.devices Bench.no_junk
              ["-s"; "0"; "04.B"; "05.B"; "-s"; "1"; "04.B"]
              (Bench.parsed ["-s"; "0"; "04.B"; "05.B"; "-s"; "1"; "04.B"])
              eq_refl))))).
Defined.

(** X18 on 0x12345678. *)
Lemma swab32_reverses_witness : ByteOrder.swab32 0x12345678 = 0x78563412.
Proof.
  apply (proj1 (@swab32_reverses 0x12345678
                  (conj (Zle_bool_imp_le 0 0x12345678 eq_refl)
                        (proj1 (Z.ltb_lt 0x12345678 0x100000000) eq_refl)))
           0x78 0x56 0x34 0x12);
    try (split; [apply Zle_bool_imp_le | apply Z.ltb_lt]; reflexivity).
  reflexivity.
Defined.

(** X19 on 0x1234. *)
Lemma swab16_reverses_witness : ByteOrder.swab16 0x1234 = 0x3412.
Proof.
  apply (proj1 (@swab16_reverses 0x1234
                  (conj (Zle_bool_imp_le 0 0x1234 eq_refl)
                        (proj1 (Z.ltb_lt 0x1234 0x10000) eq_refl)))
           0x34 0x12);
    try (split; [apply Zle_bool_imp_le | apply Z.ltb_lt]; reflexivity).
  reflexivity.
Defined.

(** X20 on [1:2,3]: the second value is stored under the mask of the
    first. *)
Lemma pointer_f_witness :
  @parse_values LP64 2 0xff EmptyString (Some "1:2,3")
  = Ok [{| v_value := 0; v_mask := 2 |}; {| v_value := 2; v_mask := 2 |}].
Proof.
  exact (proj2 (proj2 (@pointer_f LP64 0xff)) EmptyString "1:2" 1 "2" 2 "3" 3
           eq_refl eq_refl eq_refl eq_refl eq_refl eq_refl eq_refl eq_refl).
Defined.

(** X21 on [0x40]. *)
Lemma number_spellings_witness : @parse_x32 LP64 "0x40" = X32_full 0x40.
Proof.
  exact (proj1 (@number_spellings LP64 "40" 0x40 eq_refl
                  (Zle_bool_imp_le 0x40 UINT_MAX eq_refl))).
Defined.

(** X22 on [-s 1 04.B]: one device on bus 1, whose byte at 4 is 0xa5. *)
Lemma read_command_witness :
  trace (snd (@main LP64 Bench.lib Bench.no_junk Bench.devices
                ["-s"; "1"; "04.B"] Bench.start))
  = [Read Bench.d3 4 1; Print "a5"; Print newline].
Proof.
  exact (f_equal (fun r => trace (snd r))
           (@read_command LP64 Bench.lib Bench.no_junk Bench.devices "1" "04.B"
              ((Some 1, None) : @pci_filter Bench.lib)
              {| dev_vector := {| vec_addr := 0; vec_devs := [Bench.d3] |};
                 cap := 0; addr := 4; width := 1; values := [] |}
              Bench.start eq_refl eq_refl eq_refl eq_refl eq_refl eq_refl)).
Defined.

(** X23 on [command]. *)
Lemma table_names_witness :
  @parse_op LP64 "command" Bench.vec0 EmptyString []
  = Ok [reads_as Bench.vec0 (Reg 0 4 2 "COMMAND") 2].
Proof.
  apply (proj1 (proj2 (@table_names LP64 (Reg 0 4 2 "COMMAND") "command" Bench.vec0
                         EmptyString []
                         (or_intror (or_intror (or_introl eq_refl))) eq_refl))).
  discriminate.
Defined.

(** X24 on [40+4.W]. *)
Lemma numeric_register_witness :
  @parse_op LP64 "40+4.W" Bench.vec0 EmptyString [] = Ok [read_at Bench.vec0 0x44 2].
Proof.
  exact (proj1 (@numeric_register LP64 "40" 0x40 (Some ("4", 4)) "W" 2 Bench.vec0
                  EmptyString [] eq_refl (Zle_bool_imp_le 0x40 UINT_MAX eq_refl)
                  (conj eq_refl (Zle_bool_imp_le 4 UINT_MAX eq_refl)) eq_refl)).
Defined.

(** X25 on [=1:f,20:f0] for a byte. *)
Lemma masked_values_witness :
  @parse_values LP64 2 0xff EmptyString (Some "1:f,20:f0")
  = Ok [ {| v_value := 1; v_mask := 0xf |}; {| v_value := 0x20; v_mask := 0xf0 |} ].
Proof.
  refine (proj2 (@masked_values LP64 0xff EmptyString
                   [("1", "f"); ("20", "f0")] [(1, 0xf); (0x20, 0xf0)] _ _)).
  - apply Forall2_cons; [|apply Forall2_cons; [|apply Forall2_nil]];
      unfold spells; simpl fst; simpl snd;
      repeat split; try reflexivity; apply Zle_bool_imp_le; reflexivity.
  - discriminate.
Defined.

(** ** Runs of the program on the small library *)

(** [COMMAND=0006] writes the 16 bits with no read. *)
Example run_command :
  trace (snd (@main LP64 Bench.lib Bench.no_junk Bench.devices
                ["-s"; "1"; "COMMAND=0006"] Bench.start))
  = [Write Bench.d3 4 2 6].
Proof. vm_compute. reflexivity. Qed.

(** [04.B=02:0f] over 0xa5, verbose and in demo mode: the line is printed
    and nothing is written. *)
Example run_masked_demo :
  trace (snd (@main LP64 Bench.lib Bench.no_junk Bench.devices
                ["-vD"; "-s"; "1"; "04.B=02:0f"] Bench.start))
  = [Print "01:00.0"; Print ":04"; Read Bench.d3 4 1; Print " ";
     Print "a5->(02:0f)->a2"; Print newline].
Proof. vm_compute. reflexivity. Qed.

(** [CAP_PM+4.W] on a device without the capability. *)
Example run_missing_capability :
  fst (@main LP64 Bench.lib Bench.no_junk Bench.devices
         ["-s"; "1"; "CAP_PM+4.W"] Bench.start)
  = Err (CapabilityNotFound 0x10001).
Proof. vm_compute. reflexivity. Qed.

(** A filter that matches nothing: a warning, and no access. *)
Example run_no_device :
  warnings (Bench.parsed ["-s"; "7"; "BASE_ADDRESS_0.L=10000000"])
  = ["BASE_ADDRESS_0.L=10000000"] /\
  fst (@main LP64 Bench.lib Bench.no_junk Bench.devices
         ["-s"; "7"; "BASE_ADDRESS_0.L=10000000"] Bench.start) = Ok tt /\
  trace (snd (@main LP64 Bench.lib Bench.no_junk Bench.devices
                ["-s"; "7"; "BASE_ADDRESS_0.L=10000000"] Bench.start)) = [].
Proof. repeat split; vm_compute; reflexivity. Qed.

(** [1000.B] is refused by the parser. *)
Example run_boundary :
  fst (@main LP64 Bench.lib Bench.no_junk Bench.devices
         ["-s"; "0"; "1000.B"] Bench.start) = Err RegisterOutOfRange /\
  trace (snd (@main LP64 Bench.lib Bench.no_junk Bench.devices
                ["-s"; "0"; "1000.B"] Bench.start)) = [].
Proof. split; vm_compute; reflexivity. Qed.

(** A value with no mask after a value with one: [parse_x32] leaves the
    pointer [f] at the mask of the first, which is read again. *)
Example run_second_value :
  @parse_op LP64 "04.B=1:2,3" Bench.vec0 EmptyString []
  = Ok [{| dev_vector := Bench.vec0; cap := 0; addr := 4; width := 1;
           values := [{| v_value := 0; v_mask := 2 |};
                      {| v_value := 2; v_mask := 2 |}] |}].
Proof. vm_compute. reflexivity. Qed.

(** With a 32-bit [unsigned long] a byte value may be given in two's
    complement; with 64 bits it may not. *)
Example run_negative_value :
  (exists ops, @parse_op ILP32 "04.B=ffffff01" Bench.vec0 EmptyString [] = Ok ops) /\
  @parse_op LP64 "04.B=ffffff01" Bench.vec0 EmptyString []
  = Err (ValueOutOfRange "ffffff01").
Proof. split; [eexists|]; vm_compute; reflexivity. Qed.
